(** * imgui-app: the image folder navigator of [src/main.cpp]

    A shallow embedding of the C++ functions [EndsWith], [GetImageFiles],
    [ShowImageSubwindow] and [getDataPath], and the properties of the
    image-browsing widget proved (or refuted) on it.

    Conventions of the embedding:
    - [std::string] is [string]; [std::vector<std::string>] is [list string];
    - [size_t] is a [Z] in [0, 2^64) with the wrap-around written out
      ([size_t_wrap]); [int] and [GLuint] values are [Z] (the code does no
      arithmetic on them);
    - [float] is IEEE binary32, computed with the standard library's
      [SpecFloat] operations at precision 24 and maximal exponent 128;
    - the function-local [static] variables of [ShowImageSubwindow] are the
      record [BrowserState]; the OpenGL texture objects are a finite map from
      texture names to uploaded images; everything the function does to the
      outside (scanning, decoding, GL calls, [std::cerr], ImGui calls) is
      appended to a trace of [event]s;
    - [operator[]] out of range is undefined behaviour and is the outcome
      [Undefined]. *)

From Stdlib Require Import ZArith Ascii String List Bool Lia.
From Stdlib Require Import Floats.SpecFloat.
From stdpp Require Import base option list gmap strings.

Local Open Scope Z_scope.

(** ** Strings *)

Definition chars (s : string) : list ascii := list_ascii_of_string s.

(** [bool EndsWith(const std::string& str, const std::string& suffix)]:
    [str.size() >= suffix.size() &&
     str.compare(str.size() - suffix.size(), suffix.size(), suffix) == 0]. *)
Definition EndsWith (str suffix : string) : bool :=
  (String.length suffix <=? String.length str)%nat &&
  String.eqb
    (String.substring (String.length str - String.length suffix)
                      (String.length suffix) str)
    suffix.

(** What the spec calls "the name ends in the suffix". *)
Definition ends_in (str suffix : string) : Prop :=
  exists front : string, str = front +:+ suffix.

(** ** The file system seen by [std::filesystem] *)

(** The kind [entry.is_regular_file()] and [is_directory] observe (symbolic
    links followed). *)
Inductive file_kind := RegularFile | DirectoryFile | OtherFile.

Record dir_entry := DirEntry { entry_name : string; entry_kind : file_kind }.

(** What a path designates; a directory lists its entries in the order
    [directory_iterator] yields them. *)
Inductive node :=
| NFile
| NDirectory (entries : list dir_entry)
| NOther.

Definition filesystem := string -> option node.

Definition fs_exists (fs : filesystem) (p : string) : bool :=
  match fs p with Some _ => true | None => false end.

Definition fs_is_directory (fs : filesystem) (p : string) : bool :=
  match fs p with Some (NDirectory _) => true | _ => false end.

Definition is_regular_file (e : dir_entry) : bool :=
  match entry_kind e with RegularFile => true | _ => false end.

Definition separator : ascii := "/"%char.

Definition has_trailing_separator (p : string) : bool :=
  match rev (chars p) with
  | c :: _ => Ascii.eqb c separator
  | [] => false
  end.

Definition is_absolute (p : string) : bool :=
  match p with
  | String c _ => Ascii.eqb c separator
  | EmptyString => false
  end.

(** [std::filesystem::path::operator/] on POSIX paths: an absolute right
    operand replaces the left one; otherwise a separator is inserted unless
    the left operand is empty or already ends with one. *)
Definition path_append (p q : string) : string :=
  if is_absolute q then q
  else if String.eqb p EmptyString || has_trailing_separator p then p +:+ q
  else p +:+ "/" +:+ q.

(** [std::vector<std::string> GetImageFiles(const std::string& directory)],
    on a file system where no [std::filesystem] call throws (the exceptions
    are in [GetImageFiles_throwing] below). *)
Definition is_image_path (path : string) : bool :=
  EndsWith path ".png" || EndsWith path ".jpg" || EndsWith path ".jpeg".

Fixpoint scan_entries (dirPath : string) (entries : list dir_entry)
  (image_files : list string) : list string :=
  match entries with
  | [] => image_files
  | entry :: rest =>
      let path := path_append dirPath (entry_name entry) in
      if is_regular_file entry && is_image_path path
      then scan_entries dirPath rest (image_files ++ [path])
      else scan_entries dirPath rest image_files
  end.

Definition GetImageFiles (fs : filesystem) (directory : string) : list string :=
  let image_files := [] in
  if negb (fs_exists fs directory) || negb (fs_is_directory fs directory)
  then image_files
  else match fs directory with
       | Some (NDirectory entries) => scan_entries directory entries image_files
       | _ => image_files
       end.

(** The scanner as the spec words it: the regular files of the directory
    whose name ends in a recognized suffix, in enumeration order. *)
Definition recognized_suffixes : list string := [".png"; ".jpg"; ".jpeg"].

Definition has_recognized_name (e : dir_entry) : bool :=
  is_regular_file e && existsb (EndsWith (entry_name e)) recognized_suffixes.

Definition scan (fs : filesystem) (D : string) : list string :=
  match fs D with
  | Some (NDirectory entries) =>
      map (fun e => path_append D (entry_name e))
          (List.filter has_recognized_name entries)
  | _ => []
  end.

(** [GetImageFiles] above is the function on a file system where no
    [std::filesystem] call throws. The calls it makes ([exists],
    [is_directory], the construction and increment of [directory_iterator],
    [entry.is_regular_file()]) are the throwing overloads and nothing
    catches; [GetImageFiles_throwing] is the function with that outcome. *)
Inductive fs_error := EACCES | ENAMETOOLONG | ELOOP | EIO.

(** What [entry.is_regular_file()] finds: the kind of the entry, or an error
    when its status cannot be determined. *)
Inductive entry_status :=
| Kind (k : file_kind)
| KindUnknown (e : fs_error).

Record os_entry := OsEntry { os_entry_name : string; os_entry_status : entry_status }.

(** Iterating a directory: opening it fails, or it yields entries and then
    ends or fails on an increment. *)
Inductive os_listing :=
| OpenFails (e : fs_error)
| Listing (entries : list os_entry) (halt : option fs_error).

(** What [status(p)] gives: not found ([ENOENT], [ENOTDIR]), an error (the
    throwing overload throws), or a file type. *)
Inductive os_status :=
| NotFound
| StatusUnknown (e : fs_error)
| IsFile
| IsOther
| IsDirectory (l : os_listing).

Definition os_filesystem := string -> os_status.

Inductive scan_result :=
| Returned (image_files : list string)
| Thrown (e : fs_error).

(** The [for] loop of lines 121-128 with its exceptions. *)
Fixpoint scan_entries_throwing (dirPath : string) (entries : list os_entry)
  (halt : option fs_error) (image_files : list string) : scan_result :=
  match entries with
  | [] =>
      match halt with
      | Some e => Thrown e
      | None => Returned image_files
      end
  | entry :: rest =>
      match os_entry_status entry with
      | KindUnknown e => Thrown e
      | Kind RegularFile =>
          let path := path_append dirPath (os_entry_name entry) in
          if is_image_path path
          then scan_entries_throwing dirPath rest halt (image_files ++ [path])
          else scan_entries_throwing dirPath rest halt image_files
      | Kind _ => scan_entries_throwing dirPath rest halt image_files
      end
  end.

(** [std::vector<std::string> GetImageFiles(const std::string& directory)],
    lines 115-130, with the exceptions of the calls it makes. *)
Definition GetImageFiles_throwing (fs : os_filesystem) (directory : string)
  : scan_result :=
  let image_files := [] in
  match fs directory with
  | StatusUnknown e => Thrown e
  | NotFound => Returned image_files
  | IsFile => Returned image_files
  | IsOther => Returned image_files
  | IsDirectory (OpenFails e) => Thrown e
  | IsDirectory (Listing entries halt) =>
      scan_entries_throwing directory entries halt image_files
  end.

(** A file system where nothing fails, seen at this level. *)
Definition error_free (fs : filesystem) : os_filesystem := fun p =>
  match fs p with
  | None => NotFound
  | Some NFile => IsFile
  | Some NOther => IsOther
  | Some (NDirectory entries) =>
      IsDirectory
        (Listing (map (fun e => OsEntry (entry_name e) (Kind (entry_kind e))) entries)
                 None)
  end.

(** In the spec's words: the entries that are regular files with a
    recognized suffix, and the first failure met while iterating. *)
Definition is_recognized_file (e : os_entry) : bool :=
  match os_entry_status e with
  | Kind RegularFile => existsb (EndsWith (os_entry_name e)) recognized_suffixes
  | _ => false
  end.

Fixpoint first_failure (entries : list os_entry) (halt : option fs_error)
  : option fs_error :=
  match entries with
  | [] => halt
  | entry :: rest =>
      match os_entry_status entry with
      | KindUnknown e => Some e
      | Kind _ => first_failure rest halt
      end
  end.

(** A disk with a directory that cannot be opened, a directory one of whose
    entries cannot be examined, and a path whose status cannot be
    determined. *)
Definition guarded_disk : os_filesystem := fun p =>
  if String.eqb p "locked" then IsDirectory (OpenFails EACCES)
  else if String.eqb p "mixed" then
    IsDirectory (Listing [ OsEntry "a.png" (Kind RegularFile);
                           OsEntry "b.png" (KindUnknown EIO);
                           OsEntry "c.png" (Kind RegularFile) ] None)
  else if String.eqb p "vault/pictures" then StatusUnknown EACCES
  else if String.eqb p "album" then
    IsDirectory (Listing [ OsEntry "a.png" (Kind RegularFile);
                           OsEntry "b.jpg" (Kind RegularFile);
                           OsEntry "c.txt" (Kind RegularFile) ] None)
  else if String.eqb p "notes.txt" then IsFile
  else NotFound.

(** [std::filesystem::path::parent_path] on POSIX paths: the last component
    and the separators before it are removed; the root directory is its own
    parent. (A path made of several separators only is given as [/] here;
    the library keeps it as written.) *)
Definition is_separator (c : ascii) : bool := Ascii.eqb c separator.

Fixpoint drop_while (f : ascii -> bool) (l : list ascii) : list ascii :=
  match l with
  | c :: l' => if f c then drop_while f l' else l
  | [] => []
  end.

Definition parent_path (p : string) : string :=
  let without_filename := drop_while (fun c => negb (is_separator c)) (rev (chars p)) in
  match drop_while is_separator without_filename with
  | [] => if is_absolute p then "/" else EmptyString
  | stem => string_of_list_ascii (rev stem)
  end.

(** ** [getDataPath] *)

(** [#if defined(__APPLE__)] and the result of [_NSGetExecutablePath]:
    [Some execPath] when the call returns 0. *)
Inductive platform :=
| Apple (NSGetExecutablePath : option string)
| NotApple.

Record environment := Environment {
  os : platform;
  current_path : string;
  files : filesystem
}.

Definition is_existing_directory (fs : filesystem) (p : string) : bool :=
  fs_exists fs p && fs_is_directory fs p.

Definition systemPaths : list string :=
  [ "/usr/local/share/cmake_imgui_app_macos/data";
    "/opt/local/share/cmake_imgui_app_macos/data";
    "/usr/share/cmake_imgui_app_macos/data" ].

(** [execP.parent_path().parent_path() / "Resources" / "data"]. *)
Definition bundle_resources (execPath : string) : string :=
  path_append (path_append (parent_path (parent_path execPath)) "Resources") "data".

(** The [for (const auto& path : systemPaths)] loop: [Some path] when the
    loop returns from inside, [None] when it runs to its end. *)
Fixpoint first_system_path (fs : filesystem) (paths : list string) : option string :=
  match paths with
  | [] => None
  | path :: rest =>
      if is_existing_directory fs path then Some path
      else first_system_path fs rest
  end.

(** Priority 1, the [#if defined(__APPLE__)] block: [Some resources] when
    the block returns. *)
Definition bundle_first (env : environment) : option string :=
  match os env with
  | Apple (Some execPath) =>
      let resources := bundle_resources execPath in
      if is_existing_directory (files env) resources then Some resources else None
  | Apple None => None
  | NotApple => None
  end.

(** [static std::filesystem::path getDataPath()], for an environment in
    which [current_path], [exists] and [is_directory] do not throw. *)
Definition getDataPath (env : environment) : string :=
  match bundle_first env with
  | Some resources => resources
  | None =>
      let cwdData := path_append (current_path env) "data" in
      if is_existing_directory (files env) cwdData then cwdData
      else
        let execDir := current_path env in
        let relativeData := path_append execDir "data" in
        if is_existing_directory (files env) relativeData then relativeData
        else
          match first_system_path (files env) systemPaths with
          | Some path => path
          | None => path_append (current_path env) "data"
          end
  end.

(** The resolver as the spec words it: the candidates in their fixed order
    (the bundle location exists as a candidate only where the executable
    path is known), and the first of them that is an existing directory. *)
Definition fallback_order (env : environment) : list string :=
  match os env with
  | Apple (Some execPath) => [bundle_resources execPath]
  | _ => []
  end
  ++ [path_append (current_path env) "data"]
  ++ systemPaths.

Definition resolve (env : environment) : string :=
  match List.find (is_existing_directory (files env)) (fallback_order env) with
  | Some path => path
  | None => path_append (current_path env) "data"
  end.

(** ** Numbers *)

(** [size_t] arithmetic (64 bits). *)
Definition SIZE_MAX : Z := 2 ^ 64 - 1.
Definition size_t_wrap (z : Z) : Z := z mod 2 ^ 64.

(** [image_files.size()] and [image_files.empty()]. *)
Definition size (v : list string) : Z := Z.of_nat (length v).
Definition empty (v : list string) : bool :=
  match v with [] => true | _ => false end.

(** IEEE binary32. *)
Definition float_of_int (z : Z) : spec_float := binary_normalize 24 128 z 0 false.
Definition fmul : spec_float -> spec_float -> spec_float := SFmul 24 128.
Definition fdiv : spec_float -> spec_float -> spec_float := SFdiv 24 128.

Record ImVec2 := Vec2 { vx : spec_float; vy : spec_float }.

(** ** The world outside the widget *)

(** What [stbi_load(path, &w, &h, &channels, 4)] returns for a file that
    decodes: its dimensions and its RGBA bytes. *)
Record image := Image_ {
  pixel_width : Z;
  pixel_height : Z;
  pixel_data : list Z
}.

Record world := World {
  disk : filesystem;
  (** [None]: [stbi_load] returns a null pointer (the two dimension outputs
      are then taken as left untouched). *)
  stbi_load : string -> option image
}.

(** ImGui calls made by the widget, in the order made. *)
Inductive draw_cmd :=
| BeginChild (str_id : string) (size_arg : ImVec2) (border : bool)
| Image (user_texture_id : Z) (image_size : ImVec2)
| AddRect (r g b a : Z) (thickness : Z)
| SetCursorPosY_plus (dy : Z)
| PushStyleColor (r g b a : Z)
| Button (label : string)
| SameLine
| PopStyleColor (count : Z)
| Text (s : string)
| EndChild.

Inductive event :=
| Scanned (directory : string)
| Decoded (path : string) (ok : bool)
| GenTextures (name : Z)
| TexImage2D (name : Z) (w h : Z)
| DeleteTextures (name : Z)
| Cerr (line : string)
| ImGui (c : draw_cmd).

(** ** The persistent state *)

(** The [static] locals of [ShowImageSubwindow]. [texture = 0] is "no
    texture". *)
Record BrowserState := Browser {
  image_files : list string;
  last_directory : string;
  current_image_index : Z;
  texture : Z;
  img_width : Z;
  img_height : Z
}.

(** Their initialisers, run once. *)
Definition initial_state : BrowserState :=
  {| image_files := []; last_directory := EmptyString; current_image_index := 0;
     texture := 0; img_width := 0; img_height := 0 |}.

Record machine := Machine {
  statics : BrowserState;
  gl_textures : gmap Z image;
  trace : list event
}.

Definition initial_machine : machine :=
  {| statics := initial_state; gl_textures := ∅; trace := [] |}.

Definition emit (evs : list event) (m : machine) : machine :=
  {| statics := statics m; gl_textures := gl_textures m; trace := trace m ++ evs |}.

(** [glGenTextures(1, &texture)] hands out a name that is not 0 and not in
    use. *)
Definition glGenTextures (textures : gmap Z image) : Z :=
  fresh ({[0]} ∪ dom textures).

(** What one call reads from the user and from ImGui's layout. *)
Record frame_input := FrameInput {
  content_region_avail : ImVec2;
  prev_clicked : bool;
  next_clicked : bool
}.

(** ** [ShowImageSubwindow] *)

(** How a call ends: it returns (normally or by the early [return;]) in
    some machine state, or it indexes [image_files] out of range. *)
Inductive outcome :=
| Finished (m : machine)
| Undefined.

(** How the texture-loading block ends. *)
Inductive load_result :=
| LoadContinue (m : machine)
| LoadReturn (m : machine)
| LoadUndefined.

(** Lines 135-138: [if (last_directory != directory) { image_files =
    GetImageFiles(directory); last_directory = directory; }]. *)
Definition rebind (w : world) (directory : string) (m : machine) : machine :=
  let st := statics m in
  if negb (String.eqb (last_directory st) directory) then
    {| statics :=
         {| image_files := GetImageFiles (disk w) directory;
            last_directory := directory;
            current_image_index := current_image_index st;
            texture := texture st;
            img_width := img_width st;
            img_height := img_height st |};
       gl_textures := gl_textures m;
       trace := trace m ++ [Scanned directory] |}
  else m.

(** Lines 143-159: [if (texture == 0 && !image_files.empty()) { ... }]. *)
Definition load_current (w : world) (m : machine) : load_result :=
  let st := statics m in
  if (texture st =? 0) && negb (empty (image_files st)) then
    match image_files st !! Z.to_nat (current_image_index st) with
    | None => LoadUndefined
    | Some image_path =>
        match stbi_load w image_path with
        | Some data =>
            let name := glGenTextures (gl_textures m) in
            LoadContinue
              {| statics :=
                   {| image_files := image_files st;
                      last_directory := last_directory st;
                      current_image_index := current_image_index st;
                      texture := name;
                      img_width := pixel_width data;
                      img_height := pixel_height data |};
                 gl_textures := <[name := data]> (gl_textures m);
                 trace := trace m ++
                   [ Decoded image_path true; GenTextures name;
                     TexImage2D name (pixel_width data) (pixel_height data) ] |}
        | None =>
            LoadReturn
              (emit [ Decoded image_path false;
                      Cerr ("Failed to load image: " +:+ image_path) ] m)
        end
    end
  else LoadContinue m.

(** Lines 161-166: the size of the child window; -1 means "what the parent
    has left" on that axis. *)
Definition child_size (width height : Z) (avail : ImVec2) : ImVec2 :=
  let size := {| vx := float_of_int width; vy := float_of_int height |} in
  if (width =? -1) || (height =? -1) then
    let parent_size := avail in
    {| vx := if width =? -1 then vx parent_size else vx size;
       vy := if height =? -1 then vy parent_size else vy size |}
  else size.

(** Lines 170-171. *)
Definition fixed_height : spec_float := float_of_int 150.
Definition fixed_width (st : BrowserState) : spec_float :=
  fmul fixed_height (fdiv (float_of_int (img_width st)) (float_of_int (img_height st))).

(** Lines 168-187, up to and including the call [ImGui::Button("<-")]. *)
Definition draw_image (title : string) (size : ImVec2) (m : machine) : machine :=
  emit
    [ ImGui (BeginChild title size true);
      ImGui (Image (texture (statics m))
               {| vx := fixed_width (statics m); vy := fixed_height |});
      ImGui (AddRect 255 255 255 255 2);
      ImGui (SetCursorPosY_plus 10);
      ImGui (PushStyleColor 255 192 203 255);
      ImGui (PushStyleColor 255 0 0 255);
      ImGui (PushStyleColor 0 0 0 255);
      ImGui (Button "<-") ] m.

(** [glDeleteTextures(1, &texture); texture = 0;] with the index moved to
    [index]. *)
Definition release_and_move (index : Z) (m : machine) : machine :=
  let st := statics m in
  {| statics :=
       {| image_files := image_files st;
          last_directory := last_directory st;
          current_image_index := index;
          texture := 0;
          img_width := img_width st;
          img_height := img_height st |};
     gl_textures := delete (texture st) (gl_textures m);
     trace := trace m ++ [DeleteTextures (texture st)] |}.

(** Lines 188-192, the body run when "<-" is activated. *)
Definition on_prev (m : machine) : machine :=
  let st := statics m in
  if 0 <? current_image_index st
  then release_and_move (size_t_wrap (current_image_index st - 1)) m
  else m.

(** Lines 196-200, the body run when "->" is activated. *)
Definition on_next (m : machine) : machine :=
  let st := statics m in
  if size_t_wrap (current_image_index st + 1) <? size (image_files st)
  then release_and_move (size_t_wrap (current_image_index st + 1)) m
  else m.

(** Lines 202-211. *)
Definition draw_caption (title : string) (m : machine) : outcome :=
  let m := emit [ ImGui (PopStyleColor 3); ImGui (SetCursorPosY_plus 10);
                  ImGui (Text title) ] m in
  let st := statics m in
  if negb (empty (image_files st)) then
    match image_files st !! Z.to_nat (current_image_index st) with
    | None => Undefined
    | Some current =>
        Finished (emit [ ImGui (Text ("Current media: " +:+ current));
                         ImGui EndChild ] m)
    end
  else Finished (emit [ImGui EndChild] m).

(** Lines 161-211, run when the loading block falls through. *)
Definition draw (title : string) (width height : Z) (inp : frame_input)
  (m : machine) : outcome :=
  let size := child_size width height (content_region_avail inp) in
  let m := draw_image title size m in
  let m := if prev_clicked inp then on_prev m else m in
  let m := emit [ImGui SameLine; ImGui (Button "->")] m in
  let m := if next_clicked inp then on_next m else m in
  draw_caption title m.

(** [void ShowImageSubwindow(const char* title, const std::string& directory,
    int width = -1, int height = -1)]. *)
Definition ShowImageSubwindow (w : world) (title directory : string)
  (width height : Z) (inp : frame_input) (m : machine) : outcome :=
  match load_current w (rebind w directory m) with
  | LoadUndefined => Undefined
  | LoadReturn m' => Finished m'
  | LoadContinue m' => draw title width height inp m'
  end.

(** A run of render calls, each with its own arguments and input. *)
Record call := Call {
  call_title : string;
  call_directory : string;
  call_width : Z;
  call_height : Z;
  call_input : frame_input
}.

Fixpoint run (w : world) (calls : list call) (m : machine) : outcome :=
  match calls with
  | [] => Finished m
  | c :: rest =>
      match ShowImageSubwindow w (call_title c) (call_directory c)
              (call_width c) (call_height c) (call_input c) m with
      | Finished m' => run w rest m'
      | Undefined => Undefined
      end
  end.

(** The main loop, as far as the widget is concerned; each iteration runs
    [auto dataPath = getDataPath(); ShowImageSubwindow("(Image Folder
    Navigator)", dataPath.string(), -1, 250);] in an environment that stays
    as it is. *)
Definition main_call (env : environment) (inp : frame_input) : call :=
  Call "(Image Folder Navigator)" (getDataPath env) (-1) 250 inp.

Definition main_loop (env : environment) (w : world) (inputs : list frame_input)
  (m : machine) : outcome :=
  run w (map (main_call env) inputs) m.

(** ** Vocabulary of the properties *)

(** What a call appended to the trace. *)
Definition events_since (before after : machine) : list event :=
  drop (length (trace before)) (trace after).

(** A call began and ended the child window of the panel. *)
Definition panel_rendered (title : string) (evs : list event) : Prop :=
  (exists size border, In (ImGui (BeginChild title size border)) evs) /\
  In (ImGui EndChild) evs.

(** The index addresses an element of [image_files]. *)
Definition index_in_range (st : BrowserState) : Prop :=
  0 <= current_image_index st < size (image_files st).

(** The data-model constraint on a [BrowserState]: with images the index
    addresses one of them. *)
Definition index_valid (st : BrowserState) : Prop :=
  image_files st = [] \/ index_in_range st.

(** The held texture holds the decoded image of [image_files[current_image_index]]. *)
Definition texture_current (w : world) (m : machine) : Prop :=
  texture (statics m) <> 0 ->
  exists path data,
    image_files (statics m) !! Z.to_nat (current_image_index (statics m)) = Some path /\
    stbi_load w path = Some data /\
    gl_textures m !! texture (statics m) = Some data.

(** The state a run over one directory keeps: the index is 0 without
    images and addresses an image otherwise, and a held texture is the
    current one. *)
Definition consistent (w : world) (m : machine) : Prop :=
  ((image_files (statics m) = [] /\ current_image_index (statics m) = 0) \/
   index_in_range (statics m)) /\
  texture_current w m.

(** [consistent] once [directory] is bound; before that the statics still
    have the index and the texture of their initialisers. *)
Definition coherent (w : world) (directory : string) (m : machine) : Prop :=
  (last_directory (statics m) <> directory ->
     current_image_index (statics m) = 0 /\ texture (statics m) = 0 /\
     image_files (statics m) = []) /\
  (last_directory (statics m) = directory -> consistent w m).

(** Two machines that differ at most in their traces, and two outcomes that
    do. *)
Definition same_state (m1 m2 : machine) : Prop :=
  statics m1 = statics m2 /\ gl_textures m1 = gl_textures m2.

Definition same_outcome (o1 o2 : outcome) : Prop :=
  match o1, o2 with
  | Finished m1, Finished m2 => same_state m1 m2
  | Undefined, Undefined => True
  | _, _ => False
  end.

(** Button activations on their own. *)
Inductive press := Prev | Next.

Definition activate (m : machine) (p : press) : machine :=
  match p with
  | Prev => on_prev m
  | Next => on_next m
  end.

Definition activations (presses : list press) (m : machine) : machine :=
  fold_left activate presses m.

(** "Distinct titles never share state": the first call under title [B]
    leaves the list, the stored directory, the index and the dimensions
    that it would leave had no call under another title [A] come before,
    and holds a texture in the one case exactly when it does in the other.
    Texture names and traces are not compared: names come from the GL
    context, which any two widgets share. *)
Definition state_keyed_by_title : Prop :=
  forall w A B directory width height inpA inpB mA mB mAB,
    A <> B ->
    ShowImageSubwindow w A directory width height inpA initial_machine = Finished mA ->
    ShowImageSubwindow w B directory width height inpB initial_machine = Finished mB ->
    ShowImageSubwindow w B directory width height inpB mA = Finished mAB ->
    image_files (statics mAB) = image_files (statics mB) /\
    last_directory (statics mAB) = last_directory (statics mB) /\
    current_image_index (statics mAB) = current_image_index (statics mB) /\
    img_width (statics mAB) = img_width (statics mB) /\
    img_height (statics mAB) = img_height (statics mB) /\
    (texture (statics mAB) = 0 <-> texture (statics mB) = 0).

(** ** Sample worlds *)

Definition photo (w h : Z) (tag : Z) : image :=
  {| pixel_width := w; pixel_height := h; pixel_data := [tag] |}.

(** [album] holds the files of the spec's scenario, a file with an upper-case
    suffix and a subdirectory, and is also reachable as [album/]; [other] holds two images, [small] one, [vacant] none, and the
    only file of [damaged] does not decode. *)
Definition sample_disk : filesystem := fun p =>
  if String.eqb p "album" || String.eqb p "album/" then
    Some (NDirectory [ DirEntry "a.png" RegularFile; DirEntry "b.jpg" RegularFile;
                       DirEntry "c.txt" RegularFile; DirEntry "d.PNG" RegularFile;
                       DirEntry "sub.png" DirectoryFile ])
  else if String.eqb p "other" then
    Some (NDirectory [ DirEntry "y.png" RegularFile; DirEntry "z.png" RegularFile ])
  else if String.eqb p "small" then
    Some (NDirectory [ DirEntry "only.png" RegularFile ])
  else if String.eqb p "vacant" then Some (NDirectory [])
  else if String.eqb p "damaged" then
    Some (NDirectory [ DirEntry "torn.png" RegularFile ])
  else if String.eqb p "notes.txt" then Some NFile
  else None.

Definition sample_decoder (path : string) : option image :=
  if String.eqb path "album/a.png" then Some (photo 4 2 1)
  else if String.eqb path "album/b.jpg" then Some (photo 3 3 2)
  else if String.eqb path "other/y.png" then Some (photo 1 1 3)
  else if String.eqb path "other/z.png" then Some (photo 2 1 4)
  else if String.eqb path "small/only.png" then Some (photo 5 5 5)
  else None.

Definition sample_world : world :=
  {| disk := sample_disk; stbi_load := sample_decoder |}.

Definition region : ImVec2 := {| vx := float_of_int 400; vy := float_of_int 600 |}.
Definition idle : frame_input := FrameInput region false false.
Definition click_prev : frame_input := FrameInput region true false.
Definition click_next : frame_input := FrameInput region false true.

Definition show (directory : string) (inp : frame_input) : call :=
  Call "(Image Folder Navigator)" directory (-1) 250 inp.

(** The application run from inside its bundle. *)
Definition bundled : environment :=
  {| os := Apple (Some "/Applications/App.app/Contents/MacOS/app");
     current_path := "/Users/me";
     files := fun p =>
       if String.eqb p "/Applications/App.app/Contents/Resources/data"
       then Some (NDirectory []) else None |}.

(** The widget showing the first and the last image of [album]. *)
Definition album_files : list string := ["album/a.png"; "album/b.jpg"].

Definition showing_first : machine :=
  {| statics := {| image_files := album_files; last_directory := "album";
                   current_image_index := 0; texture := 1;
                   img_width := 4; img_height := 2 |};
     gl_textures := {[ 1 := photo 4 2 1 ]};
     trace := [] |}.

Definition showing_last : machine :=
  {| statics := {| image_files := album_files; last_directory := "album";
                   current_image_index := 1; texture := 1;
                   img_width := 3; img_height := 3 |};
     gl_textures := {[ 1 := photo 3 3 2 ]};
     trace := [] |}.

(** ** [LoadTextureFromFile] *)

(** The part of the OpenGL state the function touches: the texture objects
    with their level-0 image and sampling parameters, the 2D binding, and
    the unpack alignment. *)
Inductive gl_filter := GL_NEAREST | GL_LINEAR | GL_NEAREST_MIPMAP_LINEAR.
Inductive gl_wrap := GL_REPEAT | GL_CLAMP_TO_EDGE.

Record texture_object := TextureObject {
  level0 : option image;
  min_filter : gl_filter;
  mag_filter : gl_filter;
  wrap_s : gl_wrap;
  wrap_t : gl_wrap
}.

(** The state of a texture object when it is first bound. *)
Definition new_texture_object : texture_object :=
  {| level0 := None; min_filter := GL_NEAREST_MIPMAP_LINEAR;
     mag_filter := GL_LINEAR; wrap_s := GL_REPEAT; wrap_t := GL_REPEAT |}.

Record gl_context := GLContext {
  objects : gmap Z texture_object;
  texture_binding_2d : Z;
  unpack_alignment : Z
}.

Inductive tex_parameter :=
| GL_TEXTURE_MIN_FILTER (f : gl_filter)
| GL_TEXTURE_MAG_FILTER (f : gl_filter)
| GL_TEXTURE_WRAP_S (wr : gl_wrap)
| GL_TEXTURE_WRAP_T (wr : gl_wrap).

Definition gen_texture_name (c : gl_context) : Z :=
  fresh ({[0]} ∪ dom (objects c)).

(** [glBindTexture(GL_TEXTURE_2D, name)]: a name bound for the first time
    gets a new object. *)
Definition glBindTexture (name : Z) (c : gl_context) : gl_context :=
  {| objects :=
       if name =? 0 then objects c
       else match objects c !! name with
            | Some _ => objects c
            | None => <[name := new_texture_object]> (objects c)
            end;
     texture_binding_2d := name;
     unpack_alignment := unpack_alignment c |}.

(** Calls on [GL_TEXTURE_2D] act on the bound object (binding 0 is the
    default texture, which is not tracked). *)
Definition on_bound_texture (f : texture_object -> texture_object)
  (c : gl_context) : gl_context :=
  {| objects := if texture_binding_2d c =? 0 then objects c
                else alter f (texture_binding_2d c) (objects c);
     texture_binding_2d := texture_binding_2d c;
     unpack_alignment := unpack_alignment c |}.

Definition glTexImage2D (width height : Z) (data : list Z) (c : gl_context)
  : gl_context :=
  on_bound_texture
    (fun o => {| level0 := Some {| pixel_width := width; pixel_height := height;
                                   pixel_data := data |};
                 min_filter := min_filter o; mag_filter := mag_filter o;
                 wrap_s := wrap_s o; wrap_t := wrap_t o |}) c.

Definition glTexParameteri (p : tex_parameter) (c : gl_context) : gl_context :=
  on_bound_texture
    (fun o =>
       match p with
       | GL_TEXTURE_MIN_FILTER f =>
           {| level0 := level0 o; min_filter := f; mag_filter := mag_filter o;
              wrap_s := wrap_s o; wrap_t := wrap_t o |}
       | GL_TEXTURE_MAG_FILTER f =>
           {| level0 := level0 o; min_filter := min_filter o; mag_filter := f;
              wrap_s := wrap_s o; wrap_t := wrap_t o |}
       | GL_TEXTURE_WRAP_S wr =>
           {| level0 := level0 o; min_filter := min_filter o;
              mag_filter := mag_filter o; wrap_s := wr; wrap_t := wrap_t o |}
       | GL_TEXTURE_WRAP_T wr =>
           {| level0 := level0 o; min_filter := min_filter o;
              mag_filter := mag_filter o; wrap_s := wrap_s o; wrap_t := wr |}
       end) c.

(** [glPixelStorei(GL_UNPACK_ALIGNMENT, value)]. *)
Definition glPixelStorei_unpack (value : Z) (c : gl_context) : gl_context :=
  {| objects := objects c; texture_binding_2d := texture_binding_2d c;
     unpack_alignment := value |}.

(** What the helpers outside the widget do to the outside. *)
Inductive host_event :=
| HostCerr (line : string)
| ImageFree (path : string)
| SetWindowIcon (icon : image)
| AddFontFromFileTTF (path : string) (size_pixels : spec_float).

Record load_outcome := LoadOutcome {
  returned : Z;
  context_after : gl_context;
  load_events : list host_event
}.

(** [GLuint LoadTextureFromFile(const char* filename)]. *)
Definition LoadTextureFromFile (decode : string -> option image)
  (filename : string) (c : gl_context) : load_outcome :=
  match decode filename with
  | None =>
      {| returned := 0; context_after := c;
         load_events := [HostCerr ("Failed to load image: " +:+ filename)] |}
  | Some data =>
      let width := pixel_width data in
      let height := pixel_height data in
      let texture := gen_texture_name c in
      let c := glBindTexture texture c in
      let prevUnpackAlign := unpack_alignment c in
      let c := glPixelStorei_unpack 1 c in
      let c := glTexImage2D width height (pixel_data data) c in
      let c := glTexParameteri (GL_TEXTURE_MIN_FILTER GL_LINEAR) c in
      let c := glTexParameteri (GL_TEXTURE_MAG_FILTER GL_LINEAR) c in
      let c := glTexParameteri (GL_TEXTURE_WRAP_S GL_CLAMP_TO_EDGE) c in
      let c := glTexParameteri (GL_TEXTURE_WRAP_T GL_CLAMP_TO_EDGE) c in
      let c := glPixelStorei_unpack prevUnpackAlign c in
      let c := glBindTexture 0 c in
      {| returned := texture; context_after := c;
         load_events := [ImageFree filename] |}
  end.

(** ** [setup_fonts] and [setup_logo] *)

(** [operator<<] of [std::filesystem::path] writes the path with
    [std::quoted]: between double quotes, with a backslash before every
    double quote and backslash. *)
Definition double_quote : ascii := ascii_of_nat 34.
Definition backslash : ascii := ascii_of_nat 92.

Fixpoint escaped (s : string) : string :=
  match s with
  | EmptyString => EmptyString
  | String c rest =>
      if Ascii.eqb c double_quote || Ascii.eqb c backslash
      then String backslash (String c (escaped rest))
      else String c (escaped rest)
  end.

Definition quoted (s : string) : string :=
  String double_quote (escaped s +:+ String double_quote EmptyString).

(** [void setup_fonts(ImGuiIO& io)]. *)
Definition setup_fonts (env : environment) : list host_event :=
  let font_path := path_append (getDataPath env) "DejaVuSans.ttf" in
  if fs_exists (files env) font_path
  then [AddFontFromFileTTF font_path (float_of_int 14)]
  else [HostCerr ("Font file not found: " +:+ quoted font_path)].

(** [void setup_logo(GLFWwindow* window)]. *)
Definition setup_logo (env : environment) (decode : string -> option image)
  : list host_event :=
  let logo_path := path_append (getDataPath env) "logo_viewport.png" in
  if fs_exists (files env) logo_path then
    match decode logo_path with
    | Some logo =>
        [ SetWindowIcon {| pixel_width := pixel_width logo;
                           pixel_height := pixel_height logo;
                           pixel_data := pixel_data logo |};
          ImageFree logo_path ]
    | None => [HostCerr ("Failed to load logo image: " +:+ quoted logo_path)]
    end
  else [HostCerr ("Logo file not found: " +:+ quoted logo_path)].

(** ** More vocabulary *)

(** No texture object exists but the held one, and the dimension statics
    are the dimensions of its image. *)
Definition tidy (m : machine) : Prop :=
  (texture (statics m) = 0 /\ gl_textures m = ∅) \/
  (texture (statics m) <> 0 /\
   exists data,
     gl_textures m = {[ texture (statics m) := data ]} /\
     img_width (statics m) = pixel_width data /\
     img_height (statics m) = pixel_height data).

(** The list is the scan of the stored directory. *)
Definition list_bound (w : world) (m : machine) : Prop :=
  image_files (statics m) = GetImageFiles (disk w) (last_directory (statics m)).

Definition is_imgui (e : event) : bool :=
  match e with ImGui _ => true | _ => false end.

Definition is_decode (e : event) : bool :=
  match e with Decoded _ _ => true | _ => false end.

Definition is_scan (e : event) : bool :=
  match e with Scanned _ => true | _ => false end.

(** ImGui's window and style-colour stacks, as far as the widget uses them:
    one counter of pushed colours per open window, innermost first.
    [EndChild] needs an open child whose colours were all popped;
    [PopStyleColor] needs that many colours pushed in the current window. *)
Definition nest_step (stack : option (list nat)) (e : event) : option (list nat) :=
  match stack with
  | None => None
  | Some windows =>
      match e with
      | ImGui (BeginChild _ _ _) => Some (0%nat :: windows)
      | ImGui EndChild =>
          match windows with
          | 0%nat :: (outer :: rest) => Some (outer :: rest)
          | _ => None
          end
      | ImGui (PushStyleColor _ _ _ _) =>
          match windows with
          | colours :: rest => Some (S colours :: rest)
          | [] => None
          end
      | ImGui (PopStyleColor count) =>
          match windows with
          | colours :: rest =>
              if (0 <=? count) && (count <=? Z.of_nat colours)
              then Some ((colours - Z.to_nat count)%nat :: rest)
              else None
          | [] => None
          end
      | _ => Some windows
      end
  end.

Definition nesting (evs : list event) (windows : list nat) : option (list nat) :=
  fold_left nest_step evs (Some windows).

(** What a button appends: nothing, or one [glDeleteTextures]. *)
Definition release_events (evs : list event) : Prop :=
  evs = [] \/ exists name, evs = [DeleteTextures name].

(** The ImGui calls of a call that draws, in order; [released_by_prev] and
    [released_by_next] are the [glDeleteTextures] events of the two buttons
    (none or one each) and [caption] the "Current media" line (none or
    one). *)
Definition panel_events (title : string) (size : ImVec2) (shown : Z)
  (thumb_width : spec_float) (released_by_prev released_by_next caption : list event)
  : list event :=
  [ ImGui (BeginChild title size true);
    ImGui (Image shown {| vx := thumb_width; vy := fixed_height |});
    ImGui (AddRect 255 255 255 255 2);
    ImGui (SetCursorPosY_plus 10);
    ImGui (PushStyleColor 255 192 203 255);
    ImGui (PushStyleColor 255 0 0 255);
    ImGui (PushStyleColor 0 0 0 255);
    ImGui (Button "<-") ]
  ++ released_by_prev
  ++ [ImGui SameLine; ImGui (Button "->")]
  ++ released_by_next
  ++ [ImGui (PopStyleColor 3); ImGui (SetCursorPosY_plus 10); ImGui (Text title)]
  ++ caption
  ++ [ImGui EndChild].

(** ** [main] *)

(** The [glfwWindowHint] calls of the three build variants. *)
Inductive window_hint :=
| GLFW_CONTEXT_VERSION_MAJOR (v : Z)
| GLFW_CONTEXT_VERSION_MINOR (v : Z)
| GLFW_CLIENT_API_OPENGL_ES
| GLFW_OPENGL_PROFILE_CORE
| GLFW_OPENGL_FORWARD_COMPAT_TRUE.

(** The library calls of [main], in the order made; the calls of
    [setup_fonts], [setup_logo] and [ShowImageSubwindow] are embedded. *)
Inductive host_call :=
| glfwSetErrorCallback
| glfwInit (ok : bool)
| glfwWindowHint (hint : window_hint)
| glfwCreateWindow (width height : Z) (title : string) (ok : bool)
| cerr_line (line : string)
| glfwTerminate
| glfwMakeContextCurrent
| glfwSwapInterval (interval : Z)
| IMGUI_CHECKVERSION
| CreateContext
| StyleColorsDark
| IniFilename_NULL
| ImGui_ImplGlfw_InitForOpenGL
| ImGui_ImplOpenGL3_Init (glsl_version : string)
| Setup (e : host_event)
| glfwPollEvents
| ImGui_ImplOpenGL3_NewFrame
| ImGui_ImplGlfw_NewFrame
| NewFrame
| BeginMainMenuBar (shown : bool)
| BeginMenu (label : string) (shown : bool)
| EndMenu
| EndMainMenuBar
| SetNextWindowPos (pos : ImVec2)
| SetNextWindowSize (size : ImVec2)
| Begin (name : string)
| PushStyleColorVec4 (r g b a : spec_float)
| BeginPanel (str_id : string) (size : ImVec2) (border : bool)
| PanelText (s : string)
| Widget (e : event)
| EndPanel
| PanelSameLine
| PopStyleColor_main (count : Z)
| End_
| CloseMeButton
| Render
| glViewport (x y w h : Z)
| glClearColor (r g b a : spec_float)
| glClear
| RenderDrawData
| glfwSwapBuffers
| ImGui_ImplOpenGL3_Shutdown
| ImGui_ImplGlfw_Shutdown
| DestroyContext
| glfwDestroyWindow.

(** What one iteration of the main loop reads from ImGui and GLFW. *)
Record main_input := MainInput {
  menu_bar_shown : bool;
  menu_file_shown : bool;
  menu_edit_shown : bool;
  menu_exit_shown : bool;
  frame_height : spec_float;
  display_size : ImVec2;
  avail_panel1 : ImVec2;
  avail_panel2 : ImVec2;
  avail_panel3 : ImVec2;
  widget_input : frame_input;
  close_me_clicked : bool;
  framebuffer_size : Z * Z
}.

Definition fsub : spec_float -> spec_float -> spec_float := SFsub 24 128.

(** A decimal literal [n/10] with the [f] suffix: the binary32 nearest to
    it, which is what the correctly rounded quotient is. *)
Definition tenths (n : Z) : spec_float := fdiv (float_of_int n) (float_of_int 10).

(** [if (ImGui::BeginMenu(label)) { ImGui::EndMenu(); }]. *)
Definition menu (label : string) (shown : bool) : list host_call :=
  BeginMenu label shown :: (if shown then [EndMenu] else []).

(** Lines 272-277. *)
Definition main_menu_bar (inp : main_input) : list host_call :=
  BeginMainMenuBar (menu_bar_shown inp) ::
  (if menu_bar_shown inp
   then menu "File" (menu_file_shown inp) ++ menu "Edit" (menu_edit_shown inp)
        ++ menu "Exit" (menu_exit_shown inp) ++ [EndMainMenuBar]
   else []).

(** Lines 305-312: the block guarded by [show_another_window]; it returns
    the calls made and the new value of the variable. *)
Definition another_window (show_another_window : bool) (inp : main_input)
  : list host_call * bool :=
  if show_another_window then
    ( [Begin "Another Window"; PanelText "Hello from another window!"; CloseMeButton;
       End_],
      if close_me_clicked inp then false else show_another_window )
  else ([], show_another_window).

(** Lines 314-322. *)
Definition present (inp : main_input) : list host_call :=
  let clear_color := (float_of_int 1, float_of_int 1, float_of_int 1, float_of_int 1) in
  let '(r, g, b, a) := clear_color in
  [ Render;
    glViewport 0 0 (fst (framebuffer_size inp)) (snd (framebuffer_size inp));
    glClearColor (fmul r a) (fmul g a) (fmul b a) a;
    glClear; RenderDrawData; glfwSwapBuffers ].

(** The state carried from one iteration to the next. *)
Record loop_state := LoopState {
  show_another_window : bool;
  widget : machine
}.

(** The body of the [while] loop, lines 266-322; [None] when the widget
    indexes out of range. *)
Definition loop_body (env : environment) (w : world) (inp : main_input)
  (s : loop_state) : option (list host_call * loop_state) :=
  match ShowImageSubwindow w "(Image Folder Navigator)" (getDataPath env) (-1) 250
          (widget_input inp) (widget s) with
  | Undefined => None
  | Finished widget' =>
      let '(another, show') := another_window (show_another_window s) inp in
      Some
        ( [ glfwPollEvents; ImGui_ImplOpenGL3_NewFrame; ImGui_ImplGlfw_NewFrame;
            NewFrame ]
          ++ main_menu_bar inp
          ++ [ SetNextWindowPos {| vx := float_of_int 0; vy := frame_height inp |};
               SetNextWindowSize
                 {| vx := vx (display_size inp);
                    vy := fsub (vy (display_size inp)) (frame_height inp) |};
               Begin "Main Window";
               PushStyleColorVec4 (tenths 4) (tenths 4) (tenths 4) (tenths 8);
               PushStyleColorVec4 (tenths 6) (float_of_int 1) (float_of_int 0)
                 (float_of_int 1);
               BeginPanel "panel_window1"
                 {| vx := fdiv (vx (avail_panel1 inp)) (float_of_int 3);
                    vy := vy (avail_panel1 inp) |} true;
               PanelText "Panel 1" ]
          ++ map Widget (events_since (widget s) widget')
          ++ [ EndPanel; PanelSameLine;
               BeginPanel "panel_window2"
                 {| vx := fdiv (vx (avail_panel2 inp)) (float_of_int 2);
                    vy := vy (avail_panel2 inp) |} true;
               PanelText "Panel 2"; EndPanel; PanelSameLine;
               BeginPanel "panel_window3"
                 {| vx := float_of_int 0; vy := vy (avail_panel3 inp) |} true;
               PanelText "Panel 3"; EndPanel;
               PopStyleColor_main 2; End_ ]
          ++ another
          ++ present inp,
          {| show_another_window := show'; widget := widget' |} )
  end.

(** The [while (!glfwWindowShouldClose(window))] loop, for a run in which
    the window is closed after finitely many iterations: one input per
    iteration made. That the loop is left is a premise of this model, and an
    exception thrown inside an iteration has no outcome in it. *)
Fixpoint main_loop_calls (env : environment) (w : world) (inputs : list main_input)
  (s : loop_state) : option (list host_call) :=
  match inputs with
  | [] => Some []
  | inp :: rest =>
      match loop_body env w inp s with
      | None => None
      | Some (calls, s') =>
          match main_loop_calls env w rest s' with
          | None => None
          | Some more => Some (calls ++ more)
          end
      end
  end.

(** The three variants of lines 219-234; [es2] is [IMGUI_IMPL_OPENGL_ES2]. *)
Definition glsl_version (es2 : bool) (env : environment) : string :=
  if es2 then "#version 100"
  else match os env with
       | Apple _ => "#version 150"
       | NotApple => "#version 130"
       end.

Definition window_hints (es2 : bool) (env : environment) : list host_call :=
  if es2 then
    [ glfwWindowHint (GLFW_CONTEXT_VERSION_MAJOR 2);
      glfwWindowHint (GLFW_CONTEXT_VERSION_MINOR 0);
      glfwWindowHint GLFW_CLIENT_API_OPENGL_ES ]
  else match os env with
       | Apple _ =>
           [ glfwWindowHint (GLFW_CONTEXT_VERSION_MAJOR 3);
             glfwWindowHint (GLFW_CONTEXT_VERSION_MINOR 2);
             glfwWindowHint GLFW_OPENGL_PROFILE_CORE;
             glfwWindowHint GLFW_OPENGL_FORWARD_COMPAT_TRUE ]
       | NotApple =>
           [ glfwWindowHint (GLFW_CONTEXT_VERSION_MAJOR 3);
             glfwWindowHint (GLFW_CONTEXT_VERSION_MINOR 0) ]
       end.

(** [main]: the exit code and the calls made, or [None]
    when the widget indexes out of range. [init_ok] and [window_ok] are the
    results of [glfwInit] and [glfwCreateWindow]; the environment and the
    decoder stay as they are while the program runs, no [std::filesystem]
    call throws, and the window is closed after the iterations given. *)
Definition main (es2 : bool) (env : environment) (decode : string -> option image)
  (init_ok window_ok : bool) (inputs : list main_input)
  : option (Z * list host_call) :=
  if negb init_ok then Some (1, [glfwSetErrorCallback; glfwInit false])
  else if negb window_ok then
    Some (-1, [glfwSetErrorCallback; glfwInit true] ++ window_hints es2 env
              ++ [ glfwCreateWindow 1280 720 "cmake_imgui_app_macos" false;
                   cerr_line "Failed to create GLFW window"; glfwTerminate ])
  else
    match main_loop_calls env {| disk := files env; stbi_load := decode |} inputs
            {| show_another_window := false; widget := initial_machine |} with
    | None => None
    | Some frames =>
        Some (0, [glfwSetErrorCallback; glfwInit true] ++ window_hints es2 env
                 ++ [ glfwCreateWindow 1280 720 "cmake_imgui_app_macos" true;
                      glfwMakeContextCurrent; glfwSwapInterval 1;
                      IMGUI_CHECKVERSION;
                      CreateContext; StyleColorsDark; IniFilename_NULL;
                      StyleColorsDark;
                      ImGui_ImplGlfw_InitForOpenGL;
                      ImGui_ImplOpenGL3_Init (glsl_version es2 env) ]
                 ++ map Setup (setup_fonts env)
                 ++ map Setup (setup_logo env decode)
                 ++ frames
                 ++ [ ImGui_ImplOpenGL3_Shutdown; ImGui_ImplGlfw_Shutdown;
                      DestroyContext; glfwDestroyWindow; glfwTerminate ])
    end.

(** What is open at a point of the run: libraries, windows, menus and
    pushed style colours, innermost first. *)
Inductive scope :=
| InGlfw | InWindow | InContext | InImplGlfw | InImplOpenGL3
| InFrame | InMenuBar | InMenu | InMain | InPanel | InChild | InColour.

Definition scope_eqb (a b : scope) : bool :=
  match a, b with
  | InGlfw, InGlfw | InWindow, InWindow | InContext, InContext
  | InImplGlfw, InImplGlfw | InImplOpenGL3, InImplOpenGL3
  | InFrame, InFrame | InMenuBar, InMenuBar | InMenu, InMenu
  | InMain, InMain | InPanel, InPanel | InChild, InChild
  | InColour, InColour => true
  | _, _ => false
  end.

Definition close (s : scope) (open : list scope) : option (list scope) :=
  match open with
  | top :: rest => if scope_eqb top s then Some rest else None
  | [] => None
  end.

Fixpoint close_n (n : nat) (s : scope) (open : list scope) : option (list scope) :=
  match n with
  | O => Some open
  | S n' => match close s open with
            | Some rest => close_n n' s rest
            | None => None
            end
  end.

(** The effect of one call on what is open; [None] when the call closes
    what is not the innermost thing open. *)
Definition scope_step (open : list scope) (c : host_call) : option (list scope) :=
  match c with
  | glfwInit true => Some (InGlfw :: open)
  | glfwTerminate => close InGlfw open
  | glfwCreateWindow _ _ _ true => Some (InWindow :: open)
  | glfwDestroyWindow => close InWindow open
  | CreateContext => Some (InContext :: open)
  | DestroyContext => close InContext open
  | ImGui_ImplGlfw_InitForOpenGL => Some (InImplGlfw :: open)
  | ImGui_ImplGlfw_Shutdown => close InImplGlfw open
  | ImGui_ImplOpenGL3_Init _ => Some (InImplOpenGL3 :: open)
  | ImGui_ImplOpenGL3_Shutdown => close InImplOpenGL3 open
  | NewFrame => Some (InFrame :: open)
  | Render => close InFrame open
  | BeginMainMenuBar true => Some (InMenuBar :: open)
  | EndMainMenuBar => close InMenuBar open
  | BeginMenu _ true => Some (InMenu :: open)
  | EndMenu => close InMenu open
  | Begin _ => Some (InMain :: open)
  | End_ => close InMain open
  | BeginPanel _ _ _ => Some (InPanel :: open)
  | EndPanel => close InPanel open
  | PushStyleColorVec4 _ _ _ _ => Some (InColour :: open)
  | PopStyleColor_main count =>
      if 0 <=? count then close_n (Z.to_nat count) InColour open else None
  | Widget (ImGui (BeginChild _ _ _)) => Some (InChild :: open)
  | Widget (ImGui EndChild) => close InChild open
  | Widget (ImGui (PushStyleColor _ _ _ _)) => Some (InColour :: open)
  | Widget (ImGui (PopStyleColor count)) =>
      if 0 <=? count then close_n (Z.to_nat count) InColour open else None
  | _ => Some open
  end.

Fixpoint scopes (calls : list host_call) (open : list scope) : option (list scope) :=
  match calls with
  | [] => Some open
  | c :: rest =>
      match scope_step open c with
      | Some open' => scopes rest open'
      | None => None
      end
  end.

(** A user's desktop: a [data] folder with a logo and no font. *)
Definition desk : environment :=
  {| os := NotApple; current_path := "/home/me";
     files := fun p =>
       if String.eqb p "/home/me/data" then Some (NDirectory [ DirEntry "logo_viewport.png" RegularFile ])
       else if String.eqb p "/home/me/data/logo_viewport.png" then Some NFile
       else None |}.

Definition desk_decoder (path : string) : option image :=
  if String.eqb path "/home/me/data/logo_viewport.png" then Some (photo 32 32 9)
  else None.

Definition quiet_frame : main_input :=
  {| menu_bar_shown := true; menu_file_shown := true; menu_edit_shown := false;
     menu_exit_shown := false; frame_height := float_of_int 19;
     display_size := {| vx := float_of_int 1280; vy := float_of_int 720 |};
     avail_panel1 := region; avail_panel2 := region; avail_panel3 := region;
     widget_input := click_next; close_me_clicked := false;
     framebuffer_size := (1280, 720) |}.

(** * Properties *)

(** ** Strings and suffixes *)

Lemma chars_app (a b : string) : chars (a +:+ b) = chars a ++ chars b.
Proof.
  unfold chars. induction a as [|c a IH]; simpl; [reflexivity|].
  now rewrite IH.
Qed.

Lemma chars_inj (a b : string) : chars a = chars b -> a = b.
Proof.
  unfold chars. intros H.
  rewrite <- (string_of_list_ascii_of_string a), H.
  apply string_of_list_ascii_of_string.
Qed.

Lemma chars_length (s : string) : length (chars s) = String.length s.
Proof. unfold chars. induction s; simpl; congruence. Qed.

Lemma chars_substring (n m : nat) (s : string) :
  chars (String.substring n m s) = take m (drop n (chars s)).
Proof.
  unfold chars. revert n m. induction s as [|c s IH]; intros n m.
  - destruct n, m; reflexivity.
  - destruct n as [|n].
    + destruct m as [|m]; simpl; [reflexivity|].
      f_equal. apply (IH 0%nat m).
    + simpl. apply IH.
Qed.

Lemma chars_of_list (l : list ascii) : chars (string_of_list_ascii l) = l.
Proof. apply list_ascii_of_string_of_list_ascii. Qed.

(** [EndsWith] decides "ends in". *)
Lemma EndsWith_ends_in (str suffix : string) :
  EndsWith str suffix = true <-> ends_in str suffix.
Proof.
  unfold EndsWith, ends_in. rewrite andb_true_iff, Nat.leb_le, String.eqb_eq.
  split.
  - intros [Hlen Hsub].
    set (k := (String.length str - String.length suffix)%nat) in *.
    assert (Hdrop : chars suffix = drop k (chars str)).
    { rewrite <- Hsub at 1. rewrite chars_substring. apply take_ge.
      rewrite length_drop, chars_length. lia. }
    exists (string_of_list_ascii (take k (chars str))).
    apply chars_inj. rewrite chars_app, chars_of_list, Hdrop.
    symmetry. apply take_drop.
  - intros [front ->].
    assert (Hl : String.length (front +:+ suffix)
                 = (String.length front + String.length suffix)%nat).
    { rewrite <- !chars_length, chars_app, length_app. reflexivity. }
    split; [lia|].
    apply chars_inj. rewrite chars_substring, chars_app, Hl.
    replace (String.length front + String.length suffix - String.length suffix)%nat
      with (length (chars front)) by (rewrite chars_length; lia).
    rewrite drop_app_length. apply take_ge. rewrite chars_length. lia.
Qed.

(** A suffix without a separator that ends [front ++ name], where [front]
    is empty or ends with a separator, lies inside [name]. *)
Lemma suffix_after_separator (front name suffix : list ascii) :
  (front = [] \/ exists stem, front = stem ++ [separator]) ->
  ~ In separator suffix ->
  (exists k, front ++ name = k ++ suffix) ->
  exists k, name = k ++ suffix.
Proof.
  intros Hfront Hsep [k Hk].
  apply app_eq_app in Hk. destruct Hk as [l [[Hf Hs] | [Hkk Hn]]].
  - destruct l as [|c l].
    + exists []. simpl in Hs. now subst.
    + exfalso. destruct Hfront as [-> | [stem Hstem]].
      * now destruct k.
      * apply Hsep. rewrite Hs. apply in_or_app. left.
        apply list_elem_of_In, last_Some_elem_of.
        rewrite <- (last_app_cons k l c), <- Hf, Hstem. apply last_snoc.
  - now exists l.
Qed.

Lemma has_trailing_separator_snoc (p : string) :
  has_trailing_separator p = true -> exists stem, chars p = stem ++ [separator].
Proof.
  unfold has_trailing_separator. intros H.
  destruct (rev (chars p)) as [|c r] eqn:E; [discriminate|].
  apply Ascii.eqb_eq in H. subst c.
  exists (rev r). rewrite <- (rev_involutive (chars p)), E. reflexivity.
Qed.

(** [dir / name] is [name] behind nothing or behind something that ends
    with a separator. *)
Lemma path_append_front (p q : string) :
  exists front,
    path_append p q = front +:+ q /\
    (chars front = [] \/ exists stem, chars front = stem ++ [separator]).
Proof.
  unfold path_append.
  destruct (is_absolute q).
  { exists EmptyString. split; [reflexivity | now left]. }
  destruct (String.eqb p EmptyString) eqn:Hp; simpl.
  { apply String.eqb_eq in Hp. subst p.
    exists EmptyString. split; [reflexivity | now left]. }
  destruct (has_trailing_separator p) eqn:Ht.
  - exists p. split; [reflexivity|].
    right. now apply has_trailing_separator_snoc.
  - exists (p +:+ "/"). split.
    + apply chars_inj. rewrite !chars_app. now rewrite <- List.app_assoc.
    + right. exists (chars p). now rewrite chars_app.
Qed.

Lemma ends_in_chars (str suffix : string) :
  ends_in str suffix <-> exists k, chars str = k ++ chars suffix.
Proof.
  unfold ends_in. split.
  - intros [front ->]. exists (chars front). apply chars_app.
  - intros [k Hk]. exists (string_of_list_ascii k).
    apply chars_inj. now rewrite chars_app, chars_of_list.
Qed.

(** Testing the whole path, as the code does, is testing the file name. *)
Lemma EndsWith_path_append (dir name suffix : string) :
  ~ In separator (chars suffix) ->
  EndsWith (path_append dir name) suffix = EndsWith name suffix.
Proof.
  intros Hsep. apply eq_true_iff_eq. rewrite !EndsWith_ends_in, !ends_in_chars.
  destruct (path_append_front dir name) as [front [-> Hfront]].
  rewrite chars_app. split.
  - apply suffix_after_separator; [|assumption].
    destruct Hfront as [-> | H]; [now left | now right].
  - intros [k ->]. exists (chars front ++ k). apply List.app_assoc.
Qed.

Lemma is_image_path_name (dir name : string) :
  is_image_path (path_append dir name)
  = existsb (EndsWith name) recognized_suffixes.
Proof.
  unfold is_image_path, recognized_suffixes. simpl.
  rewrite !EndsWith_path_append.
  - now rewrite orb_false_r, orb_assoc.
  - vm_compute. intuition discriminate.
  - vm_compute. intuition discriminate.
  - vm_compute. intuition discriminate.
Qed.

Lemma scan_entries_filter (dirPath : string) (entries : list dir_entry)
  (acc : list string) :
  scan_entries dirPath entries acc
  = acc ++ map (fun e => path_append dirPath (entry_name e))
               (List.filter has_recognized_name entries).
Proof.
  revert acc. induction entries as [|e rest IH]; intros acc; simpl.
  - now rewrite app_nil_r.
  - unfold has_recognized_name at 1. rewrite is_image_path_name.
    destruct (is_regular_file e && existsb (EndsWith (entry_name e)) recognized_suffixes).
    + rewrite IH. simpl. now rewrite <- List.app_assoc.
    + apply IH.
Qed.

Lemma has_recognized_name_spec (e : dir_entry) :
  has_recognized_name e = true <->
  entry_kind e = RegularFile /\
  exists suffix, In suffix recognized_suffixes /\ ends_in (entry_name e) suffix.
Proof.
  unfold has_recognized_name. rewrite andb_true_iff, existsb_exists.
  unfold is_regular_file.
  split.
  - intros [Hk [suffix [Hin He]]]. split.
    + now destruct (entry_kind e).
    + exists suffix. split; [assumption | now apply EndsWith_ends_in].
  - intros [Hk [suffix [Hin He]]]. split.
    + now rewrite Hk.
    + exists suffix. split; [assumption | now apply EndsWith_ends_in].
Qed.

(** Where no [std::filesystem] call throws, [GetImageFiles] is the scanner
    of the spec: for a directory it returns, in enumeration order, the path
    of every regular file whose name ends (case-sensitively) in .png, .jpg
    or .jpeg, and of nothing else; for a path that does not exist or is not
    a directory it returns the empty vector. *)
Theorem GetImageFiles_is_scan :
  (forall fs D, GetImageFiles fs D = scan fs D) /\
  (forall fs D path,
      In path (GetImageFiles fs D) <->
      exists entries e,
        fs D = Some (NDirectory entries) /\ In e entries /\
        entry_kind e = RegularFile /\
        (exists suffix, In suffix recognized_suffixes /\
                        ends_in (entry_name e) suffix) /\
        path = path_append D (entry_name e)) /\
  (forall fs D, fs_exists fs D = false \/ fs_is_directory fs D = false ->
                GetImageFiles fs D = []).
Proof.
  assert (Hscan : forall fs D, GetImageFiles fs D = scan fs D).
  { intros fs D. unfold GetImageFiles, scan, fs_exists, fs_is_directory.
    destruct (fs D) as [[| entries |]|]; simpl; try reflexivity.
    apply scan_entries_filter. }
  split; [exact Hscan|]. split.
  - intros fs D path. rewrite Hscan. unfold scan.
    destruct (fs D) as [[| entries |]|] eqn:E.
    + split; [intros [] | intros (? & ? & ? & _); discriminate].
    + rewrite in_map_iff. split.
      * intros [e [Hp Hin]]. apply filter_In in Hin. destruct Hin as [Hin Hrec].
        apply has_recognized_name_spec in Hrec. destruct Hrec as [Hk Hs].
        exists entries, e. auto.
      * intros (entries' & e & Heq & Hin & Hk & Hs & ->).
        injection Heq as <-. exists e. split; [reflexivity|].
        apply filter_In. split; [assumption|].
        apply has_recognized_name_spec. auto.
    + split; [intros [] | intros (? & ? & ? & _); discriminate].
    + split; [intros [] | intros (? & ? & ? & _); discriminate].
  - intros fs D H. unfold GetImageFiles.
    destruct H as [-> | ->]; simpl; [reflexivity|].
    now rewrite orb_true_r.
Qed.
(** ** [GetImageFiles] with the exceptions of [std::filesystem] *)

Lemma scan_entries_throwing_outcome (dirPath : string) (entries : list os_entry)
  (halt : option fs_error) (acc : list string) :
  scan_entries_throwing dirPath entries halt acc
  = match first_failure entries halt with
    | Some e => Thrown e
    | None =>
        Returned (acc ++ map (fun e => path_append dirPath (os_entry_name e))
                             (List.filter is_recognized_file entries))
    end.
Proof.
  revert acc. induction entries as [|entry rest IH]; intros acc; simpl.
  - destruct halt; [reflexivity | now rewrite app_nil_r].
  - unfold is_recognized_file at 1.
    destruct (os_entry_status entry) as [[| |]|e]; try apply IH; [|reflexivity].
    rewrite is_image_path_name.
    destruct (existsb (EndsWith (os_entry_name entry)) recognized_suffixes).
    + rewrite IH. destruct (first_failure rest halt); [reflexivity|].
      simpl. now rewrite <- List.app_assoc.
    + apply IH.
Qed.

Lemma is_recognized_file_spec (e : os_entry) :
  is_recognized_file e = true <->
  os_entry_status e = Kind RegularFile /\
  exists suffix, In suffix recognized_suffixes /\ ends_in (os_entry_name e) suffix.
Proof.
  unfold is_recognized_file. split.
  - destruct (os_entry_status e) as [[| |]|err]; try discriminate.
    intros H. apply existsb_exists in H. destruct H as [suffix [Hin He]].
    split; [reflexivity|]. exists suffix.
    split; [assumption | now apply EndsWith_ends_in].
  - intros [-> [suffix [Hin He]]]. apply existsb_exists.
    exists suffix. split; [assumption | now apply EndsWith_ends_in].
Qed.

Lemma first_failure_error_free (entries : list dir_entry) :
  first_failure (map (fun e => OsEntry (entry_name e) (Kind (entry_kind e))) entries)
    None = None.
Proof. induction entries; simpl; auto. Qed.

Lemma error_free_recognized (D : string) (entries : list dir_entry) :
  map (fun e => path_append D (os_entry_name e))
      (List.filter is_recognized_file
         (map (fun e => OsEntry (entry_name e) (Kind (entry_kind e))) entries))
  = map (fun e => path_append D (entry_name e))
        (List.filter has_recognized_name entries).
Proof.
  induction entries as [|x xs IH]; [reflexivity|].
  cbn [map List.filter].
  assert (Hx : is_recognized_file (OsEntry (entry_name x) (Kind (entry_kind x)))
               = has_recognized_name x).
  { unfold is_recognized_file, has_recognized_name, is_regular_file. cbn.
    now destruct (entry_kind x). }
  rewrite Hx. destruct (has_recognized_name x); cbn [map]; now rewrite IH.
Qed.

(** C6, as stated, fails: [GetImageFiles] can signal an error. Its
    [std::filesystem] calls are the throwing overloads and nothing catches:
    on a directory that cannot be opened the construction of the iterator
    throws, on a path whose status cannot be determined (a directory in the
    way that may not be searched) [exists] throws although nothing may be
    there, and on a directory with an entry that cannot be examined the
    loop throws after the first image was found. *)
Lemma GetImageFiles_throws :
  GetImageFiles_throwing guarded_disk "locked" = Thrown EACCES /\
  GetImageFiles_throwing guarded_disk "vault/pictures" = Thrown EACCES /\
  GetImageFiles_throwing guarded_disk "mixed" = Thrown EIO.
Proof. repeat split. Qed.

(** C6, amended. Whenever [GetImageFiles] returns, it returns exactly the
    files of the directory whose name ends (case-sensitively) in .png, .jpg
    or .jpeg: the path of every regular file with such a name, in
    enumeration order, and no other path. It returns the empty vector,
    without an error, when the file system reports that the path does not
    exist or is not a directory. It throws exactly when the status of the
    path cannot be determined, the directory cannot be opened or read to
    its end, or the status of one of its entries cannot be determined. On a
    file system where nothing fails it is the function [GetImageFiles] of
    the rest of this development. *)
Theorem GetImageFiles_throwing_outcome :
  (forall fs D,
      fs D = NotFound \/ fs D = IsFile \/ fs D = IsOther ->
      GetImageFiles_throwing fs D = Returned []) /\
  (forall fs D entries,
      fs D = IsDirectory (Listing entries None) ->
      first_failure entries None = None ->
      GetImageFiles_throwing fs D
      = Returned (map (fun e => path_append D (os_entry_name e))
                      (List.filter is_recognized_file entries))) /\
  (forall fs D files path,
      GetImageFiles_throwing fs D = Returned files ->
      (In path files <->
       exists entries e,
         fs D = IsDirectory (Listing entries None) /\ In e entries /\
         os_entry_status e = Kind RegularFile /\
         (exists suffix, In suffix recognized_suffixes /\
                         ends_in (os_entry_name e) suffix) /\
         path = path_append D (os_entry_name e))) /\
  (forall fs D e,
      GetImageFiles_throwing fs D = Thrown e <->
      fs D = StatusUnknown e \/
      fs D = IsDirectory (OpenFails e) \/
      exists entries halt,
        fs D = IsDirectory (Listing entries halt) /\
        first_failure entries halt = Some e) /\
  (forall fs D, GetImageFiles_throwing (error_free fs) D = Returned (GetImageFiles fs D)).
Proof.
  split; [|split; [|split; [|split]]].
  - intros fs D [H | [H | H]]; unfold GetImageFiles_throwing; now rewrite H.
  - intros fs D entries Hdir Hnone. unfold GetImageFiles_throwing. rewrite Hdir.
    now rewrite scan_entries_throwing_outcome, Hnone.
  - intros fs D files path. unfold GetImageFiles_throwing.
    destruct (fs D) as [| err | | | [err | entries halt]] eqn:E;
      try discriminate;
      try (intros H; injection H as <-;
           split; [intros [] | intros (? & ? & ? & _); discriminate]).
    rewrite scan_entries_throwing_outcome.
    destruct (first_failure entries halt) as [err|] eqn:Ef; [discriminate|].
    assert (Hhalt : halt = None).
    { clear E. induction entries as [|x xs IH]; simpl in Ef; [exact Ef|].
      destruct (os_entry_status x); [now apply IH | discriminate]. }
    subst halt. intros H. injection H as <-. simpl. rewrite in_map_iff. split.
    + intros [e [Hp Hin]]. apply filter_In in Hin. destruct Hin as [Hin Hrec].
      apply is_recognized_file_spec in Hrec. destruct Hrec as [Hk Hs].
      exists entries, e. auto.
    + intros (entries' & e & Heq & Hin & Hk & Hs & ->).
      injection Heq as <-. exists e. split; [reflexivity|].
      apply filter_In. split; [assumption|].
      apply is_recognized_file_spec. auto.
  - intros fs D e. unfold GetImageFiles_throwing.
    destruct (fs D) as [| err | | | [err | entries halt]] eqn:E.
    + split; [discriminate | intros [H | [H | (? & ? & H & _)]]; discriminate].
    + split.
      * intros H. injection H as <-. now left.
      * intros [H | [H | (? & ? & H & _)]]; try discriminate.
        now injection H as <-.
    + split; [discriminate | intros [H | [H | (? & ? & H & _)]]; discriminate].
    + split; [discriminate | intros [H | [H | (? & ? & H & _)]]; discriminate].
    + split.
      * intros H. injection H as <-. right. now left.
      * intros [H | [H | (? & ? & H & _)]]; try discriminate.
        now injection H as <-.
    + rewrite scan_entries_throwing_outcome. split.
      * destruct (first_failure entries halt) as [err|] eqn:Ef; [|discriminate].
        intros H. injection H as <-. right. right. now exists entries, halt.
      * intros [H | [H | (entries' & halt' & H & Hf)]]; try discriminate.
        injection H as <- <-. now rewrite Hf.
  - intros fs D. unfold GetImageFiles_throwing, error_free, GetImageFiles,
      fs_exists, fs_is_directory.
    destruct (fs D) as [[| entries |]|]; simpl; try reflexivity.
    rewrite scan_entries_throwing_outcome, first_failure_error_free.
    rewrite scan_entries_filter. now rewrite error_free_recognized.
Qed.

Lemma GetImageFiles_throwing_outcome_witness :
  GetImageFiles_throwing guarded_disk "nowhere" = Returned [] /\
  GetImageFiles_throwing guarded_disk "notes.txt" = Returned [] /\
  GetImageFiles_throwing guarded_disk "album"
    = Returned ["album/a.png"; "album/b.jpg"] /\
  GetImageFiles_throwing (error_free sample_disk) "album"
    = Returned (GetImageFiles sample_disk "album").
Proof.
  destruct GetImageFiles_throwing_outcome as (Hnone & Hdir & _ & _ & Hfree).
  split; [apply Hnone; left; reflexivity|].
  split; [apply Hnone; right; left; reflexivity|].
  split; [|apply Hfree].
  apply (Hdir guarded_disk "album"
           [ OsEntry "a.png" (Kind RegularFile); OsEntry "b.jpg" (Kind RegularFile);
             OsEntry "c.txt" (Kind RegularFile) ]); reflexivity.
Defined.


(** ** The data path resolver *)

Lemma first_system_path_find (fs : filesystem) (paths : list string) :
  first_system_path fs paths = List.find (is_existing_directory fs) paths.
Proof.
  induction paths as [|p rest IH]; simpl; [reflexivity|].
  now destruct (is_existing_directory fs p).
Qed.

Lemma find_first {A : Type} (f : A -> bool) (l : list A) :
  (exists i p, l !! i = Some p /\ f p = true /\
               (forall j q, (j < i)%nat -> l !! j = Some q -> f q = false) /\
               List.find f l = Some p)
  \/ ((forall p, In p l -> f p = false) /\ List.find f l = None).
Proof.
  induction l as [|a l IH].
  - right. split; [intros p [] | reflexivity].
  - simpl. destruct (f a) eqn:Ha.
    + left. exists 0%nat, a. repeat split; try assumption. intros j q Hj. lia.
    + destruct IH as [(i & p & Hi & Hp & Hbefore & Hfind) | [Hnone Hfind]].
      * left. exists (S i), p. repeat split; try assumption.
        intros [|j] q Hj Hq; simpl in Hq.
        -- now injection Hq as <-.
        -- apply (Hbefore j); [lia | assumption].
      * right. split; [|assumption].
        intros p [<- | Hin]; [assumption | now apply Hnone].
Qed.

Lemma getDataPath_resolve (env : environment) : getDataPath env = resolve env.
Proof.
  unfold getDataPath, resolve, fallback_order, bundle_first.
  rewrite first_system_path_find.
  destruct (os env) as [[execPath|]|]; simpl.
  - destruct (is_existing_directory (files env) (bundle_resources execPath));
      [reflexivity|].
    now destruct (is_existing_directory (files env)
                    (path_append (current_path env) "data")).
  - now destruct (is_existing_directory (files env)
                    (path_append (current_path env) "data")).
  - now destruct (is_existing_directory (files env)
                    (path_append (current_path env) "data")).
Qed.

(** C9. [getDataPath] returns the first existing directory of the fallback
    order (bundle resources, then the [data] folder of the current working
    directory, then the system-wide locations in listed order): every
    candidate before the one returned is not an existing directory. When no
    candidate is an existing directory it returns the [data] path of the
    current working directory, which then does not exist as a directory. *)
Theorem getDataPath_first_existing (env : environment) :
  fallback_order env =
    match os env with
    | Apple (Some execPath) => [bundle_resources execPath]
    | _ => []
    end
    ++ path_append (current_path env) "data"
    :: [ "/usr/local/share/cmake_imgui_app_macos/data";
         "/opt/local/share/cmake_imgui_app_macos/data";
         "/usr/share/cmake_imgui_app_macos/data" ] /\
  ((exists i path,
       fallback_order env !! i = Some path /\
       is_existing_directory (files env) path = true /\
       (forall j earlier, (j < i)%nat ->
          fallback_order env !! j = Some earlier ->
          is_existing_directory (files env) earlier = false) /\
       getDataPath env = path)
   \/
   ((forall path, In path (fallback_order env) ->
       is_existing_directory (files env) path = false) /\
    getDataPath env = path_append (current_path env) "data" /\
    is_existing_directory (files env) (getDataPath env) = false)).
Proof.
  split; [reflexivity|].
  rewrite getDataPath_resolve. unfold resolve.
  destruct (find_first (is_existing_directory (files env)) (fallback_order env))
    as [(i & p & Hi & Hp & Hbefore & Hfind) | [Hnone Hfind]]; rewrite Hfind.
  - left. exists i, p. auto.
  - right. split; [assumption|]. split; [reflexivity|].
    apply Hnone. unfold fallback_order. apply in_or_app. right. now left.
Qed.

(** ** The phases of a render call *)

Lemma size_nonneg (v : list string) : 0 <= size v.
Proof. unfold size. lia. Qed.

Lemma empty_nil (v : list string) : empty v = true <-> v = [].
Proof. destruct v; simpl; split; congruence. Qed.

Lemma size_t_wrap_bounds (z : Z) : 0 <= size_t_wrap z < 2 ^ 64.
Proof. unfold size_t_wrap. apply Z.mod_pos_bound. lia. Qed.

Lemma size_t_wrap_le (z : Z) : 0 <= z -> size_t_wrap z <= z.
Proof. intros H. unfold size_t_wrap. apply Z.mod_le; lia. Qed.

Lemma lookup_index_in_range (st : BrowserState) :
  index_in_range st ->
  exists path, image_files st !! Z.to_nat (current_image_index st) = Some path.
Proof.
  unfold index_in_range, size. intros H.
  apply lookup_lt_is_Some_2. lia.
Qed.

Lemma rebind_same (w : world) (directory : string) (m : machine) :
  last_directory (statics m) = directory -> rebind w directory m = m.
Proof. intros H. unfold rebind. now rewrite H, String.eqb_refl. Qed.

Lemma rebind_index (w : world) (directory : string) (m : machine) :
  current_image_index (statics (rebind w directory m))
  = current_image_index (statics m).
Proof.
  unfold rebind.
  now destruct (negb (String.eqb (last_directory (statics m)) directory)).
Qed.

Lemma rebind_texture (w : world) (directory : string) (m : machine) :
  texture (statics (rebind w directory m)) = texture (statics m) /\
  gl_textures (rebind w directory m) = gl_textures m.
Proof.
  unfold rebind.
  now destruct (negb (String.eqb (last_directory (statics m)) directory)).
Qed.

Lemma rebind_directory (w : world) (directory : string) (m : machine) :
  last_directory (statics (rebind w directory m)) = directory.
Proof.
  unfold rebind.
  destruct (String.eqb (last_directory (statics m)) directory) eqn:E; simpl.
  - now apply String.eqb_eq.
  - reflexivity.
Qed.

Lemma load_current_held (w : world) (m : machine) :
  texture (statics m) <> 0 -> load_current w m = LoadContinue m.
Proof.
  intros H. unfold load_current.
  apply Z.eqb_neq in H. now rewrite H.
Qed.

Lemma load_current_no_images (w : world) (m : machine) :
  image_files (statics m) = [] -> load_current w m = LoadContinue m.
Proof.
  intros H. unfold load_current. rewrite H. simpl.
  now rewrite andb_false_r.
Qed.

(** Whatever the loading block does, it leaves the list, the directory and
    the index alone. *)
Lemma load_current_frame (w : world) (m m' : machine) :
  load_current w m = LoadContinue m' \/ load_current w m = LoadReturn m' ->
  image_files (statics m') = image_files (statics m) /\
  last_directory (statics m') = last_directory (statics m) /\
  current_image_index (statics m') = current_image_index (statics m).
Proof.
  unfold load_current.
  destruct ((texture (statics m) =? 0) && negb (empty (image_files (statics m)))).
  - destruct (image_files (statics m) !! Z.to_nat (current_image_index (statics m)));
      [|intros [H|H]; discriminate].
    destruct (stbi_load w s); intros [H|H]; try discriminate;
      injection H as <-; simpl; auto.
  - intros [H|H]; [|discriminate]. injection H as <-. auto.
Qed.

(** ** Navigation *)

Lemma on_prev_at_first (m : machine) :
  current_image_index (statics m) = 0 -> on_prev m = m.
Proof. intros H. unfold on_prev. now rewrite H. Qed.

Lemma on_next_at_last (m : machine) :
  size (image_files (statics m)) <= SIZE_MAX ->
  current_image_index (statics m) + 1 = size (image_files (statics m)) ->
  on_next m = m.
Proof.
  intros Hmax H. unfold on_next. rewrite H.
  unfold size_t_wrap. rewrite Z.mod_small.
  - now rewrite Z.ltb_irrefl.
  - pose proof (size_nonneg (image_files (statics m))). unfold SIZE_MAX in Hmax. lia.
Qed.

Lemma on_next_no_images (m : machine) :
  image_files (statics m) = [] -> on_next m = m.
Proof.
  intros H. unfold on_next. rewrite H.
  pose proof (size_t_wrap_bounds (current_image_index (statics m) + 1)) as [Hlo _].
  apply Z.ltb_ge in Hlo. change (size []) with 0. now rewrite Hlo.
Qed.

Lemma activate_image_files (m : machine) (p : press) :
  image_files (statics (activate m p)) = image_files (statics m).
Proof.
  destruct p; simpl; unfold on_prev, on_next.
  - now destruct (0 <? current_image_index (statics m)).
  - now destruct (size_t_wrap (current_image_index (statics m) + 1)
                  <? size (image_files (statics m))).
Qed.

Lemma activate_in_range (m : machine) (p : press) :
  index_in_range (statics m) -> index_in_range (statics (activate m p)).
Proof.
  unfold index_in_range. intros [Hlo Hhi].
  destruct p; simpl; unfold on_prev, on_next.
  - destruct (0 <? current_image_index (statics m)) eqn:E; simpl; [|lia].
    apply Z.ltb_lt in E.
    pose proof (size_t_wrap_bounds (current_image_index (statics m) - 1)).
    pose proof (size_t_wrap_le (current_image_index (statics m) - 1)).
    lia.
  - destruct (size_t_wrap (current_image_index (statics m) + 1)
              <? size (image_files (statics m))) eqn:E; simpl; [|lia].
    apply Z.ltb_lt in E.
    pose proof (size_t_wrap_bounds (current_image_index (statics m) + 1)).
    lia.
Qed.

Lemma activations_snoc (presses : list press) (p : press) (m : machine) :
  activations (presses ++ [p]) m = activate (activations presses m) p.
Proof. unfold activations. now rewrite fold_left_app. Qed.

Lemma activations_in_range (presses : list press) (m : machine) :
  index_in_range (statics m) ->
  index_in_range (statics (activations presses m)) /\
  image_files (statics (activations presses m)) = image_files (statics m).
Proof.
  intros H. induction presses as [|p presses IH] using rev_ind.
  - split; [assumption | reflexivity].
  - rewrite activations_snoc. destruct IH as [IH1 IH2]. split.
    + now apply activate_in_range.
    + now rewrite activate_image_files.
Qed.

Lemma activations_no_images (presses : list press) (m : machine) :
  image_files (statics m) = [] -> current_image_index (statics m) = 0 ->
  activations presses m = m.
Proof.
  intros Hnil H0. induction presses as [|p presses IH] using rev_ind.
  - reflexivity.
  - rewrite activations_snoc, IH. destruct p; simpl.
    + now apply on_prev_at_first.
    + now apply on_next_no_images.
Qed.

(** C8. Activating "previous" at index 0, or "next" at the last index,
    changes nothing at all: the handler returns the machine it was given
    (same index, same texture, same GL objects, no event), and a whole
    render call with the click is the render call without it, so the next
    frame has nothing to reload. The vector's size fits [size_t]. *)
Theorem boundary_activation_is_noop :
  (forall m, current_image_index (statics m) = 0 -> on_prev m = m) /\
  (forall m,
      size (image_files (statics m)) <= SIZE_MAX ->
      current_image_index (statics m) + 1 = size (image_files (statics m)) ->
      on_next m = m) /\
  (forall w title directory width height avail next m,
      current_image_index (statics m) = 0 ->
      ShowImageSubwindow w title directory width height (FrameInput avail true next) m
      = ShowImageSubwindow w title directory width height (FrameInput avail false next) m) /\
  (forall w title directory width height avail m,
      size (image_files (statics (rebind w directory m))) <= SIZE_MAX ->
      current_image_index (statics m) + 1
        = size (image_files (statics (rebind w directory m))) ->
      ShowImageSubwindow w title directory width height (FrameInput avail false true) m
      = ShowImageSubwindow w title directory width height (FrameInput avail false false) m).
Proof.
  split; [exact on_prev_at_first|]. split; [exact on_next_at_last|]. split.
  - intros w title directory width height avail next m H0.
    unfold ShowImageSubwindow.
    destruct (load_current w (rebind w directory m)) as [m'| |] eqn:E; try reflexivity.
    destruct (load_current_frame w _ m' (or_introl E)) as (_ & _ & Hi).
    rewrite rebind_index in Hi.
    unfold draw. simpl. rewrite on_prev_at_first; [reflexivity|].
    simpl. congruence.
  - intros w title directory width height avail m Hmax Hlast.
    unfold ShowImageSubwindow.
    destruct (load_current w (rebind w directory m)) as [m'| |] eqn:E; try reflexivity.
    destruct (load_current_frame w _ m' (or_introl E)) as (Hf & _ & Hi).
    rewrite rebind_index in Hi.
    unfold draw. simpl. rewrite on_next_at_last; [reflexivity| |]; simpl.
    + now rewrite Hf.
    + now rewrite Hf, Hi.
Qed.

Lemma boundary_activation_is_noop_witness :
  on_prev showing_first = showing_first /\
  on_next showing_last = showing_last /\
  ShowImageSubwindow sample_world "t" "album" (-1) 250 click_prev showing_first
  = ShowImageSubwindow sample_world "t" "album" (-1) 250 idle showing_first /\
  ShowImageSubwindow sample_world "t" "album" (-1) 250 click_next showing_last
  = ShowImageSubwindow sample_world "t" "album" (-1) 250 idle showing_last.
Proof.
  destruct boundary_activation_is_noop as (Hprev & Hnext & Hcall_prev & Hcall_next).
  split; [apply Hprev; reflexivity|].
  split; [apply Hnext; vm_compute; [discriminate | reflexivity]|].
  split; [apply Hcall_prev; reflexivity|].
  apply Hcall_next; vm_compute; [discriminate | reflexivity].
Defined.

(** ** Runs over one directory *)

Lemma glGenTextures_fresh (textures : gmap Z image) :
  glGenTextures textures <> 0 /\ textures !! glGenTextures textures = None.
Proof.
  unfold glGenTextures.
  pose proof (is_fresh ({[0]} ∪ dom textures)) as Hfresh.
  split.
  - intros H. apply Hfresh. rewrite H. set_solver.
  - apply not_elem_of_dom. set_solver.
Qed.

Lemma consistent_emit (w : world) (evs : list event) (m : machine) :
  consistent w m -> consistent w (emit evs m).
Proof. intros H. exact H. Qed.

Lemma consistent_released (w : world) (index : Z) (m : machine) :
  index_in_range (statics (release_and_move index m)) ->
  consistent w (release_and_move index m).
Proof.
  intros H. split; [now right|].
  intros Ht. now simpl in Ht.
Qed.

Lemma consistent_activate (w : world) (m : machine) (p : press) :
  consistent w m -> consistent w (activate m p).
Proof.
  intros [[[Hnil H0] | Hrange] Htex].
  - replace (activate m p) with m; [split; [now left | assumption]|].
    destruct p; simpl; symmetry.
    + now apply on_prev_at_first.
    + now apply on_next_no_images.
  - pose proof (activate_in_range m p Hrange) as Hafter.
    destruct p; simpl in *; unfold on_prev, on_next in *.
    + destruct (0 <? current_image_index (statics m)).
      * now apply consistent_released.
      * split; [now right | assumption].
    + destruct (size_t_wrap (current_image_index (statics m) + 1)
                <? size (image_files (statics m))).
      * now apply consistent_released.
      * split; [now right | assumption].
Qed.

(** From a consistent state the loading block never indexes out of range,
    and it leaves a consistent state. *)
Lemma consistent_load (w : world) (m : machine) :
  consistent w m ->
  exists m', (load_current w m = LoadContinue m' \/ load_current w m = LoadReturn m') /\
             consistent w m'.
Proof.
  intros Hc. pose proof Hc as [Hidx Htex]. unfold load_current.
  destruct (texture (statics m) =? 0) eqn:Et; simpl; [|eauto].
  destruct (empty (image_files (statics m))) eqn:Ee; simpl; [eauto|].
  destruct Hidx as [[Hnil _] | Hrange].
  { rewrite Hnil in Ee. discriminate. }
  destruct (lookup_index_in_range _ Hrange) as [path Hpath]. rewrite Hpath.
  destruct (stbi_load w path) as [data|] eqn:Hd.
  - eexists. split; [left; reflexivity|].
    split; [now right|].
    intros _. exists path, data. simpl. repeat split; try assumption.
    apply lookup_insert_eq.
  - eexists. split; [right; reflexivity|]. now apply consistent_emit.
Qed.

Lemma consistent_caption (w : world) (title : string) (m : machine) :
  consistent w m ->
  exists m', draw_caption title m = Finished m' /\ consistent w m'.
Proof.
  intros Hc. pose proof Hc as [Hidx _]. unfold draw_caption. simpl.
  destruct (empty (image_files (statics m))) eqn:Ee; simpl.
  - eexists. split; [reflexivity|]. exact Hc.
  - destruct Hidx as [[Hnil _] | Hrange].
    { rewrite Hnil in Ee. discriminate. }
    destruct (lookup_index_in_range _ Hrange) as [path Hpath]. rewrite Hpath.
    eexists. split; [reflexivity|]. exact Hc.
Qed.

Lemma consistent_draw (w : world) (title : string) (width height : Z)
  (inp : frame_input) (m : machine) :
  consistent w m ->
  exists m', draw title width height inp m = Finished m' /\ consistent w m' /\
             last_directory (statics m') = last_directory (statics m).
Proof.
  intros Hc. unfold draw.
  set (m1 := draw_image _ _ m).
  assert (H1 : consistent w m1 /\ last_directory (statics m1) = last_directory (statics m))
    by (split; [exact Hc | reflexivity]).
  set (m2 := if prev_clicked inp then on_prev m1 else m1).
  assert (H2 : consistent w m2 /\ last_directory (statics m2) = last_directory (statics m)).
  { destruct H1 as [H1 H1d]. subst m2. destruct (prev_clicked inp); [|now split].
    split; [exact (consistent_activate w m1 Prev H1)|].
    rewrite <- H1d. unfold on_prev.
    now destruct (0 <? current_image_index (statics m1)). }
  set (m3 := emit _ m2).
  set (m4 := if next_clicked inp then on_next m3 else m3).
  assert (H4 : consistent w m4 /\ last_directory (statics m4) = last_directory (statics m)).
  { destruct H2 as [H2 H2d]. subst m4. destruct (next_clicked inp); [|now split].
    split; [exact (consistent_activate w m3 Next H2)|].
    rewrite <- H2d. unfold on_next.
    now destruct (size_t_wrap (current_image_index (statics m3) + 1)
                  <? size (image_files (statics m3))). }
  destruct H4 as [H4 H4d].
  destruct (consistent_caption w title m4 H4) as (m' & Hm' & Hc').
  exists m'. split; [assumption|]. split; [assumption|].
  rewrite <- H4d. unfold draw_caption in Hm'. simpl in Hm'.
  destruct (negb (empty (image_files (statics m4)))).
  - destruct (image_files (statics m4) !! Z.to_nat (current_image_index (statics m4)));
      [|discriminate].
    now injection Hm' as <-.
  - now injection Hm' as <-.
Qed.

(** One render call keeps [coherent]; it returns, and the directory is
    bound afterwards. *)
Lemma coherent_call (w : world) (title directory : string) (width height : Z)
  (inp : frame_input) (m : machine) :
  coherent w directory m ->
  exists m', ShowImageSubwindow w title directory width height inp m = Finished m' /\
             coherent w directory m' /\ last_directory (statics m') = directory.
Proof.
  intros [Hfresh Hbound].
  assert (H1 : consistent w (rebind w directory m)).
  { destruct (String.eqb (last_directory (statics m)) directory) eqn:E.
    - apply String.eqb_eq in E. rewrite rebind_same by assumption. auto.
    - apply String.eqb_neq in E. destruct (Hfresh E) as (H0 & Ht & _).
      unfold rebind. apply String.eqb_neq in E. rewrite E. simpl.
      split.
      + simpl. destruct (GetImageFiles (disk w) directory) as [|f fs] eqn:Eg.
        * now left.
        * right. unfold index_in_range. simpl. rewrite H0.
          unfold size. simpl length. lia.
      + intros Hne. simpl in Hne. contradiction. }
  pose proof (rebind_directory w directory m) as Hd.
  unfold ShowImageSubwindow.
  destruct (consistent_load w _ H1) as (m2 & [E | E] & H2); rewrite E.
  - destruct (load_current_frame w _ m2 (or_introl E)) as (_ & Hd2 & _).
    destruct (consistent_draw w title width height inp m2 H2) as (m' & Hm' & Hc' & Hd').
    exists m'. split; [assumption|].
    assert (last_directory (statics m') = directory) by congruence.
    split; [|assumption]. split; [contradiction | auto].
  - destruct (load_current_frame w _ m2 (or_intror E)) as (_ & Hd2 & _).
    exists m2. split; [reflexivity|].
    assert (last_directory (statics m2) = directory) by congruence.
    split; [|assumption]. split; [contradiction | auto].
Qed.

Lemma coherent_initial (w : world) (directory : string) :
  coherent w directory initial_machine.
Proof.
  split.
  - intros _. repeat split; reflexivity.
  - intros _. split; [now left|]. intros H. now simpl in H.
Qed.

(** While the directory argument stays the same, no call indexes out of
    range, the index is 0 without images and in range with images, and a
    held texture is always the one of the current image. *)
Lemma fixed_directory_run (w : world) (directory : string) (calls : list call)
  (m : machine) :
  coherent w directory m ->
  Forall (fun c => call_directory c = directory) calls ->
  exists m', run w calls m = Finished m' /\ coherent w directory m'.
Proof.
  intros Hc Hall. revert m Hc.
  induction Hall as [|c calls Hdir _ IH]; intros m Hc; simpl.
  - eauto.
  - rewrite Hdir.
    destruct (coherent_call w (call_title c) directory (call_width c)
                (call_height c) (call_input c) m Hc) as (m1 & -> & Hc1 & _).
    now apply IH.
Qed.

(** C3, as stated, fails: with no images the index can still be moved by
    "previous". After showing [album], stepping to its second image and
    then being given the directory [vacant], the widget has no images and
    index 1; activating "previous" makes the index 0. *)
Lemma prev_moves_index_without_images :
  exists m m',
    run sample_world [show "album" click_next; show "vacant" idle] initial_machine
      = Finished m /\
    image_files (statics m) = [] /\
    current_image_index (statics m) = 1 /\
    current_image_index (statics (on_prev m)) = 0 /\
    ShowImageSubwindow sample_world "(Image Folder Navigator)" "vacant" (-1) 250
      click_prev m = Finished m' /\
    image_files (statics m') = [] /\
    current_image_index (statics m') = 0.
Proof.
  eexists. eexists.
  split; [vm_compute; reflexivity|].
  split; [reflexivity|]. split; [reflexivity|]. split; [reflexivity|].
  split; [vm_compute; reflexivity|].
  split; reflexivity.
Qed.

(** C3, amended. For every sequence of prev/next activations applied to a
    state whose index is in range, the index is in range after every step
    and the list is untouched. With no images, "next" never changes
    anything, and "previous" changes nothing when the index is 0; the index
    is 0 without images in every state reached from the initial one by
    calls that all name the same directory. *)
Theorem navigation_keeps_index_in_range :
  (forall presses m,
      index_in_range (statics m) ->
      forall k,
        index_in_range (statics (activations (take k presses) m)) /\
        image_files (statics (activations (take k presses) m))
          = image_files (statics m)) /\
  (forall m, image_files (statics m) = [] -> on_next m = m) /\
  (forall presses m,
      image_files (statics m) = [] ->
      current_image_index (statics m) = 0 ->
      forall k, activations (take k presses) m = m) /\
  (forall w directory calls,
      Forall (fun c => call_directory c = directory) calls ->
      exists m,
        run w calls initial_machine = Finished m /\
        (image_files (statics m) = [] -> current_image_index (statics m) = 0) /\
        (image_files (statics m) <> [] -> index_in_range (statics m))).
Proof.
  split; [|split; [|split]].
  - intros presses m H k. now apply activations_in_range.
  - exact on_next_no_images.
  - intros presses m Hnil H0 k. now apply activations_no_images.
  - intros w directory calls Hall.
    destruct (fixed_directory_run w directory calls initial_machine
                (coherent_initial w directory) Hall) as (m & Hrun & Hfresh & Hbound).
    exists m. split; [assumption|].
    destruct (String.eqb (last_directory (statics m)) directory) eqn:E.
    + apply String.eqb_eq in E. destruct (Hbound E) as [[[Hnil H0] | Hrange] _].
      * split; [auto | contradiction].
      * split; [|auto]. intros Hnil. unfold index_in_range in Hrange.
        rewrite Hnil in Hrange. change (size []) with 0 in Hrange. lia.
    + apply String.eqb_neq in E. destruct (Hfresh E) as (H0 & _ & Hnil).
      split; [auto | contradiction].
Qed.

Lemma navigation_keeps_index_in_range_witness :
  index_in_range (statics showing_first) /\
  index_in_range (statics (activations (take 4 [Next; Next; Prev; Prev; Prev]) showing_first)) /\
  activations (take 2 [Prev; Next]) initial_machine = initial_machine /\
  exists m,
    run sample_world [show "vacant" click_prev; show "vacant" click_next] initial_machine
      = Finished m.
Proof.
  destruct navigation_keeps_index_in_range as (Hrange & _ & Hnone & Hrun).
  assert (H0 : index_in_range (statics showing_first)) by (vm_compute; split; [discriminate | reflexivity]).
  split; [exact H0|].
  split; [exact (proj1 (Hrange [Next; Next; Prev; Prev; Prev] showing_first H0 4%nat))|].
  split; [exact (Hnone [Prev; Next] initial_machine eq_refl eq_refl 2%nat)|].
  destruct (Hrun sample_world "vacant"
              [show "vacant" click_prev; show "vacant" click_next]) as (m & Hm & _).
  - repeat constructor.
  - exists m. exact Hm.
Defined.

(** C10. A render call that names the bound directory, with no button
    activated and a texture held, on a state whose index addresses an image
    (or that has no images), returns with the statics and the GL textures
    exactly as they were; everything it appends to the trace is an ImGui
    call: the directory is not scanned, no file is decoded, no texture is
    generated or deleted. The same holds for any number of such calls in a
    row, so a loaded image is not loaded again until a navigation step
    releases it. *)
Theorem idle_call_changes_nothing (w : world) (title directory : string)
  (width height : Z) (avail : ImVec2) (m : machine) :
  last_directory (statics m) = directory ->
  texture (statics m) <> 0 ->
  index_valid (statics m) ->
  (exists cmds,
      ShowImageSubwindow w title directory width height (FrameInput avail false false) m
      = Finished {| statics := statics m; gl_textures := gl_textures m;
                    trace := trace m ++ map ImGui cmds |}) /\
  (forall n, exists cmds,
      run w (repeat (Call title directory width height (FrameInput avail false false)) n) m
      = Finished {| statics := statics m; gl_textures := gl_textures m;
                    trace := trace m ++ map ImGui cmds |}).
Proof.
  intros Hdir Htex Hidx.
  assert (Hone : forall tr, exists cmds,
             ShowImageSubwindow w title directory width height
               (FrameInput avail false false)
               {| statics := statics m; gl_textures := gl_textures m; trace := tr |}
             = Finished {| statics := statics m; gl_textures := gl_textures m;
                           trace := tr ++ map ImGui cmds |}).
  { intros tr. unfold ShowImageSubwindow.
    rewrite rebind_same by exact Hdir.
    rewrite load_current_held by exact Htex.
    unfold draw, draw_caption, draw_image, emit. simpl.
    destruct Hidx as [Hnil | Hrange].
    - rewrite Hnil. simpl. eexists.
      rewrite <- !List.app_assoc. simpl.
      match goal with
      | |- Finished {| trace := tr ++ ?l |} = _ =>
          let cmds := constr:(
            [ BeginChild title (child_size width height avail) true;
              Image (texture (statics m))
                {| vx := fixed_width (statics m); vy := fixed_height |};
              AddRect 255 255 255 255 2; SetCursorPosY_plus 10;
              PushStyleColor 255 192 203 255; PushStyleColor 255 0 0 255;
              PushStyleColor 0 0 0 255; Button "<-"; SameLine; Button "->";
              PopStyleColor 3; SetCursorPosY_plus 10; Text title; EndChild ]) in
          instantiate (1 := cmds)
      end.
      reflexivity.
    - destruct (lookup_index_in_range _ Hrange) as [path Hpath]. rewrite Hpath.
      assert (Hne : empty (image_files (statics m)) = false).
      { destruct (image_files (statics m)); [discriminate | reflexivity]. }
      rewrite Hne. simpl.
      exists [ BeginChild title (child_size width height avail) true;
               Image (texture (statics m))
                 {| vx := fixed_width (statics m); vy := fixed_height |};
               AddRect 255 255 255 255 2; SetCursorPosY_plus 10;
               PushStyleColor 255 192 203 255; PushStyleColor 255 0 0 255;
               PushStyleColor 0 0 0 255; Button "<-"; SameLine; Button "->";
               PopStyleColor 3; SetCursorPosY_plus 10; Text title;
               Text ("Current media: " +:+ path); EndChild ].
      rewrite <- !List.app_assoc. reflexivity. }
  split.
  - destruct (Hone (trace m)) as [cmds Hcmds]. exists cmds.
    destruct m as [st gl tr]. exact Hcmds.
  - intros n.
    assert (Hn : forall tr, exists cmds,
               run w (repeat (Call title directory width height
                                (FrameInput avail false false)) n)
                 {| statics := statics m; gl_textures := gl_textures m; trace := tr |}
               = Finished {| statics := statics m; gl_textures := gl_textures m;
                             trace := tr ++ map ImGui cmds |}).
    { induction n as [|n IH]; intros tr.
      - exists []. simpl. now rewrite app_nil_r.
      - simpl. destruct (Hone tr) as [cmds1 ->].
        destruct (IH (tr ++ map ImGui cmds1)) as [cmds2 ->].
        exists (cmds1 ++ cmds2). now rewrite map_app, List.app_assoc. }
    destruct (Hn (trace m)) as [cmds Hcmds]. exists cmds.
    destruct m as [st gl tr]. exact Hcmds.
Qed.

Lemma idle_call_changes_nothing_witness :
  exists cmds,
    run sample_world (repeat (Call "t" "album" (-1) 250 (FrameInput region false false)) 3)
      showing_first
    = Finished {| statics := statics showing_first;
                  gl_textures := gl_textures showing_first;
                  trace := trace showing_first ++ map ImGui cmds |}.
Proof.
  apply (idle_call_changes_nothing sample_world "t" "album" (-1) 250 region showing_first).
  - reflexivity.
  - vm_compute. discriminate.
  - right. vm_compute. split; [discriminate | reflexivity].
Defined.

(** ** A load that fails *)

(** C4, as stated, fails: when the decode fails the panel is not rendered.
    The first call on the directory [damaged], whose only image does not
    decode, logs the failure and returns; it makes no ImGui call at all, so
    no child window is begun or ended. *)
Lemma failed_load_draws_no_panel :
  exists m,
    sample_decoder "damaged/torn.png" = None /\
    ShowImageSubwindow sample_world "(Image Folder Navigator)" "damaged" (-1) 250
      idle initial_machine = Finished m /\
    image_files (statics m) = ["damaged/torn.png"] /\
    events_since initial_machine m
      = [ Scanned "damaged"; Decoded "damaged/torn.png" false;
          Cerr "Failed to load image: damaged/torn.png" ] /\
    ~ panel_rendered "(Image Folder Navigator)" (events_since initial_machine m).
Proof.
  eexists.
  split; [reflexivity|].
  split; [vm_compute; reflexivity|].
  split; [reflexivity|]. split; [reflexivity|].
  intros [_ Hend]. simpl in Hend.
  destruct Hend as [H | [H | [H | []]]]; discriminate.
Qed.

(** C4, amended. When no texture is held and decoding
    [image_files[current_image_index]] fails, the call decodes once, writes
    "Failed to load image: <path>" to [std::cerr] and returns at once: past
    the directory check it appends exactly these two events, so it makes no
    ImGui call (the panel is not drawn in that call) and does not decode a
    second time. The texture stays 0, the index and the GL textures are
    unchanged, and the call returns normally. *)
Theorem failed_load_returns_early (w : world) (title directory : string)
  (width height : Z) (inp : frame_input) (m : machine) (path : string) :
  texture (statics m) = 0 ->
  image_files (statics (rebind w directory m))
    !! Z.to_nat (current_image_index (statics m)) = Some path ->
  stbi_load w path = None ->
  exists m',
    ShowImageSubwindow w title directory width height inp m = Finished m' /\
    statics m' = statics (rebind w directory m) /\
    texture (statics m') = 0 /\
    current_image_index (statics m') = current_image_index (statics m) /\
    gl_textures m' = gl_textures m /\
    events_since (rebind w directory m) m'
      = [ Decoded path false; Cerr ("Failed to load image: " +:+ path) ] /\
    ~ panel_rendered title (events_since (rebind w directory m) m').
Proof.
  intros Htex Hpath Hfail.
  destruct (rebind_texture w directory m) as [Ht Hgl].
  pose proof (rebind_index w directory m) as Hi.
  unfold ShowImageSubwindow, load_current.
  rewrite Ht, Htex, Hi, Hpath, Hfail. simpl.
  assert (Hne : empty (image_files (statics (rebind w directory m))) = false).
  { destruct (image_files (statics (rebind w directory m))); [|reflexivity].
    now rewrite lookup_nil in Hpath. }
  rewrite Hne. simpl.
  assert (Hev : events_since (rebind w directory m)
                  (emit [ Decoded path false; Cerr ("Failed to load image: " +:+ path) ]
                     (rebind w directory m))
                = [ Decoded path false; Cerr ("Failed to load image: " +:+ path) ]).
  { unfold events_since, emit. simpl. now rewrite drop_app_length. }
  eexists. split; [reflexivity|].
  split; [reflexivity|]. split; [simpl; congruence|].
  split; [simpl; congruence|]. split; [exact Hgl|].
  split; [exact Hev|].
  rewrite Hev. intros [_ Hend]. simpl in Hend.
  destruct Hend as [H | [H | []]]; discriminate.
Qed.

Lemma failed_load_returns_early_witness :
  exists m',
    ShowImageSubwindow sample_world "t" "damaged" (-1) 250 click_next initial_machine
      = Finished m' /\
    statics m' = statics (rebind sample_world "damaged" initial_machine) /\
    texture (statics m') = 0 /\
    current_image_index (statics m') = current_image_index (statics initial_machine) /\
    gl_textures m' = gl_textures initial_machine /\
    events_since (rebind sample_world "damaged" initial_machine) m'
      = [ Decoded "damaged/torn.png" false;
          Cerr ("Failed to load image: " +:+ "damaged/torn.png") ] /\
    ~ panel_rendered "t" (events_since (rebind sample_world "damaged" initial_machine) m').
Proof.
  apply (failed_load_returns_early sample_world "t" "damaged" (-1) 250 click_next
           initial_machine "damaged/torn.png"); reflexivity.
Defined.

(** ** One state for every title *)

Lemma same_state_emit (evs1 evs2 : list event) (m1 m2 : machine) :
  same_state m1 m2 -> same_state (emit evs1 m1) (emit evs2 m2).
Proof. intros H. exact H. Qed.

Lemma same_state_activate (p : press) (m1 m2 : machine) :
  same_state m1 m2 -> same_state (activate m1 p) (activate m2 p).
Proof.
  intros [Hs Hg]. destruct p; simpl; unfold on_prev, on_next; rewrite Hs.
  - destruct (0 <? current_image_index (statics m2)); [|now split].
    unfold release_and_move, same_state. simpl. now rewrite Hs, Hg.
  - destruct (size_t_wrap (current_image_index (statics m2) + 1)
              <? size (image_files (statics m2))); [|now split].
    unfold release_and_move, same_state. simpl. now rewrite Hs, Hg.
Qed.

Lemma same_state_caption (A B : string) (m1 m2 : machine) :
  same_state m1 m2 -> same_outcome (draw_caption A m1) (draw_caption B m2).
Proof.
  intros [Hs Hg]. unfold draw_caption. simpl. rewrite Hs.
  destruct (negb (empty (image_files (statics m2)))).
  - destruct (image_files (statics m2) !! Z.to_nat (current_image_index (statics m2)));
      simpl; [now split | exact I].
  - now split.
Qed.

Lemma draw_state_title (A B : string) (width height : Z) (inp : frame_input)
  (m : machine) :
  same_outcome (draw A width height inp m) (draw B width height inp m).
Proof.
  unfold draw. apply same_state_caption.
  set (size := child_size width height (content_region_avail inp)).
  assert (H1 : same_state (draw_image A size m) (draw_image B size m))
    by (split; reflexivity).
  assert (H2 : same_state
                 (if prev_clicked inp then on_prev (draw_image A size m)
                  else draw_image A size m)
                 (if prev_clicked inp then on_prev (draw_image B size m)
                  else draw_image B size m)).
  { destruct (prev_clicked inp); [exact (same_state_activate Prev _ _ H1) | exact H1]. }
  destruct (next_clicked inp); [|exact H2].
  apply (same_state_activate Next). exact H2.
Qed.

(** C7, as stated, fails: the statics are shared by all titles. The very
    first call, under the title "left" on [album] with "next" activated,
    loads the first image and moves the index to 1. The first call under
    the title "right" then finds index 1 and loads the second image (3 by
    3), whereas with no call under "left" before it, it leaves index 0 and
    the first image (4 by 2). *)
Lemma titles_share_state : ~ state_keyed_by_title.
Proof.
  intros H.
  assert (Hne : "left" <> "right") by discriminate.
  specialize (H sample_world "left" "right" "album" (-1) 250 click_next idle
                _ _ _ Hne eq_refl eq_refl eq_refl).
  vm_compute in H. destruct H as (_ & _ & Hindex & _). discriminate Hindex.
Qed.

(** ** A directory argument that changes *)

(** C1 at a failing input. The widget shows the second image of [album]
    (index 1, texture 1 holding [album/b.jpg]). The next call names the
    directory [other]: the list is scanned anew, but the index stays 1 and
    texture 1 stays held and alive. The same happens when the new argument
    is [album/], the same directory under another path string. When the new
    directory is [small], with a single image, the kept index 1 is out of
    range and the call indexes the vector past its end. *)
Lemma directory_change_keeps_index_and_texture :
  exists m m1 m2,
    run sample_world [show "album" click_next; show "album" idle] initial_machine
      = Finished m /\
    statics m = statics showing_last /\
    gl_textures m = gl_textures showing_last /\
    ShowImageSubwindow sample_world "(Image Folder Navigator)" "other" (-1) 250 idle m
      = Finished m1 /\
    statics m1 = {| image_files := ["other/y.png"; "other/z.png"];
                    last_directory := "other";
                    current_image_index := 1; texture := 1;
                    img_width := 3; img_height := 3 |} /\
    gl_textures m1 = gl_textures m /\
    ShowImageSubwindow sample_world "(Image Folder Navigator)" "album/" (-1) 250 idle m
      = Finished m2 /\
    statics m2 = {| image_files := ["album/a.png"; "album/b.jpg"];
                    last_directory := "album/";
                    current_image_index := 1; texture := 1;
                    img_width := 3; img_height := 3 |} /\
    gl_textures m2 = gl_textures m /\
    ShowImageSubwindow sample_world "(Image Folder Navigator)" "small" (-1) 250 idle m
      = Undefined.
Proof.
  eexists. eexists. eexists.
  split; [vm_compute; reflexivity|].
  split; [reflexivity|]. split; [reflexivity|].
  split; [vm_compute; reflexivity|].
  split; [reflexivity|]. split; [reflexivity|].
  split; [vm_compute; reflexivity|].
  split; [reflexivity|]. split; [reflexivity|].
  vm_compute. reflexivity.
Qed.

(** C2 at a failing input. After the same three calls (two on [album], one
    on [other]) texture 1 is held and holds the decoded [album/b.jpg],
    while [image_files[current_image_index]] is [other/z.png], which
    decodes to another image; the last call drew texture 1 and captioned it
    [other/z.png]. *)
Lemma stale_texture_after_directory_change :
  exists m,
    run sample_world [show "album" click_next; show "album" idle; show "other" idle]
      initial_machine = Finished m /\
    texture (statics m) = 1 /\
    gl_textures m !! 1 = Some (photo 3 3 2) /\
    stbi_load sample_world "album/b.jpg" = Some (photo 3 3 2) /\
    image_files (statics m) !! Z.to_nat (current_image_index (statics m))
      = Some "other/z.png" /\
    stbi_load sample_world "other/z.png" = Some (photo 2 1 4) /\
    In (ImGui (Image 1 {| vx := float_of_int 150; vy := float_of_int 150 |}))
       (trace m) /\
    In (ImGui (Text "Current media: other/z.png")) (trace m) /\
    ~ texture_current sample_world m.
Proof.
  eexists.
  split; [vm_compute; reflexivity|].
  split; [reflexivity|]. split; [reflexivity|]. split; [reflexivity|].
  split; [reflexivity|]. split; [reflexivity|].
  split; [vm_compute; tauto|]. split; [vm_compute; tauto|].
  intros H. destruct H as (path & data & Hpath & Hdata & Hheld).
  - discriminate.
  - vm_compute in Hpath. injection Hpath as <-.
    vm_compute in Hdata. injection Hdata as <-.
    vm_compute in Hheld. discriminate Hheld.
Qed.

(** While the directory argument never changes the defect does not show:
    every call returns, and at every call a held texture is the decoded
    [image_files[current_image_index]]. *)
Lemma texture_current_fixed_directory (w : world) (directory : string)
  (calls : list call) :
  Forall (fun c => call_directory c = directory) calls ->
  exists m, run w calls initial_machine = Finished m /\ texture_current w m.
Proof.
  intros Hall.
  destruct (fixed_directory_run w directory calls initial_machine
              (coherent_initial w directory) Hall) as (m & Hrun & Hfresh & Hbound).
  exists m. split; [assumption|].
  destruct (String.eqb (last_directory (statics m)) directory) eqn:E.
  - apply String.eqb_eq in E. now destruct (Hbound E).
  - apply String.eqb_neq in E. destruct (Hfresh E) as (_ & Ht & _).
    intros Hne. contradiction.
Qed.

(** The program itself calls the widget with [getDataPath()]: as long as
    the environment stays as it is, the main loop never indexes out of
    range and never shows a texture that is not the current image's. *)
Lemma main_loop_safe (env : environment) (w : world) (inputs : list frame_input) :
  exists m, main_loop env w inputs initial_machine = Finished m /\
            texture_current w m.
Proof.
  unfold main_loop.
  apply (texture_current_fixed_directory w (getDataPath env)).
  apply List.Forall_forall. intros c Hc. apply in_map_iff in Hc.
  destruct Hc as [inp [<- _]]. reflexivity.
Qed.

(** ** The thumbnail *)

(** With a texture loaded from a 4x2 image the thumbnail is 300 wide. *)
Lemma fixed_width_showing_first :
  fixed_width (statics showing_first) = float_of_int 300.
Proof. reflexivity. Qed.

(** C5 at a failing input. The first call on the directory [vacant], which
    holds no image (and likewise on [nowhere], which does not exist), draws
    the thumbnail with [img_height = 0]: the divisor of line 171 is zero,
    the quotient 0.0f / 0 is NaN, and [ImGui::Image] is called with texture
    0 and a NaN width. *)
Lemma thumbnail_divides_by_zero_without_images :
  exists m m',
    ShowImageSubwindow sample_world "(Image Folder Navigator)" "vacant" (-1) 250
      idle initial_machine = Finished m /\
    image_files (statics m) = [] /\
    img_height (statics m) = 0 /\
    float_of_int (img_height (statics m)) = S754_zero false /\
    fixed_width (statics m) = S754_nan /\
    In (ImGui (Image 0 {| vx := S754_nan; vy := float_of_int 150 |}))
       (events_since initial_machine m) /\
    ShowImageSubwindow sample_world "(Image Folder Navigator)" "nowhere" (-1) 250
      idle initial_machine = Finished m' /\
    In (ImGui (Image 0 {| vx := S754_nan; vy := float_of_int 150 |}))
       (events_since initial_machine m').
Proof.
  eexists. eexists.
  split; [vm_compute; reflexivity|].
  split; [reflexivity|]. split; [reflexivity|]. split; [reflexivity|].
  split; [reflexivity|]. split; [vm_compute; tauto|].
  split; [vm_compute; reflexivity|].
  vm_compute. tauto.
Qed.

(** [GetImageFiles] on the sample disk: the scenario of the spec, and a path
    that is not a directory. *)
Lemma GetImageFiles_is_scan_witness :
  GetImageFiles sample_disk "album" = ["album/a.png"; "album/b.jpg"] /\
  GetImageFiles sample_disk "nowhere" = [] /\
  GetImageFiles sample_disk "notes.txt" = [].
Proof.
  destruct GetImageFiles_is_scan as (Hscan & _ & Hnone).
  split; [rewrite Hscan; reflexivity|].
  split; apply Hnone; [left | right]; reflexivity.
Defined.

(** [getDataPath] inside an application bundle. *)
Lemma getDataPath_first_existing_witness :
  getDataPath bundled = "/Applications/App.app/Contents/Resources/data".
Proof.
  destruct (getDataPath_first_existing bundled)
    as [_ [(i & path & Hi & _ & Hbefore & ->) | (Hnone & _)]].
  - destruct i as [|i].
    + vm_compute in Hi. now injection Hi as <-.
    + exfalso.
      assert (H : is_existing_directory (files bundled)
                    "/Applications/App.app/Contents/Resources/data" = false).
      { apply (Hbefore 0%nat); [lia | reflexivity]. }
      vm_compute in H. discriminate H.
  - exfalso.
    assert (H : is_existing_directory (files bundled)
                  "/Applications/App.app/Contents/Resources/data" = false).
    { apply Hnone. left. reflexivity. }
    vm_compute in H. discriminate H.
Defined.

(** * Further properties of the code *)

(** ** [EndsWith] *)

(** X1. [EndsWith str suffix] is true exactly when [str] is some string
    followed by [suffix]; in particular the position arithmetic
    [str.size() - suffix.size()] never selects anything but the last
    [suffix.size()] characters. *)
Theorem EndsWith_iff_suffix (str suffix : string) :
  EndsWith str suffix = true <-> exists front, str = front +:+ suffix.
Proof. apply EndsWith_ends_in. Qed.

Lemma chars_nil (s : string) : chars s = [] -> s = EmptyString.
Proof. intros H. apply chars_inj. exact H. Qed.

(** X2. [EndsWith] orders strings: every string ends with itself and with
    the empty string, a suffix longer than the string never matches, two
    strings that end with each other are equal, and ending is transitive. *)
Theorem EndsWith_order :
  (forall s, EndsWith s s = true) /\
  (forall s, EndsWith s EmptyString = true) /\
  (forall s suffix,
      (String.length s < String.length suffix)%nat -> EndsWith s suffix = false) /\
  (forall a b, EndsWith a b = true -> EndsWith b a = true -> a = b) /\
  (forall a b c, EndsWith a b = true -> EndsWith b c = true -> EndsWith a c = true).
Proof.
  split; [|split; [|split; [|split]]].
  - intros s. apply EndsWith_ends_in. now exists EmptyString.
  - intros s. apply EndsWith_ends_in. exists s.
    apply chars_inj. rewrite chars_app. simpl. now rewrite app_nil_r.
  - intros s suffix Hlt. unfold EndsWith.
    apply Nat.leb_gt in Hlt. now rewrite Hlt.
  - intros a b Hab Hba.
    apply EndsWith_ends_in in Hab. apply EndsWith_ends_in in Hba.
    destruct Hab as [x Hx]. destruct Hba as [y Hy].
    assert (Hlen : length (chars a) = (length (chars x) + length (chars b))%nat)
      by (rewrite Hx, chars_app, length_app; reflexivity).
    assert (Hlen' : length (chars b) = (length (chars y) + length (chars a))%nat)
      by (rewrite Hy, chars_app, length_app; reflexivity).
    assert (Hx0 : chars x = []) by (apply length_zero_iff_nil; lia).
    apply chars_nil in Hx0. subst x. exact Hx.
  - intros a b c Hab Hbc.
    apply EndsWith_ends_in in Hab. apply EndsWith_ends_in in Hbc.
    destruct Hab as [x ->]. destruct Hbc as [y ->].
    apply EndsWith_ends_in. exists (x +:+ y).
    apply chars_inj. rewrite !chars_app. apply List.app_assoc.
Qed.

Lemma EndsWith_order_witness :
  EndsWith "photo.jpeg" ".jpg" = false /\
  EndsWith "g" ".png" = false /\
  EndsWith "archive.tar.png" ".png" = true.
Proof.
  destruct EndsWith_order as (_ & _ & Hshort & _ & Htrans).
  split; [reflexivity|].
  split; [apply Hshort; simpl; lia|].
  apply (Htrans _ "tar.png"); reflexivity.
Defined.

(** ** [GetImageFiles] *)

(** X3. The suffix test of [GetImageFiles] is made on the whole path
    [directory / name], and it gives what the same test on the file name
    alone gives, whatever the directory string is: a directory that is
    itself called [shots.png] does not turn its entries into images, and a
    name shorter than the suffix is not completed by the end of the
    directory. *)
Theorem image_test_ignores_directory (directory name : string) :
  is_image_path (path_append directory name) = is_image_path name.
Proof.
  rewrite is_image_path_name.
  unfold is_image_path, recognized_suffixes. simpl.
  now rewrite orb_false_r, orb_assoc.
Qed.

Lemma path_append_relative (p q : string) :
  ~ In separator (chars q) ->
  exists front, forall q', ~ In separator (chars q') ->
                           path_append p q' = front +:+ q'.
Proof.
  intros _.
  assert (Hrel : forall q', ~ In separator (chars q') -> is_absolute q' = false).
  { intros q' Hq'. destruct q' as [|c q']; [reflexivity|]. simpl.
    destruct (Ascii.eqb c separator) eqn:E; [|reflexivity].
    apply Ascii.eqb_eq in E. subst c. exfalso. apply Hq'. now left. }
  unfold path_append.
  destruct (String.eqb p EmptyString || has_trailing_separator p).
  - exists p. intros q' Hq'. now rewrite (Hrel q' Hq').
  - exists (p +:+ "/"). intros q' Hq'. rewrite (Hrel q' Hq').
    apply chars_inj. rewrite !chars_app. now rewrite <- List.app_assoc.
Qed.

Lemma filter_length_le {A : Type} (f : A -> bool) (l : list A) :
  (length (List.filter f l) <= length l)%nat.
Proof.
  induction l as [|a l IH]; simpl; [lia|].
  destruct (f a); simpl; lia.
Qed.

(** X4. [GetImageFiles] returns no more paths than the directory has
    entries, and when the entries have distinct names (names hold no
    separator) the returned paths are distinct. *)
Theorem GetImageFiles_distinct (fs : filesystem) (D : string)
  (entries : list dir_entry) :
  fs D = Some (NDirectory entries) ->
  Forall (fun e => ~ In separator (chars (entry_name e))) entries ->
  List.NoDup (map entry_name entries) ->
  (length (GetImageFiles fs D) <= length entries)%nat /\
  List.NoDup (GetImageFiles fs D).
Proof.
  intros Hdir Hsep Hnodup.
  assert (Hscan : GetImageFiles fs D
                  = map (fun e => path_append D (entry_name e))
                        (List.filter has_recognized_name entries)).
  { unfold GetImageFiles, fs_exists, fs_is_directory. rewrite Hdir. simpl.
    apply scan_entries_filter. }
  rewrite Hscan. split.
  - rewrite length_map. apply filter_length_le.
  - clear Hscan Hdir.
    induction entries as [|e rest IH]; simpl; [constructor|].
    apply Forall_cons in Hsep. destruct Hsep as [He Hrest].
    simpl in Hnodup. apply List.NoDup_cons_iff in Hnodup.
    destruct Hnodup as [Hnotin Hnodup].
    destruct (has_recognized_name e); [|now apply IH].
    simpl. constructor; [|now apply IH].
    intros Hin. apply in_map_iff in Hin. destruct Hin as [e' [Heq Hin']].
    apply filter_In in Hin'. destruct Hin' as [Hin' _].
    apply Hnotin. apply in_map_iff. exists e'. split; [|assumption].
    destruct (path_append_relative D (entry_name e) He) as [front Hfront].
    rewrite (Hfront (entry_name e) He) in Heq.
    rewrite (Hfront (entry_name e')) in Heq.
    + apply (f_equal chars) in Heq. rewrite !chars_app in Heq.
      apply app_inv_head in Heq. now apply chars_inj.
    + rewrite List.Forall_forall in Hrest. now apply Hrest.
Qed.

Lemma GetImageFiles_distinct_witness :
  (length (GetImageFiles sample_disk "album") <= 5)%nat /\
  List.NoDup (GetImageFiles sample_disk "album").
Proof.
  apply (GetImageFiles_distinct sample_disk "album"
           [ DirEntry "a.png" RegularFile; DirEntry "b.jpg" RegularFile;
             DirEntry "c.txt" RegularFile; DirEntry "d.PNG" RegularFile;
             DirEntry "sub.png" DirectoryFile ]).
  - reflexivity.
  - repeat constructor; vm_compute; intuition discriminate.
  - repeat constructor; vm_compute; intuition discriminate.
Defined.

(** ** Paths and [getDataPath] *)

Lemma drop_while_all (f : ascii -> bool) (l rest : list ascii) :
  Forall (fun c => f c = true) l -> drop_while f (l ++ rest) = drop_while f rest.
Proof.
  induction 1 as [|c l Hc _ IH]; simpl; [reflexivity|].
  now rewrite Hc.
Qed.

Lemma chars_rev_string (l : list ascii) :
  chars (string_of_list_ascii l) = l.
Proof. apply chars_of_list. Qed.

Lemma not_separator_all (name : string) :
  ~ In separator (chars name) ->
  Forall (fun c => negb (is_separator c) = true) (rev (chars name)).
Proof.
  intros H. apply List.Forall_forall. intros c Hc.
  apply in_rev in Hc. unfold is_separator.
  destruct (Ascii.eqb c separator) eqn:E; [|reflexivity].
  apply Ascii.eqb_eq in E. subst c. contradiction.
Qed.

(** The parent of [dir / name] is [dir], for a name without separators
    and a directory that does not end with one. *)
Lemma parent_path_append (dir name : string) :
  has_trailing_separator dir = false ->
  name <> EmptyString ->
  ~ In separator (chars name) ->
  parent_path (path_append dir name) = dir /\
  has_trailing_separator (path_append dir name) = false.
Proof.
  intros Hdir Hname Hsep.
  assert (Hrel : is_absolute name = false).
  { destruct name as [|c name]; [reflexivity|]. simpl.
    destruct (Ascii.eqb c separator) eqn:E; [|reflexivity].
    apply Ascii.eqb_eq in E. subst c. exfalso. apply Hsep. now left. }
  assert (Hlast : has_trailing_separator name = false).
  { unfold has_trailing_separator.
    destruct (rev (chars name)) as [|c r] eqn:E; [reflexivity|].
    pose proof (not_separator_all name Hsep) as Hall. rewrite E in Hall.
    apply Forall_cons in Hall. destruct Hall as [Hc _].
    unfold is_separator in Hc. now destruct (Ascii.eqb c separator). }
  assert (Htail : forall front,
             has_trailing_separator (front +:+ name) = false).
  { intros front. unfold has_trailing_separator in *.
    rewrite chars_app, rev_app_distr.
    destruct (rev (chars name)) as [|c r] eqn:E; [|exact Hlast].
    exfalso. apply Hname. apply chars_nil.
    rewrite <- (rev_involutive (chars name)), E. reflexivity. }
  unfold path_append. rewrite Hrel, Hdir.
  destruct (String.eqb dir EmptyString) eqn:Ed; simpl.
  - apply String.eqb_eq in Ed. subst dir. simpl. split; [|exact Hlast].
    unfold parent_path. change (EmptyString +:+ name) with name.
    rewrite <- (app_nil_r (rev (chars name))).
    rewrite drop_while_all by now apply not_separator_all.
    simpl. now rewrite Hrel.
  - split;
      [|replace (dir +:+ "/" +:+ name) with ((dir +:+ "/") +:+ name)
          by (apply chars_inj; rewrite !chars_app; now rewrite <- List.app_assoc);
        apply Htail].
    unfold parent_path.
    replace (chars (dir +:+ "/" +:+ name))
      with (chars dir ++ separator :: chars name)
      by (rewrite !chars_app; reflexivity).
    rewrite rev_app_distr.
    change (rev (separator :: chars name)) with (rev (chars name) ++ [separator]).
    rewrite <- List.app_assoc.
    change ([separator] ++ rev (chars dir)) with (separator :: rev (chars dir)).
    rewrite drop_while_all by now apply not_separator_all.
    change (drop_while (fun c => negb (is_separator c)) (separator :: rev (chars dir)))
      with (separator :: rev (chars dir)).
    change (drop_while is_separator (separator :: rev (chars dir)))
      with (drop_while is_separator (rev (chars dir))).
    unfold has_trailing_separator in Hdir.
    destruct (rev (chars dir)) as [|c r] eqn:E.
    + exfalso. apply String.eqb_neq in Ed. apply Ed. apply chars_nil.
      rewrite <- (rev_involutive (chars dir)), E. reflexivity.
    + assert (Hkeep : drop_while is_separator (c :: r) = c :: r)
        by (simpl; unfold is_separator; now rewrite Hdir).
      rewrite Hkeep, <- E, rev_involutive.
      apply string_of_list_ascii_of_string.
Qed.

(** X5. For an executable at [contents/macos/exe] (the layout of an
    application bundle), where no component holds a separator and
    [contents] does not end with one, the bundle location tested first by
    [getDataPath] is [contents/Resources/data]: two levels up from the
    executable, then down. *)
Theorem bundle_resources_beside_executable (contents macos exe : string) :
  has_trailing_separator contents = false ->
  macos <> EmptyString -> ~ In separator (chars macos) ->
  exe <> EmptyString -> ~ In separator (chars exe) ->
  bundle_resources (path_append (path_append contents macos) exe)
  = path_append (path_append contents "Resources") "data".
Proof.
  intros Hc Hm Hms He Hes. unfold bundle_resources.
  destruct (parent_path_append contents macos Hc Hm Hms) as [Hp1 Ht1].
  destruct (parent_path_append (path_append contents macos) exe Ht1 He Hes)
    as [Hp2 _].
  now rewrite Hp2, Hp1.
Qed.

Lemma bundle_resources_beside_executable_witness :
  bundle_resources
    (path_append (path_append "/Applications/App.app/Contents" "MacOS") "app")
  = path_append (path_append "/Applications/App.app/Contents" "Resources") "data".
Proof.
  apply bundle_resources_beside_executable.
  - reflexivity.
  - discriminate.
  - vm_compute. intuition discriminate.
  - discriminate.
  - vm_compute. intuition discriminate.
Defined.

Lemma path_append_ends_in (p q : string) : ends_in (path_append p q) q.
Proof.
  destruct (path_append_front p q) as [front [-> _]]. now exists front.
Qed.

(** X6. Whatever the environment, the path [getDataPath] returns ends in
    [data]; it is never the empty path. *)
Theorem getDataPath_ends_in_data (env : environment) :
  (exists front, getDataPath env = front +:+ "data") /\
  getDataPath env <> EmptyString.
Proof.
  assert (H : ends_in (getDataPath env) "data").
  { unfold getDataPath, bundle_first.
    assert (Hcwd : ends_in (path_append (current_path env) "data") "data")
      by apply path_append_ends_in.
    assert (Hsys : forall path,
               first_system_path (files env) systemPaths = Some path ->
               ends_in path "data").
    { intros path. unfold systemPaths. simpl.
      repeat match goal with
             | |- context [if ?b then _ else _] => destruct b
             end; intros Heq; try discriminate; injection Heq as <-.
      - now exists "/usr/local/share/cmake_imgui_app_macos/".
      - now exists "/opt/local/share/cmake_imgui_app_macos/".
      - now exists "/usr/share/cmake_imgui_app_macos/". }
    destruct (os env) as [[execPath|]|].
    - destruct (is_existing_directory (files env) (bundle_resources execPath)).
      + apply path_append_ends_in.
      + destruct (is_existing_directory (files env)
                    (path_append (current_path env) "data")); [assumption|].
        destruct (first_system_path (files env) systemPaths) eqn:E; auto.
    - destruct (is_existing_directory (files env)
                  (path_append (current_path env) "data")); [assumption|].
      destruct (first_system_path (files env) systemPaths) eqn:E; auto.
    - destruct (is_existing_directory (files env)
                  (path_append (current_path env) "data")); [assumption|].
      destruct (first_system_path (files env) systemPaths) eqn:E; auto. }
  split; [exact H|].
  destruct H as [front Hf]. intros Hempty. rewrite Hempty in Hf.
  apply (f_equal chars) in Hf. rewrite chars_app in Hf. simpl in Hf.
  symmetry in Hf. apply app_eq_nil in Hf. destruct Hf as [_ Hf]. discriminate.
Qed.

(** X7. [getDataPath] returns an existing directory exactly when some
    candidate of the fallback order is one; otherwise what it returns does
    not exist as a directory. *)
Theorem getDataPath_exists_iff (env : environment) :
  is_existing_directory (files env) (getDataPath env) = true <->
  exists path, In path (fallback_order env) /\
               is_existing_directory (files env) path = true.
Proof.
  rewrite getDataPath_resolve. unfold resolve.
  destruct (find_first (is_existing_directory (files env)) (fallback_order env))
    as [(i & p & Hi & Hp & _ & Hfind) | [Hnone Hfind]]; rewrite Hfind.
  - split; [|intros _; exact Hp].
    intros _. exists p. split; [|exact Hp].
    apply list_elem_of_In. now apply list_elem_of_lookup_2 in Hi.
  - split.
    + intros H. exfalso.
      assert (Hin : In (path_append (current_path env) "data") (fallback_order env)).
      { unfold fallback_order. apply in_or_app. right. now left. }
      rewrite (Hnone _ Hin) in H. discriminate.
    + intros [path [Hin Hp]]. rewrite (Hnone _ Hin) in Hp. discriminate.
Qed.

(** ** What one render call appends to the trace *)

Lemma events_since_app (m m' : machine) (evs : list event) :
  trace m' = trace m ++ evs -> events_since m m' = evs.
Proof. intros H. unfold events_since. rewrite H. apply drop_app_length. Qed.

Lemma rebind_trace (w : world) (directory : string) (m : machine) :
  (last_directory (statics m) = directory /\ rebind w directory m = m) \/
  (last_directory (statics m) <> directory /\
   trace (rebind w directory m) = trace m ++ [Scanned directory]).
Proof.
  unfold rebind.
  destruct (String.eqb (last_directory (statics m)) directory) eqn:E; simpl.
  - left. split; [now apply String.eqb_eq | reflexivity].
  - right. split; [now apply String.eqb_neq | reflexivity].
Qed.

Lemma load_current_trace (w : world) (m : machine) :
  match load_current w m with
  | LoadContinue m' =>
      (m' = m /\ (texture (statics m) <> 0 \/ image_files (statics m) = [])) \/
      (texture (statics m) = 0 /\ texture (statics m') <> 0 /\
       exists path data,
         trace m' = trace m ++
           [ Decoded path true; GenTextures (texture (statics m'));
             TexImage2D (texture (statics m')) (pixel_width data) (pixel_height data) ])
  | LoadReturn m' =>
      exists path,
        trace m' = trace m ++
          [ Decoded path false; Cerr ("Failed to load image: " +:+ path) ]
  | LoadUndefined => True
  end.
Proof.
  unfold load_current.
  destruct (texture (statics m) =? 0) eqn:Et; simpl;
    [|left; split; [reflexivity | left; now apply Z.eqb_neq]].
  destruct (empty (image_files (statics m))) eqn:Ee; simpl;
    [left; split; [reflexivity | right; now apply empty_nil]|].
  destruct (image_files (statics m) !! Z.to_nat (current_image_index (statics m)))
    as [path|]; [|exact I].
  destruct (stbi_load w path) as [data|].
  - right. simpl. split; [now apply Z.eqb_eq|].
    split; [apply glGenTextures_fresh|]. now exists path, data.
  - now exists path.
Qed.

Lemma activate_trace (m : machine) (p : press) :
  exists released,
    trace (activate m p) = trace m ++ released /\
    (released = [] \/ released = [DeleteTextures (texture (statics m))]).
Proof.
  destruct p; simpl; unfold on_prev, on_next.
  - destruct (0 <? current_image_index (statics m)).
    + eexists. split; [reflexivity | now right].
    + exists []. split; [now rewrite app_nil_r | now left].
  - destruct (size_t_wrap (current_image_index (statics m) + 1)
              <? size (image_files (statics m))).
    + eexists. split; [reflexivity | now right].
    + exists []. split; [now rewrite app_nil_r | now left].
Qed.

Lemma draw_trace (title : string) (width height : Z) (inp : frame_input)
  (m m' : machine) :
  draw title width height inp m = Finished m' ->
  exists released_by_prev released_by_next caption,
    trace m' = trace m ++
      panel_events title (child_size width height (content_region_avail inp))
        (texture (statics m)) (fixed_width (statics m))
        released_by_prev released_by_next caption /\
    release_events released_by_prev /\ release_events released_by_next /\
    (caption = [] \/ exists current, caption = [ImGui (Text ("Current media: " +:+ current))]).
Proof.
  unfold draw.
  set (size := child_size width height (content_region_avail inp)).
  set (m1 := draw_image title size m).
  set (m2 := if prev_clicked inp then on_prev m1 else m1).
  set (m3 := emit [ImGui SameLine; ImGui (Button "->")] m2).
  set (m4 := if next_clicked inp then on_next m3 else m3).
  assert (H2 : exists d1, trace m2 = trace m1 ++ d1 /\ release_events d1).
  { subst m2. destruct (prev_clicked inp).
    - destruct (activate_trace m1 Prev) as (d & Hd & [Hn | Hn]); exists d.
      + split; [exact Hd | now left].
      + split; [exact Hd | right; eauto].
    - exists []. split; [now rewrite app_nil_r | now left]. }
  assert (H4 : exists d2, trace m4 = trace m3 ++ d2 /\ release_events d2).
  { subst m4. destruct (next_clicked inp).
    - destruct (activate_trace m3 Next) as (d & Hd & [Hn | Hn]); exists d.
      + split; [exact Hd | now left].
      + split; [exact Hd | right; eauto].
    - exists []. split; [now rewrite app_nil_r | now left]. }
  destruct H2 as (d1 & Hd1 & Hq1). destruct H4 as (d2 & Hd2 & Hq2).
  intros Hcap. unfold draw_caption in Hcap. simpl in Hcap.
  assert (Hshape : forall cap,
             trace m4 ++ [ImGui (PopStyleColor 3); ImGui (SetCursorPosY_plus 10);
                          ImGui (Text title)] ++ cap ++ [ImGui EndChild]
             = trace m ++ panel_events title size (texture (statics m))
                            (fixed_width (statics m)) d1 d2 cap).
  { intros cap. rewrite Hd2. unfold m3. simpl. rewrite Hd1. unfold m1. simpl.
    unfold panel_events. rewrite <- !List.app_assoc. reflexivity. }
  destruct (negb (empty (image_files (statics m4)))).
  - destruct (image_files (statics m4) !! Z.to_nat (current_image_index (statics m4)))
      as [current|]; [|discriminate].
    injection Hcap as <-.
    exists d1, d2, [ImGui (Text ("Current media: " +:+ current))].
    split; [|split; [exact Hq1 | split; [exact Hq2 | right; now exists current]]].
    simpl. rewrite <- (Hshape [ImGui (Text ("Current media: " +:+ current))]).
    rewrite <- !List.app_assoc. reflexivity.
  - injection Hcap as <-. exists d1, d2, [].
    split; [|split; [exact Hq1 | split; [exact Hq2 | now left]]].
    simpl. rewrite <- (Hshape []). rewrite <- !List.app_assoc. reflexivity.
Qed.

(** The events of a call that returns: an optional scan, then either a
    failed decode and nothing else, or an optional successful load followed
    by the whole panel. *)
Lemma call_trace (w : world) (title directory : string) (width height : Z)
  (inp : frame_input) (m m' : machine) :
  ShowImageSubwindow w title directory width height inp m = Finished m' ->
  exists scanned loaded panel,
    events_since m m' = scanned ++ loaded ++ panel /\
    ((scanned = [] /\ last_directory (statics m) = directory) \/
     (scanned = [Scanned directory] /\ last_directory (statics m) <> directory)) /\
    (((loaded = [] \/
       exists path data name,
         name <> 0 /\
         loaded = [ Decoded path true; GenTextures name;
                    TexImage2D name (pixel_width data) (pixel_height data) ]) /\
      exists shown thumb released_by_prev released_by_next caption,
        panel = panel_events title
                  (child_size width height (content_region_avail inp))
                  shown thumb released_by_prev released_by_next caption /\
        release_events released_by_prev /\ release_events released_by_next /\
        (caption = [] \/
         exists current, caption = [ImGui (Text ("Current media: " +:+ current))]) /\
        (image_files (statics (rebind w directory m)) <> [] -> shown <> 0))
     \/
     ((exists path,
          loaded = [ Decoded path false; Cerr ("Failed to load image: " +:+ path) ]) /\
      panel = [])).
Proof.
  unfold ShowImageSubwindow. intros Hcall.
  set (m1 := rebind w directory m) in *.
  assert (Hscan : exists scanned,
             trace m1 = trace m ++ scanned /\
             ((scanned = [] /\ last_directory (statics m) = directory) \/
              (scanned = [Scanned directory] /\
               last_directory (statics m) <> directory))).
  { destruct (rebind_trace w directory m) as [[Hd Hm] | [Hd Ht]].
    - exists []. fold m1 in Hm. rewrite Hm, app_nil_r. auto.
    - exists [Scanned directory]. auto. }
  destruct Hscan as (scanned & Hs & Hscanned).
  exists scanned.
  pose proof (load_current_trace w m1) as Hload.
  destruct (load_current w m1) as [m2|m2|]; [| |discriminate].
  - destruct (draw_trace title width height inp m2 m' Hcall)
      as (d1 & d2 & cap & Htr & Hq1 & Hq2 & Hcap).
    destruct Hload as [[-> Hheld] | (Ht0 & Htex & path & data & Hl)].
    + exists [], (panel_events title
                    (child_size width height (content_region_avail inp))
                    (texture (statics m1)) (fixed_width (statics m1)) d1 d2 cap).
      split; [apply events_since_app; rewrite Htr, Hs;
              now rewrite <- List.app_assoc|].
      split; [exact Hscanned|]. left. split; [now left|].
      do 5 eexists. split; [reflexivity|]. split; [exact Hq1|].
      split; [exact Hq2|]. split; [exact Hcap|].
      intros Hne. destruct Hheld as [H | H]; [exact H | contradiction].
    + exists [ Decoded path true; GenTextures (texture (statics m2));
               TexImage2D (texture (statics m2)) (pixel_width data)
                 (pixel_height data) ],
             (panel_events title
                (child_size width height (content_region_avail inp))
                (texture (statics m2)) (fixed_width (statics m2)) d1 d2 cap).
      split; [apply events_since_app; rewrite Htr, Hl, Hs;
              rewrite <- !List.app_assoc; reflexivity|].
      split; [exact Hscanned|]. left. split.
      * right. exists path, data, (texture (statics m2)). auto.
      * do 5 eexists. split; [reflexivity|]. split; [exact Hq1|].
        split; [exact Hq2|]. split; [exact Hcap|]. intros _. exact Htex.
  - injection Hcall as <-. destruct Hload as [path Hl].
    exists [ Decoded path false; Cerr ("Failed to load image: " +:+ path) ], [].
    split; [apply events_since_app; rewrite Hl, Hs;
            rewrite <- !List.app_assoc; reflexivity|].
    split; [exact Hscanned|]. right. split; [now exists path | reflexivity].
Qed.

(** ** Where the title goes *)

Lemma activate_pair (p : press) (x y : machine) :
  same_state x y ->
  exists released,
    trace (activate x p) = trace x ++ released /\
    trace (activate y p) = trace y ++ released /\
    release_events released /\
    same_state (activate x p) (activate y p).
Proof.
  intros Hs. pose proof (same_state_activate p x y Hs) as Hafter.
  destruct Hs as [Hst Hgl].
  destruct p; simpl in *; unfold on_prev, on_next in *; rewrite Hst in *.
  - destruct (0 <? current_image_index (statics y)).
    + exists [DeleteTextures (texture (statics y))]. simpl. rewrite Hst.
      repeat split; try exact (proj1 Hafter); try exact (proj2 Hafter).
      right. eauto.
    + exists []. rewrite !app_nil_r. repeat split; auto. now left.
  - destruct (size_t_wrap (current_image_index (statics y) + 1)
              <? size (image_files (statics y))).
    + exists [DeleteTextures (texture (statics y))]. simpl. rewrite Hst.
      repeat split; try exact (proj1 Hafter); try exact (proj2 Hafter).
      right. eauto.
    + exists []. rewrite !app_nil_r. repeat split; auto. now left.
Qed.

Lemma draw_trace_pair (A B : string) (width height : Z) (inp : frame_input)
  (m mA mB : machine) :
  draw A width height inp m = Finished mA ->
  draw B width height inp m = Finished mB ->
  exists released_by_prev released_by_next caption,
    trace mA = trace m ++
      panel_events A (child_size width height (content_region_avail inp))
        (texture (statics m)) (fixed_width (statics m))
        released_by_prev released_by_next caption /\
    trace mB = trace m ++
      panel_events B (child_size width height (content_region_avail inp))
        (texture (statics m)) (fixed_width (statics m))
        released_by_prev released_by_next caption /\
    release_events released_by_prev /\ release_events released_by_next /\
    (caption = [] \/
     exists current, caption = [ImGui (Text ("Current media: " +:+ current))]).
Proof.
  unfold draw.
  set (size := child_size width height (content_region_avail inp)).
  set (a1 := draw_image A size m). set (b1 := draw_image B size m).
  assert (H1 : same_state a1 b1) by (split; reflexivity).
  set (a2 := if prev_clicked inp then on_prev a1 else a1).
  set (b2 := if prev_clicked inp then on_prev b1 else b1).
  assert (H2 : exists d1, trace a2 = trace a1 ++ d1 /\ trace b2 = trace b1 ++ d1 /\
                          release_events d1 /\ same_state a2 b2).
  { subst a2 b2. destruct (prev_clicked inp).
    - exact (activate_pair Prev a1 b1 H1).
    - exists []. rewrite !app_nil_r. repeat split; try apply H1. now left. }
  destruct H2 as (d1 & Ha2 & Hb2 & Hr1 & Hs2).
  set (a3 := emit [ImGui SameLine; ImGui (Button "->")] a2).
  set (b3 := emit [ImGui SameLine; ImGui (Button "->")] b2).
  assert (H3 : same_state a3 b3) by exact Hs2.
  set (a4 := if next_clicked inp then on_next a3 else a3).
  set (b4 := if next_clicked inp then on_next b3 else b3).
  assert (H4 : exists d2, trace a4 = trace a3 ++ d2 /\ trace b4 = trace b3 ++ d2 /\
                          release_events d2 /\ same_state a4 b4).
  { subst a4 b4. destruct (next_clicked inp).
    - exact (activate_pair Next a3 b3 H3).
    - exists []. rewrite !app_nil_r. repeat split; try apply H3. now left. }
  destruct H4 as (d2 & Ha4 & Hb4 & Hr2 & [Hst4 _]).
  assert (HshapeA : forall cap,
             trace a4 ++ [ImGui (PopStyleColor 3); ImGui (SetCursorPosY_plus 10);
                          ImGui (Text A)] ++ cap ++ [ImGui EndChild]
             = trace m ++ panel_events A size (texture (statics m))
                            (fixed_width (statics m)) d1 d2 cap).
  { intros cap. rewrite Ha4. unfold a3. simpl. rewrite Ha2. unfold a1. simpl.
    unfold panel_events. rewrite <- !List.app_assoc. reflexivity. }
  assert (HshapeB : forall cap,
             trace b4 ++ [ImGui (PopStyleColor 3); ImGui (SetCursorPosY_plus 10);
                          ImGui (Text B)] ++ cap ++ [ImGui EndChild]
             = trace m ++ panel_events B size (texture (statics m))
                            (fixed_width (statics m)) d1 d2 cap).
  { intros cap. rewrite Hb4. unfold b3. simpl. rewrite Hb2. unfold b1. simpl.
    unfold panel_events. rewrite <- !List.app_assoc. reflexivity. }
  unfold draw_caption. simpl. rewrite Hst4.
  destruct (negb (empty (image_files (statics b4)))).
  - destruct (image_files (statics b4) !! Z.to_nat (current_image_index (statics b4)))
      as [current|]; [|discriminate].
    intros HA HB. injection HA as <-. injection HB as <-.
    exists d1, d2, [ImGui (Text ("Current media: " +:+ current))].
    split; [|split; [|split; [exact Hr1 | split; [exact Hr2 | right; now exists current]]]].
    + simpl. rewrite <- (HshapeA [ImGui (Text ("Current media: " +:+ current))]).
      rewrite <- !List.app_assoc. reflexivity.
    + simpl. rewrite <- (HshapeB [ImGui (Text ("Current media: " +:+ current))]).
      rewrite <- !List.app_assoc. reflexivity.
  - intros HA HB. injection HA as <-. injection HB as <-.
    exists d1, d2, [].
    split; [|split; [|split; [exact Hr1 | split; [exact Hr2 | now left]]]].
    + simpl. rewrite <- (HshapeA []). rewrite <- !List.app_assoc. reflexivity.
    + simpl. rewrite <- (HshapeB []). rewrite <- !List.app_assoc. reflexivity.
Qed.

(** What the directory check and the loading block append is no ImGui
    call. *)
Lemma load_phase_quiet (w : world) (directory : string) (m m2 : machine) :
  load_current w (rebind w directory m) = LoadContinue m2 \/
  load_current w (rebind w directory m) = LoadReturn m2 ->
  exists quiet, trace m2 = trace m ++ quiet /\
                Forall (fun e => is_imgui e = false) quiet.
Proof.
  intros Hload.
  assert (Hscan : exists scanned,
             trace (rebind w directory m) = trace m ++ scanned /\
             Forall (fun e => is_imgui e = false) scanned).
  { destruct (rebind_trace w directory m) as [[_ Hm] | [_ Ht]].
    - exists []. rewrite Hm, app_nil_r. split; [reflexivity | constructor].
    - exists [Scanned directory]. split; [exact Ht | repeat constructor]. }
  destruct Hscan as (scanned & Hs & Hqs).
  pose proof (load_current_trace w (rebind w directory m)) as Ht.
  destruct Hload as [E | E]; rewrite E in Ht.
  - destruct Ht as [[-> _] | (_ & _ & path & data & Hl)].
    + exists scanned. split; assumption.
    + exists (scanned ++ [ Decoded path true; GenTextures (texture (statics m2));
                           TexImage2D (texture (statics m2)) (pixel_width data)
                             (pixel_height data) ]).
      split; [rewrite Hl, Hs; now rewrite <- List.app_assoc|].
      apply Forall_app. split; [exact Hqs | repeat constructor].
  - destruct Ht as [path Hl].
    exists (scanned ++ [ Decoded path false; Cerr ("Failed to load image: " +:+ path) ]).
    split; [rewrite Hl, Hs; now rewrite <- List.app_assoc|].
    apply Forall_app. split; [exact Hqs | repeat constructor].
Qed.

(** C7, amended. There is one persistent state for the whole process,
    whatever the title: the call under title [A] and the call under title
    [B] read the same statics and GL textures and leave the same statics
    and GL textures. The title only goes into the ImGui calls: the two
    calls append the same scan, decode, GL and [std::cerr] events, and then
    either nothing, or the same panel in which the title stands at the two
    places where [panel_events] has it, the identifier of the child window
    and the caption. *)
Theorem state_shared_by_titles (w : world) (A B directory : string)
  (width height : Z) (inp : frame_input) (m : machine) :
  same_outcome (ShowImageSubwindow w A directory width height inp m)
               (ShowImageSubwindow w B directory width height inp m) /\
  (forall mA mB,
      ShowImageSubwindow w A directory width height inp m = Finished mA ->
      ShowImageSubwindow w B directory width height inp m = Finished mB ->
      exists quiet,
        Forall (fun e => is_imgui e = false) quiet /\
        ((events_since m mA = quiet /\ events_since m mB = quiet) \/
         exists shown thumb released_by_prev released_by_next caption,
           events_since m mA
           = quiet ++ panel_events A
                        (child_size width height (content_region_avail inp))
                        shown thumb released_by_prev released_by_next caption /\
           events_since m mB
           = quiet ++ panel_events B
                        (child_size width height (content_region_avail inp))
                        shown thumb released_by_prev released_by_next caption /\
           release_events released_by_prev /\ release_events released_by_next /\
           (caption = [] \/
            exists current,
              caption = [ImGui (Text ("Current media: " +:+ current))]))).
Proof.
  unfold ShowImageSubwindow.
  destruct (load_current w (rebind w directory m)) as [m2|m2|] eqn:E.
  - split; [apply draw_state_title|].
    intros mA mB HA HB.
    destruct (load_phase_quiet w directory m m2 (or_introl E)) as (quiet & Hq & Hquiet).
    destruct (draw_trace_pair A B width height inp m2 mA mB HA HB)
      as (d1 & d2 & cap & HtA & HtB & Hr1 & Hr2 & Hcap).
    exists quiet. split; [exact Hquiet|]. right.
    exists (texture (statics m2)), (fixed_width (statics m2)), d1, d2, cap.
    split; [apply events_since_app; rewrite HtA, Hq; now rewrite <- List.app_assoc|].
    split; [apply events_since_app; rewrite HtB, Hq; now rewrite <- List.app_assoc|].
    auto.
  - split; [split; reflexivity|].
    intros mA mB HA HB. injection HA as <-. injection HB as <-.
    destruct (load_phase_quiet w directory m m2 (or_intror E)) as (quiet & Hq & Hquiet).
    exists quiet. split; [exact Hquiet|]. left.
    split; now apply events_since_app.
  - split; [exact I | discriminate].
Qed.

Lemma state_shared_by_titles_witness :
  exists mA mB quiet,
    ShowImageSubwindow sample_world "left" "album" (-1) 250 click_next initial_machine
      = Finished mA /\
    ShowImageSubwindow sample_world "right" "album" (-1) 250 click_next initial_machine
      = Finished mB /\
    same_state mA mB /\
    Forall (fun e => is_imgui e = false) quiet /\
    exists shown thumb released_by_prev released_by_next caption,
      events_since initial_machine mA
      = quiet ++ panel_events "left" (child_size (-1) 250 region)
                   shown thumb released_by_prev released_by_next caption /\
      events_since initial_machine mB
      = quiet ++ panel_events "right" (child_size (-1) 250 region)
                   shown thumb released_by_prev released_by_next caption.
Proof.
  destruct (state_shared_by_titles sample_world "left" "right" "album" (-1) 250
              click_next initial_machine) as [Hsame Htrace].
  destruct (ShowImageSubwindow sample_world "left" "album" (-1) 250 click_next
              initial_machine) as [mA|] eqn:EA; [|vm_compute in EA; discriminate EA].
  destruct (ShowImageSubwindow sample_world "right" "album" (-1) 250 click_next
              initial_machine) as [mB|] eqn:EB; [|vm_compute in EB; discriminate EB].
  destruct (Htrace mA mB eq_refl eq_refl) as (quiet & Hquiet & [[HqA _] | Hpanel]).
  - exfalso. vm_compute in EA. injection EA as <-.
    rewrite <- HqA in Hquiet. vm_compute in Hquiet.
    repeat match goal with
           | H : Forall _ (_ :: _) |- _ => apply Forall_cons in H; destruct H as [? H]
           end; discriminate.
  - destruct Hpanel as (shown & thumb & d1 & d2 & cap & HA & HB & _).
    exists mA, mB, quiet. split; [reflexivity|]. split; [reflexivity|].
    split; [exact Hsame|]. split; [exact Hquiet|].
    exists shown, thumb, d1, d2, cap. split; assumption.
Defined.

(** X8. A render call that returns draws all of the panel or none of it:
    after the scan and load events, which are no ImGui calls, the trace
    holds either nothing more (the load failed) or exactly [BeginChild],
    [Image], [AddRect], three [PushStyleColor], the two buttons,
    [PopStyleColor 3], the title, at most one "Current media" line and
    [EndChild], in this order. *)
Theorem call_draws_all_or_nothing (w : world) (title directory : string)
  (width height : Z) (inp : frame_input) (m m' : machine) :
  ShowImageSubwindow w title directory width height inp m = Finished m' ->
  exists quiet panel,
    events_since m m' = quiet ++ panel /\
    Forall (fun e => is_imgui e = false) quiet /\
    (panel = [] \/
     exists shown thumb released_by_prev released_by_next caption,
       panel = panel_events title
                 (child_size width height (content_region_avail inp))
                 shown thumb released_by_prev released_by_next caption /\
       Forall (fun e => is_imgui e = false) (released_by_prev ++ released_by_next) /\
       (caption = [] \/
        exists current, caption = [ImGui (Text ("Current media: " +:+ current))])).
Proof.
  intros Hcall.
  destruct (call_trace w title directory width height inp m m' Hcall)
    as (scanned & loaded & panel & Hev & Hscanned & Hrest).
  exists (scanned ++ loaded), panel.
  split; [now rewrite <- List.app_assoc|].
  assert (Hqs : Forall (fun e => is_imgui e = false) scanned).
  { destruct Hscanned as [[-> _] | [-> _]]; repeat constructor. }
  destruct Hrest as [[Hl (shown & thumb & d1 & d2 & cap & Hp & Hq1 & Hq2 & Hcap & _)]
                    | [[path Hl] Hp]].
  - split.
    + apply Forall_app. split; [exact Hqs|].
      destruct Hl as [-> | (path & data & name & _ & ->)]; repeat constructor.
    + right. exists shown, thumb, d1, d2, cap.
      split; [exact Hp|]. split; [|exact Hcap].
      apply Forall_app. split.
      * destruct Hq1 as [-> | [n ->]]; repeat constructor.
      * destruct Hq2 as [-> | [n ->]]; repeat constructor.
  - split; [|now left].
    apply Forall_app. split; [exact Hqs|]. subst loaded. repeat constructor.
Qed.

Lemma call_draws_all_or_nothing_witness :
  exists quiet panel,
    events_since initial_machine
      {| statics := {| image_files := ["damaged/torn.png"];
                       last_directory := "damaged";
                       current_image_index := 0; texture := 0;
                       img_width := 0; img_height := 0 |};
         gl_textures := ∅;
         trace := [ Scanned "damaged"; Decoded "damaged/torn.png" false;
                    Cerr "Failed to load image: damaged/torn.png" ] |}
    = quiet ++ panel /\
    Forall (fun e => is_imgui e = false) quiet.
Proof.
  destruct (call_draws_all_or_nothing sample_world "t" "damaged" (-1) 250 idle
              initial_machine
              {| statics := {| image_files := ["damaged/torn.png"];
                               last_directory := "damaged";
                               current_image_index := 0; texture := 0;
                               img_width := 0; img_height := 0 |};
                 gl_textures := ∅;
                 trace := [ Scanned "damaged"; Decoded "damaged/torn.png" false;
                            Cerr "Failed to load image: damaged/torn.png" ] |})
    as (quiet & panel & H & Hq & _).
  - vm_compute. reflexivity.
  - exists quiet, panel. split; assumption.
Defined.

(** ** The ImGui stacks *)

Lemma nesting_none (evs : list event) : fold_left nest_step evs None = None.
Proof. induction evs; simpl; auto. Qed.

Lemma nesting_app (a b : list event) (windows : list nat) :
  nesting (a ++ b) windows
  = match nesting a windows with
    | Some windows' => nesting b windows'
    | None => None
    end.
Proof.
  unfold nesting. rewrite fold_left_app.
  destruct (fold_left nest_step a (Some windows)); [reflexivity|].
  apply nesting_none.
Qed.

Lemma nesting_app_some (a b : list event) (windows windows' : list nat) :
  nesting a windows = Some windows' ->
  nesting (a ++ b) windows = nesting b windows'.
Proof. intros H. now rewrite nesting_app, H. Qed.

Lemma nesting_quiet (evs : list event) (windows : list nat) :
  Forall (fun e => is_imgui e = false) evs -> nesting evs windows = Some windows.
Proof.
  induction 1 as [|e evs He _ IH]; [reflexivity|].
  unfold nesting in *. simpl. destruct e; try discriminate; exact IH.
Qed.

Lemma release_events_quiet (evs : list event) :
  release_events evs -> Forall (fun e => is_imgui e = false) evs.
Proof. intros [-> | [n ->]]; repeat constructor. Qed.

Lemma nesting_panel (title : string) (size : ImVec2) (shown : Z)
  (thumb : spec_float) (d1 d2 cap : list event) (outer : nat) (rest : list nat) :
  release_events d1 -> release_events d2 ->
  (cap = [] \/ exists current, cap = [ImGui (Text ("Current media: " +:+ current))]) ->
  nesting (panel_events title size shown thumb d1 d2 cap) (outer :: rest)
  = Some (outer :: rest).
Proof.
  intros H1 H2 Hcap. unfold panel_events.
  rewrite (nesting_app_some _ _ _ (3%nat :: outer :: rest)) by reflexivity.
  rewrite (nesting_app_some d1 _ _ (3%nat :: outer :: rest))
    by now apply nesting_quiet, release_events_quiet.
  rewrite (nesting_app_some _ _ _ (3%nat :: outer :: rest)) by reflexivity.
  rewrite (nesting_app_some d2 _ _ (3%nat :: outer :: rest))
    by now apply nesting_quiet, release_events_quiet.
  rewrite (nesting_app_some _ _ _ (0%nat :: outer :: rest)) by reflexivity.
  destruct Hcap as [-> | [current ->]]; reflexivity.
Qed.

(** X9. In every render call that returns, the ImGui calls are properly
    nested: every [PopStyleColor] finds that many colours pushed in the
    current window, every [EndChild] closes a child begun in this call
    with all its colours popped, and at the end the window stack and the
    colour stack are as the caller left them. This holds as well when the
    load fails, because the call then returns before [BeginChild]. *)
Theorem call_nesting_balanced (w : world) (title directory : string)
  (width height : Z) (inp : frame_input) (m m' : machine)
  (outer : nat) (rest : list nat) :
  ShowImageSubwindow w title directory width height inp m = Finished m' ->
  nesting (events_since m m') (outer :: rest) = Some (outer :: rest).
Proof.
  intros Hcall.
  destruct (call_trace w title directory width height inp m m' Hcall)
    as (scanned & loaded & panel & -> & Hscanned & Hrest).
  rewrite nesting_app, nesting_quiet
    by (destruct Hscanned as [[-> _] | [-> _]]; repeat constructor).
  rewrite nesting_app.
  destruct Hrest as [[Hl (shown & thumb & d1 & d2 & cap & -> & Hq1 & Hq2 & Hcap & _)]
                    | [[path ->] ->]].
  - rewrite nesting_quiet
      by (destruct Hl as [-> | (path & data & name & _ & ->)]; repeat constructor).
    now apply nesting_panel.
  - reflexivity.
Qed.

Lemma call_nesting_balanced_witness :
  exists m',
    ShowImageSubwindow sample_world "t" "album" (-1) 250 click_next showing_first
      = Finished m' /\
    nesting (events_since showing_first m') [2%nat] = Some [2%nat].
Proof.
  eexists. split; [vm_compute; reflexivity|].
  apply (call_nesting_balanced sample_world "t" "album" (-1) 250 click_next).
  vm_compute. reflexivity.
Defined.

(** X10. A render call that returns scans the directory at most once, and
    it does so exactly when the directory argument differs from the stored
    one; it decodes at most one image file. *)
Theorem call_scans_and_decodes_once (w : world) (title directory : string)
  (width height : Z) (inp : frame_input) (m m' : machine) :
  ShowImageSubwindow w title directory width height inp m = Finished m' ->
  (length (List.filter is_scan (events_since m m')) <= 1)%nat /\
  (In (Scanned directory) (events_since m m') <->
   last_directory (statics m) <> directory) /\
  (length (List.filter is_decode (events_since m m')) <= 1)%nat.
Proof.
  intros Hcall.
  destruct (call_trace w title directory width height inp m m' Hcall)
    as (scanned & loaded & panel & -> & Hscanned & Hrest).
  assert (Hpanel : List.filter is_scan panel = [] /\ List.filter is_decode panel = [] /\
                   ~ In (Scanned directory) panel /\
                   (length (List.filter is_scan loaded) = 0)%nat /\
                   (length (List.filter is_decode loaded) <= 1)%nat /\
                   ~ In (Scanned directory) loaded).
  { destruct Hrest as [[Hl (shown & thumb & d1 & d2 & cap & -> & Hq1 & Hq2 & Hcap & _)]
                      | [[path ->] ->]].
    - assert (Hp : forall f : event -> bool,
                 (forall c, f (ImGui c) = false) -> (forall n, f (DeleteTextures n) = false) ->
                 List.filter f (panel_events title
                   (child_size width height (content_region_avail inp))
                   shown thumb d1 d2 cap) = []).
      { intros f Hf Hd. unfold panel_events. rewrite !List.filter_app. simpl.
        rewrite !Hf.
        destruct Hq1 as [-> | [n1 ->]], Hq2 as [-> | [n2 ->]],
                 Hcap as [-> | [current ->]]; simpl; rewrite ?Hf, ?Hd; reflexivity. }
      split; [now apply Hp|]. split; [now apply Hp|]. split.
      + intros Hin.
        assert (Hf : In (Scanned directory)
                       (List.filter is_scan (panel_events title
                          (child_size width height (content_region_avail inp))
                          shown thumb d1 d2 cap)))
          by (apply filter_In; split; [exact Hin | reflexivity]).
        rewrite Hp in Hf; [exact Hf | reflexivity | reflexivity].
      + destruct Hl as [-> | (path & data & name & _ & ->)]; simpl;
          repeat split; try lia; intuition discriminate.
    - simpl. repeat split; try lia; intuition discriminate. }
  destruct Hpanel as (Hps & Hpd & Hpin & Hls & Hld & Hlin).
  rewrite !List.filter_app, !length_app, Hps, Hpd. simpl length.
  destruct Hscanned as [[-> Hd] | [-> Hd]]; simpl.
  - split; [lia|]. split; [|lia].
    split; [|contradiction].
    intros Hin. apply in_app_or in Hin. destruct Hin; contradiction.
  - split; [lia|]. split; [|lia].
    split; [intros _; exact Hd | intros _; now left].
Qed.

Lemma call_scans_and_decodes_once_witness :
  exists m',
    ShowImageSubwindow sample_world "t" "other" (-1) 250 idle showing_last
      = Finished m' /\
    (length (List.filter is_scan (events_since showing_last m')) <= 1)%nat /\
    (In (Scanned "other") (events_since showing_last m') <->
     last_directory (statics showing_last) <> "other") /\
    (length (List.filter is_decode (events_since showing_last m')) <= 1)%nat.
Proof.
  eexists. split; [vm_compute; reflexivity|].
  apply (call_scans_and_decodes_once sample_world "t" "other" (-1) 250 idle).
  vm_compute. reflexivity.
Defined.

(** X11. When the list is not empty after the directory check, a call
    that draws never passes the null texture to [ImGui::Image]: it either
    holds a texture already, or has just loaded one, or has returned
    before drawing. *)
Theorem image_drawn_is_a_texture (w : world) (title directory : string)
  (width height : Z) (inp : frame_input) (m m' : machine) (shown : Z)
  (size : ImVec2) :
  ShowImageSubwindow w title directory width height inp m = Finished m' ->
  image_files (statics (rebind w directory m)) <> [] ->
  In (ImGui (Image shown size)) (events_since m m') ->
  shown <> 0.
Proof.
  intros Hcall Hne Hin.
  destruct (call_trace w title directory width height inp m m' Hcall)
    as (scanned & loaded & panel & Hev & Hscanned & Hrest).
  rewrite Hev in Hin.
  apply in_app_or in Hin. destruct Hin as [Hin | Hin].
  { destruct Hscanned as [[-> _] | [-> _]]; simpl in Hin; intuition discriminate. }
  apply in_app_or in Hin.
  destruct Hrest as [[Hl (tex & thumb & d1 & d2 & cap & -> & Hq1 & Hq2 & Hcap & Htex)]
                    | [[path ->] ->]].
  - destruct Hin as [Hin | Hin].
    { destruct Hl as [-> | (path & data & name & _ & ->)]; simpl in Hin;
        intuition discriminate. }
    unfold panel_events in Hin.
    repeat (apply in_app_or in Hin; destruct Hin as [Hin | Hin]).
    + simpl in Hin.
      destruct Hin as [H | [H | H]]; [discriminate | | intuition discriminate].
      injection H as <- _. now apply Htex.
    + destruct Hq1 as [-> | [n ->]]; simpl in Hin; intuition discriminate.
    + simpl in Hin. intuition discriminate.
    + destruct Hq2 as [-> | [n ->]]; simpl in Hin; intuition discriminate.
    + simpl in Hin. intuition discriminate.
    + destruct Hcap as [-> | [current ->]]; simpl in Hin; intuition discriminate.
    + simpl in Hin. intuition discriminate.
  - destruct Hin as [Hin | Hin]; simpl in Hin; intuition discriminate.
Qed.

Lemma image_drawn_is_a_texture_witness :
  exists m',
    ShowImageSubwindow sample_world "t" "album" (-1) 250 idle initial_machine
      = Finished m' /\
    In (ImGui (Image 1 {| vx := float_of_int 300; vy := float_of_int 150 |}))
       (events_since initial_machine m') /\
    1 <> 0.
Proof.
  eexists. split; [vm_compute; reflexivity|].
  split; [vm_compute; tauto|].
  eapply (image_drawn_is_a_texture sample_world "t" "album" (-1) 250 idle
            initial_machine).
  - vm_compute. reflexivity.
  - vm_compute. discriminate.
  - vm_compute. tauto.
Defined.

(** ** Invariants of arbitrary runs *)

Lemma tidy_released (index : Z) (m : machine) :
  tidy m -> tidy (release_and_move index m).
Proof.
  intros [[Ht Hg] | [Ht (data & Hg & _)]]; left; simpl; split; try reflexivity.
  - rewrite Hg. apply delete_empty.
  - rewrite Hg. apply delete_singleton_eq.
Qed.

Lemma tidy_activate (m : machine) (p : press) : tidy m -> tidy (activate m p).
Proof.
  intros H. destruct p; simpl; unfold on_prev, on_next.
  - destruct (0 <? current_image_index (statics m)); [now apply tidy_released | exact H].
  - destruct (size_t_wrap (current_image_index (statics m) + 1)
              <? size (image_files (statics m))); [now apply tidy_released | exact H].
Qed.

Lemma tidy_rebind (w : world) (directory : string) (m : machine) :
  tidy m -> tidy (rebind w directory m).
Proof.
  intros H. unfold rebind.
  now destruct (negb (String.eqb (last_directory (statics m)) directory)).
Qed.

Lemma tidy_load (w : world) (m m' : machine) :
  tidy m ->
  load_current w m = LoadContinue m' \/ load_current w m = LoadReturn m' ->
  tidy m'.
Proof.
  intros Ht. unfold load_current.
  destruct (texture (statics m) =? 0) eqn:E0; simpl;
    [|intros [H|H]; [injection H as <-; exact Ht | discriminate]].
  destruct (negb (empty (image_files (statics m))));
    [|intros [H|H]; [injection H as <-; exact Ht | discriminate]].
  destruct (image_files (statics m) !! Z.to_nat (current_image_index (statics m)))
    as [path|]; [|intros [H|H]; discriminate].
  apply Z.eqb_eq in E0.
  destruct (stbi_load w path) as [data|]; intros [H|H]; try discriminate;
    injection H as <-.
  - right. simpl. split; [apply glGenTextures_fresh|].
    exists data. split; [|split; reflexivity].
    destruct Ht as [[_ Hg] | [Hne _]]; [|contradiction].
    rewrite Hg. apply insert_empty.
  - exact Ht.
Qed.

Lemma tidy_draw (title : string) (width height : Z) (inp : frame_input)
  (m m' : machine) :
  tidy m -> draw title width height inp m = Finished m' -> tidy m'.
Proof.
  intros Ht. unfold draw.
  set (m1 := draw_image _ _ m).
  assert (H1 : tidy m1) by exact Ht.
  set (m2 := if prev_clicked inp then on_prev m1 else m1).
  assert (H2 : tidy m2)
    by (subst m2; destruct (prev_clicked inp);
        [exact (tidy_activate m1 Prev H1) | exact H1]).
  set (m3 := emit _ m2).
  assert (H3 : tidy m3) by exact H2.
  set (m4 := if next_clicked inp then on_next m3 else m3).
  assert (H4 : tidy m4)
    by (subst m4; destruct (next_clicked inp);
        [exact (tidy_activate m3 Next H3) | exact H3]).
  unfold draw_caption. simpl.
  destruct (negb (empty (image_files (statics m4)))).
  - destruct (image_files (statics m4) !! Z.to_nat (current_image_index (statics m4)));
      [|discriminate].
    intros H. injection H as <-. exact H4.
  - intros H. injection H as <-. exact H4.
Qed.

Lemma tidy_call (w : world) (title directory : string) (width height : Z)
  (inp : frame_input) (m m' : machine) :
  tidy m ->
  ShowImageSubwindow w title directory width height inp m = Finished m' ->
  tidy m'.
Proof.
  intros Ht. unfold ShowImageSubwindow.
  pose proof (tidy_rebind w directory m Ht) as H1.
  destruct (load_current w (rebind w directory m)) as [m2|m2|] eqn:E;
    [| |discriminate].
  - apply tidy_draw. exact (tidy_load w _ m2 H1 (or_introl E)).
  - intros H. injection H as <-. exact (tidy_load w _ m2 H1 (or_intror E)).
Qed.

Lemma tidy_run (w : world) (calls : list call) (m m' : machine) :
  tidy m -> run w calls m = Finished m' -> tidy m'.
Proof.
  revert m. induction calls as [|c calls IH]; intros m Ht; simpl.
  - intros H. injection H as <-. exact Ht.
  - destruct (ShowImageSubwindow w (call_title c) (call_directory c)
                (call_width c) (call_height c) (call_input c) m) as [m1|] eqn:E;
      [|discriminate].
    apply IH. exact (tidy_call w _ _ _ _ _ m m1 Ht E).
Qed.

(** X12. No texture leaks, whatever the calls: after any run of render
    calls from the initial state that returns (any directories, titles and
    clicks), either no texture is held and no texture object exists, or the
    held texture is the only texture object and [img_width], [img_height]
    are the dimensions of its image. Each [glGenTextures] happens with no
    object alive and each release deletes the only one. *)
Theorem run_keeps_single_texture (w : world) (calls : list call) (m : machine) :
  run w calls initial_machine = Finished m ->
  (texture (statics m) = 0 /\ gl_textures m = ∅) \/
  (texture (statics m) <> 0 /\
   exists data,
     gl_textures m = {[ texture (statics m) := data ]} /\
     img_width (statics m) = pixel_width data /\
     img_height (statics m) = pixel_height data).
Proof.
  apply tidy_run. left. split; reflexivity.
Qed.

Lemma run_keeps_single_texture_witness :
  exists m,
    run sample_world [show "album" click_next; show "other" idle; show "album" click_prev]
      initial_machine = Finished m /\
    tidy m.
Proof.
  eexists. split; [vm_compute; reflexivity|].
  apply (run_keeps_single_texture sample_world
           [show "album" click_next; show "other" idle; show "album" click_prev]).
  vm_compute. reflexivity.
Defined.

Lemma activate_frame (m : machine) (p : press) :
  image_files (statics (activate m p)) = image_files (statics m) /\
  last_directory (statics (activate m p)) = last_directory (statics m).
Proof.
  destruct p; simpl; unfold on_prev, on_next.
  - now destruct (0 <? current_image_index (statics m)).
  - now destruct (size_t_wrap (current_image_index (statics m) + 1)
                  <? size (image_files (statics m))).
Qed.

Lemma draw_frame (title : string) (width height : Z) (inp : frame_input)
  (m m' : machine) :
  draw title width height inp m = Finished m' ->
  image_files (statics m') = image_files (statics m) /\
  last_directory (statics m') = last_directory (statics m).
Proof.
  unfold draw.
  set (m1 := draw_image _ _ m).
  set (m2 := if prev_clicked inp then on_prev m1 else m1).
  assert (H2 : image_files (statics m2) = image_files (statics m) /\
               last_directory (statics m2) = last_directory (statics m))
    by (subst m2; destruct (prev_clicked inp);
        [exact (activate_frame m1 Prev) | split; reflexivity]).
  set (m3 := emit _ m2).
  set (m4 := if next_clicked inp then on_next m3 else m3).
  assert (H4 : image_files (statics m4) = image_files (statics m) /\
               last_directory (statics m4) = last_directory (statics m)).
  { subst m4. destruct (next_clicked inp); [|exact H2].
    destruct (activate_frame m3 Next) as [Ha Hb]. simpl in Ha, Hb.
    destruct H2 as [H2a H2b]. split; congruence. }
  unfold draw_caption. simpl.
  destruct (negb (empty (image_files (statics m4)))).
  - destruct (image_files (statics m4) !! Z.to_nat (current_image_index (statics m4)));
      [|discriminate].
    intros H. injection H as <-. exact H4.
  - intros H. injection H as <-. exact H4.
Qed.

Lemma call_frame (w : world) (title directory : string) (width height : Z)
  (inp : frame_input) (m m' : machine) :
  ShowImageSubwindow w title directory width height inp m = Finished m' ->
  image_files (statics m') = image_files (statics (rebind w directory m)) /\
  last_directory (statics m') = directory.
Proof.
  unfold ShowImageSubwindow. pose proof (rebind_directory w directory m) as Hd.
  destruct (load_current w (rebind w directory m)) as [m2|m2|] eqn:E;
    [| |discriminate].
  - destruct (load_current_frame w _ m2 (or_introl E)) as (Hf & Hl & _).
    intros H. apply draw_frame in H. destruct H as [Hf' Hl'].
    split; congruence.
  - destruct (load_current_frame w _ m2 (or_intror E)) as (Hf & Hl & _).
    intros H. injection H as <-. split; congruence.
Qed.

Lemma list_bound_call (w : world) (title directory : string) (width height : Z)
  (inp : frame_input) (m m' : machine) :
  list_bound w m ->
  ShowImageSubwindow w title directory width height inp m = Finished m' ->
  list_bound w m'.
Proof.
  intros Hb Hcall. unfold list_bound in *.
  destruct (call_frame w title directory width height inp m m' Hcall) as [Hf Hl].
  rewrite Hf, Hl. unfold rebind.
  destruct (String.eqb (last_directory (statics m)) directory) eqn:E; simpl.
  - apply String.eqb_eq in E. now rewrite <- E.
  - reflexivity.
Qed.

(** X13. The list of images is always the scan of the stored directory:
    after any run of render calls from the initial state that returns,
    [image_files] is [GetImageFiles(last_directory)] and [last_directory]
    is the directory argument of the last call. (The empty path, the
    directory stored at the start, is no directory.) *)
Theorem run_keeps_list_bound (w : world) (calls : list call) (m : machine) :
  fs_is_directory (disk w) EmptyString = false ->
  run w calls initial_machine = Finished m ->
  image_files (statics m) = GetImageFiles (disk w) (last_directory (statics m)) /\
  last_directory (statics m)
  = match last calls with
    | Some c => call_directory c
    | None => EmptyString
    end.
Proof.
  intros Hroot.
  assert (Hgen : forall calls m0 m1,
             list_bound w m0 -> run w calls m0 = Finished m1 ->
             list_bound w m1 /\
             last_directory (statics m1)
             = match last calls with
               | Some c => call_directory c
               | None => last_directory (statics m0)
               end).
  { clear. intros calls. induction calls as [|c calls IH]; intros m0 m1 Hb; simpl.
    - intros H. injection H as <-. split; [exact Hb | reflexivity].
    - destruct (ShowImageSubwindow w (call_title c) (call_directory c)
                  (call_width c) (call_height c) (call_input c) m0) as [m2|] eqn:E;
        [|discriminate].
      intros Hrun.
      destruct (IH m2 m1 (list_bound_call w _ _ _ _ _ m0 m2 Hb E) Hrun) as [Hb1 Hl1].
      split; [exact Hb1|]. rewrite Hl1.
      destruct (call_frame w _ _ _ _ _ m0 m2 E) as [_ Hd].
      destruct calls as [|c' calls']; [exact Hd|].
      rewrite last_cons_cons.
      destruct (last (c' :: calls')) eqn:El; [reflexivity|].
      apply last_None in El. discriminate. }
  intros Hrun. apply (Hgen calls initial_machine m); [|exact Hrun].
  unfold list_bound, GetImageFiles. simpl. rewrite Hroot.
  now rewrite orb_true_r.
Qed.

Lemma run_keeps_list_bound_witness :
  exists m,
    run sample_world [show "album" click_next; show "other" idle] initial_machine
      = Finished m /\
    image_files (statics m) = GetImageFiles sample_disk (last_directory (statics m)) /\
    last_directory (statics m) = "other".
Proof.
  eexists. split; [vm_compute; reflexivity|].
  apply (run_keeps_list_bound sample_world
           [show "album" click_next; show "other" idle]).
  - reflexivity.
  - vm_compute. reflexivity.
Defined.

(** ** When a call is defined *)

Lemma index_valid_activate (m : machine) (p : press) :
  index_valid (statics m) -> index_valid (statics (activate m p)).
Proof.
  intros [Hnil | Hrange].
  - left. now rewrite activate_image_files.
  - right. now apply activate_in_range.
Qed.

Lemma index_valid_lookup (st : BrowserState) :
  index_valid st -> empty (image_files st) = false ->
  exists path, image_files st !! Z.to_nat (current_image_index st) = Some path.
Proof.
  intros [Hnil | Hrange] He.
  - rewrite Hnil in He. discriminate.
  - now apply lookup_index_in_range.
Qed.

(** X14. A render call on a state whose index is valid once the directory
    check is done (the list is empty, or the index addresses one of its
    elements) always returns, whatever the clicks and whether or not the
    image decodes, and it leaves the index valid for the list it leaves. *)
Theorem call_returns_when_index_valid (w : world) (title directory : string)
  (width height : Z) (inp : frame_input) (m : machine) :
  index_valid (statics (rebind w directory m)) ->
  exists m',
    ShowImageSubwindow w title directory width height inp m = Finished m' /\
    index_valid (statics m') /\
    image_files (statics m') = image_files (statics (rebind w directory m)).
Proof.
  intros Hv. unfold ShowImageSubwindow.
  set (m1 := rebind w directory m) in *.
  assert (Hload : exists m2,
             (load_current w m1 = LoadContinue m2 \/ load_current w m1 = LoadReturn m2) /\
             index_valid (statics m2) /\
             image_files (statics m2) = image_files (statics m1)).
  { unfold load_current.
    destruct (texture (statics m1) =? 0); simpl; [|exists m1; auto].
    destruct (empty (image_files (statics m1))) eqn:Ee; simpl; [exists m1; auto|].
    destruct (index_valid_lookup _ Hv Ee) as [path ->].
    destruct (stbi_load w path) as [data|]; eexists; (split; [eauto|]);
      split; try reflexivity; exact Hv. }
  destruct Hload as (m2 & [E | E] & Hv2 & Hf2); rewrite E.
  - unfold draw.
    set (m3 := draw_image _ _ m2).
    set (m4 := if prev_clicked inp then on_prev m3 else m3).
    assert (H4 : index_valid (statics m4) /\
                 image_files (statics m4) = image_files (statics m1)).
    { subst m4. destruct (prev_clicked inp); [|split; assumption].
      split; [exact (index_valid_activate m3 Prev Hv2)|].
      pose proof (activate_image_files m3 Prev) as Hx. simpl in Hx.
      rewrite Hx. exact Hf2. }
    set (m5 := emit _ m4).
    set (m6 := if next_clicked inp then on_next m5 else m5).
    assert (H6 : index_valid (statics m6) /\
                 image_files (statics m6) = image_files (statics m1)).
    { destruct H4 as [H4v H4f]. subst m6.
      destruct (next_clicked inp); [|split; assumption].
      split; [exact (index_valid_activate m5 Next H4v)|].
      pose proof (activate_image_files m5 Next) as Hx. simpl in Hx.
      rewrite Hx. exact H4f. }
    destruct H6 as [H6v H6f]. unfold draw_caption. simpl.
    destruct (empty (image_files (statics m6))) eqn:Ee; simpl.
    + eexists. split; [reflexivity|]. split; assumption.
    + destruct (index_valid_lookup _ H6v Ee) as [path ->].
      eexists. split; [reflexivity|]. split; assumption.
  - exists m2. auto.
Qed.

Lemma call_returns_when_index_valid_witness :
  exists m',
    ShowImageSubwindow sample_world "t" "small" (-1) 250 click_next showing_first
      = Finished m' /\
    index_valid (statics m') /\
    image_files (statics m')
    = image_files (statics (rebind sample_world "small" showing_first)).
Proof.
  apply (call_returns_when_index_valid sample_world "t" "small" (-1) 250
           click_next showing_first).
  right. vm_compute. split; [discriminate | reflexivity].
Defined.

(** X15. With no button activated, a render call indexes the vector out
    of range exactly when, once the directory check is done, the list is
    not empty and the index is at or past its size. *)
Theorem idle_call_undefined_iff (w : world) (title directory : string)
  (width height : Z) (avail : ImVec2) (m : machine) :
  0 <= current_image_index (statics m) ->
  ShowImageSubwindow w title directory width height (FrameInput avail false false) m
    = Undefined
  <->
  image_files (statics (rebind w directory m)) <> [] /\
  size (image_files (statics (rebind w directory m)))
    <= current_image_index (statics m).
Proof.
  intros H0. split.
  - intros Hu.
    destruct (image_files (statics (rebind w directory m))) as [|f fs] eqn:El.
    + exfalso.
      destruct (call_returns_when_index_valid w title directory width height
                  (FrameInput avail false false) m) as (m' & Hm' & _).
      * now left.
      * congruence.
    + split; [discriminate|].
      destruct (Z_lt_le_dec (current_image_index (statics m))
                  (size (f :: fs))) as [Hlt | Hle]; [|exact Hle].
      exfalso.
      destruct (call_returns_when_index_valid w title directory width height
                  (FrameInput avail false false) m) as (m' & Hm' & _).
      * right. unfold index_in_range. rewrite rebind_index, El. lia.
      * congruence.
  - intros [Hne Hge].
    set (m1 := rebind w directory m) in *.
    assert (Hnone : image_files (statics m1)
                      !! Z.to_nat (current_image_index (statics m1)) = None).
    { apply lookup_ge_None.
      assert (Hi : current_image_index (statics m1) = current_image_index (statics m))
        by apply rebind_index.
      rewrite Hi. unfold size in Hge. lia. }
    assert (Hempty : empty (image_files (statics m1)) = false).
    { destruct (image_files (statics m1)); [contradiction | reflexivity]. }
    unfold ShowImageSubwindow. fold m1. unfold load_current.
    rewrite Hempty, Hnone. simpl.
    destruct (texture (statics m1) =? 0); simpl; [reflexivity|].
    unfold draw, draw_caption. simpl. now rewrite Hempty, Hnone.
Qed.

Lemma idle_call_undefined_iff_witness :
  ShowImageSubwindow sample_world "t" "small" (-1) 250 (FrameInput region false false)
    showing_last = Undefined.
Proof.
  apply (idle_call_undefined_iff sample_world "t" "small" (-1) 250 region showing_last).
  - vm_compute. discriminate.
  - vm_compute. split; discriminate.
Defined.

(** ** Navigation *)

(** X16. Stepping forth and back returns to the same image: where "next"
    has somewhere to go, "next" then "previous" leaves the index where it
    was, and where "previous" has, "previous" then "next" does; the list is
    untouched and no texture is held afterwards, so the next call reloads.
    The index and the size fit [size_t]. *)
Theorem next_prev_round_trip (m : machine) :
  0 <= current_image_index (statics m) ->
  size (image_files (statics m)) <= SIZE_MAX ->
  (current_image_index (statics m) + 1 < size (image_files (statics m)) ->
   current_image_index (statics (on_prev (on_next m))) = current_image_index (statics m) /\
   texture (statics (on_prev (on_next m))) = 0 /\
   image_files (statics (on_prev (on_next m))) = image_files (statics m)) /\
  (0 < current_image_index (statics m) < size (image_files (statics m)) ->
   current_image_index (statics (on_next (on_prev m))) = current_image_index (statics m) /\
   texture (statics (on_next (on_prev m))) = 0 /\
   image_files (statics (on_next (on_prev m))) = image_files (statics m)).
Proof.
  intros H0 Hmax. unfold SIZE_MAX in Hmax.
  assert (Hwrap : forall z, 0 <= z < 2 ^ 64 -> size_t_wrap z = z)
    by (intros z Hz; unfold size_t_wrap; now apply Z.mod_small).
  split.
  - intros Hnext. unfold on_next.
    rewrite Hwrap by lia.
    destruct (current_image_index (statics m) + 1 <? size (image_files (statics m)))
      eqn:E; [|apply Z.ltb_ge in E; lia].
    unfold on_prev. simpl.
    destruct (0 <? current_image_index (statics m) + 1) eqn:E1;
      [|apply Z.ltb_ge in E1; lia].
    simpl. repeat split. rewrite Hwrap by lia. lia.
  - intros Hprev. unfold on_prev.
    destruct (0 <? current_image_index (statics m)) eqn:E;
      [|apply Z.ltb_ge in E; lia].
    unfold on_next. simpl. rewrite (Hwrap (current_image_index (statics m) - 1)) by lia.
    replace (current_image_index (statics m) - 1 + 1)
      with (current_image_index (statics m)) by lia.
    rewrite Hwrap by lia.
    destruct (current_image_index (statics m) <? size (image_files (statics m)))
      eqn:E1; [|apply Z.ltb_ge in E1; lia].
    simpl. repeat split.
Qed.

Lemma next_prev_round_trip_witness :
  current_image_index (statics (on_prev (on_next showing_first))) = 0 /\
  current_image_index (statics (on_next (on_prev showing_last))) = 1.
Proof.
  split.
  - destruct (next_prev_round_trip showing_first) as [Hnext _].
    + vm_compute. discriminate.
    + vm_compute. discriminate.
    + apply Hnext. reflexivity.
  - destruct (next_prev_round_trip showing_last) as [_ Hprev].
    + vm_compute. discriminate.
    + vm_compute. discriminate.
    + apply Hprev. split; reflexivity.
Defined.

Lemma activations_cons (p : press) (presses : list press) (m : machine) :
  activations (p :: presses) m = activations presses (activate m p).
Proof. reflexivity. Qed.

(** X17. The buttons saturate: from an index in range, [n] activations of
    "next" lead to the index [min (index + n) (size - 1)] and [n]
    activations of "previous" to [max (index - n) 0]; so every image can be
    reached and pressing further at either end changes nothing. The size
    fits [size_t]. *)
Theorem repeated_presses_saturate (n : nat) (m : machine) :
  index_in_range (statics m) ->
  size (image_files (statics m)) <= SIZE_MAX ->
  current_image_index (statics (activations (repeat Next n) m))
  = Z.min (current_image_index (statics m) + Z.of_nat n)
          (size (image_files (statics m)) - 1) /\
  current_image_index (statics (activations (repeat Prev n) m))
  = Z.max (current_image_index (statics m) - Z.of_nat n) 0.
Proof.
  intros Hrange Hmax. unfold SIZE_MAX in Hmax.
  assert (Hwrap : forall z, 0 <= z < 2 ^ 64 -> size_t_wrap z = z)
    by (intros z Hz; unfold size_t_wrap; now apply Z.mod_small).
  split.
  - revert m Hrange Hmax. induction n as [|n IH]; intros m Hrange Hmax.
    + simpl. unfold index_in_range in Hrange. lia.
    + change (repeat Next (S n)) with (Next :: repeat Next n).
      rewrite activations_cons.
      pose proof (activate_in_range m Next Hrange) as Hr1.
      pose proof (activate_image_files m Next) as Hf1.
      rewrite IH; [|exact Hr1|now rewrite Hf1].
      rewrite Hf1. unfold index_in_range in Hrange.
      simpl. unfold on_next. rewrite Hwrap by lia.
      destruct (current_image_index (statics m) + 1 <? size (image_files (statics m)))
        eqn:E; simpl.
      * apply Z.ltb_lt in E. lia.
      * apply Z.ltb_ge in E. lia.
  - revert m Hrange Hmax. induction n as [|n IH]; intros m Hrange Hmax.
    + simpl. unfold index_in_range in Hrange. lia.
    + change (repeat Prev (S n)) with (Prev :: repeat Prev n).
      rewrite activations_cons.
      pose proof (activate_in_range m Prev Hrange) as Hr1.
      pose proof (activate_image_files m Prev) as Hf1.
      rewrite IH; [|exact Hr1|now rewrite Hf1].
      unfold index_in_range in Hrange.
      simpl. unfold on_prev.
      destruct (0 <? current_image_index (statics m)) eqn:E; simpl.
      * apply Z.ltb_lt in E. rewrite Hwrap by lia. lia.
      * apply Z.ltb_ge in E. lia.
Qed.

Lemma repeated_presses_saturate_witness :
  current_image_index (statics (activations (repeat Next 5) showing_first)) = 1 /\
  current_image_index (statics (activations (repeat Prev 5) showing_first)) = 0.
Proof.
  apply (repeated_presses_saturate 5 showing_first).
  - vm_compute. split; [discriminate | reflexivity].
  - vm_compute. discriminate.
Defined.

(** ** An image that does not decode *)

Lemma failed_call (w : world) (title directory : string) (width height : Z)
  (inp : frame_input) (st : BrowserState) (gl : gmap Z image) (tr : list event)
  (path : string) :
  last_directory st = directory ->
  texture st = 0 ->
  image_files st !! Z.to_nat (current_image_index st) = Some path ->
  stbi_load w path = None ->
  ShowImageSubwindow w title directory width height inp
    {| statics := st; gl_textures := gl; trace := tr |}
  = Finished {| statics := st; gl_textures := gl;
                trace := tr ++ [ Decoded path false;
                                 Cerr ("Failed to load image: " +:+ path) ] |}.
Proof.
  intros Hd Ht Hp Hf. unfold ShowImageSubwindow.
  rewrite rebind_same by exact Hd.
  unfold load_current. simpl. rewrite Ht, Hp, Hf. simpl.
  assert (He : empty (image_files st) = false).
  { destruct (image_files st); [|reflexivity]. now rewrite lookup_nil in Hp. }
  now rewrite He.
Qed.

(** X18. An image that does not decode blocks the widget. Once no texture
    is held and [image_files[current_image_index]] fails to decode, every
    further call on the same directory, whatever is clicked, tries the
    decode again, logs again and returns before any ImGui call: the
    statics and the GL textures never change, and the buttons that could
    move the index are never offered. *)
Theorem failed_decode_blocks_widget (w : world) (directory : string)
  (calls : list call) (m : machine) (path : string) :
  last_directory (statics m) = directory ->
  texture (statics m) = 0 ->
  image_files (statics m) !! Z.to_nat (current_image_index (statics m)) = Some path ->
  stbi_load w path = None ->
  Forall (fun c => call_directory c = directory) calls ->
  run w calls m
  = Finished {| statics := statics m; gl_textures := gl_textures m;
                trace := trace m ++
                  concat (map (fun _ => [ Decoded path false;
                                          Cerr ("Failed to load image: " +:+ path) ])
                              calls) |}.
Proof.
  intros Hd Ht Hp Hf Hall. destruct m as [st gl tr]. simpl in *.
  revert tr. induction Hall as [|c calls Hc _ IH]; intros tr; simpl.
  - now rewrite app_nil_r.
  - rewrite Hc, (failed_call w (call_title c) directory (call_width c)
                   (call_height c) (call_input c) st gl tr path Hd Ht Hp Hf).
    rewrite IH. now rewrite <- List.app_assoc.
Qed.

Lemma failed_decode_blocks_widget_witness :
  run sample_world [show "damaged" click_next; show "damaged" click_prev]
    {| statics := {| image_files := ["damaged/torn.png"]; last_directory := "damaged";
                     current_image_index := 0; texture := 0;
                     img_width := 0; img_height := 0 |};
       gl_textures := ∅; trace := [] |}
  = Finished
      {| statics := {| image_files := ["damaged/torn.png"]; last_directory := "damaged";
                       current_image_index := 0; texture := 0;
                       img_width := 0; img_height := 0 |};
         gl_textures := ∅;
         trace := [] ++
           concat (map (fun _ => [ Decoded "damaged/torn.png" false;
                                   Cerr ("Failed to load image: " +:+ "damaged/torn.png") ])
                       [show "damaged" click_next; show "damaged" click_prev]) |}.
Proof.
  apply (failed_decode_blocks_widget sample_world "damaged"
           [show "damaged" click_next; show "damaged" click_prev]
           {| statics := {| image_files := ["damaged/torn.png"];
                            last_directory := "damaged";
                            current_image_index := 0; texture := 0;
                            img_width := 0; img_height := 0 |};
              gl_textures := ∅; trace := [] |} "damaged/torn.png");
    try reflexivity.
  repeat constructor.
Defined.

(** ** [LoadTextureFromFile] *)

Lemma gen_texture_name_fresh (c : gl_context) :
  gen_texture_name c <> 0 /\ objects c !! gen_texture_name c = None.
Proof.
  unfold gen_texture_name.
  pose proof (is_fresh ({[0]} ∪ dom (objects c))) as Hfresh.
  split.
  - intros H. apply Hfresh. rewrite H. set_solver.
  - apply not_elem_of_dom. set_solver.
Qed.

(** X19. [LoadTextureFromFile] returns 0 exactly when the file does not
    decode; it then logs one line and leaves the GL context untouched.
    When the file decodes it returns a name that is not 0 and was not in
    use, and the context afterwards differs from the one before only in
    this: the new name holds the decoded image with linear filters and
    clamp-to-edge wrapping, and texture 0 is bound. Every other texture
    object is as it was, the unpack alignment is restored to what it was
    before the call, and the decoded buffer is freed. *)
Theorem LoadTextureFromFile_effect (decode : string -> option image)
  (filename : string) (c : gl_context) :
  (returned (LoadTextureFromFile decode filename c) = 0 <-> decode filename = None) /\
  (decode filename = None ->
     context_after (LoadTextureFromFile decode filename c) = c /\
     load_events (LoadTextureFromFile decode filename c)
     = [HostCerr ("Failed to load image: " +:+ filename)]) /\
  (forall data, decode filename = Some data ->
     objects c !! returned (LoadTextureFromFile decode filename c) = None /\
     objects (context_after (LoadTextureFromFile decode filename c))
       = <[ returned (LoadTextureFromFile decode filename c) :=
              {| level0 := Some data; min_filter := GL_LINEAR;
                 mag_filter := GL_LINEAR; wrap_s := GL_CLAMP_TO_EDGE;
                 wrap_t := GL_CLAMP_TO_EDGE |} ]> (objects c) /\
     texture_binding_2d (context_after (LoadTextureFromFile decode filename c)) = 0 /\
     unpack_alignment (context_after (LoadTextureFromFile decode filename c))
     = unpack_alignment c /\
     load_events (LoadTextureFromFile decode filename c) = [ImageFree filename]).
Proof.
  destruct (gen_texture_name_fresh c) as [Hne Hnone].
  unfold LoadTextureFromFile.
  destruct (decode filename) as [data|] eqn:Hd; simpl.
  - split; [split; [intros H; contradiction | discriminate]|].
    split; [discriminate|].
    intros data' Heq. injection Heq as <-.
    split; [exact Hnone|]. split; [|auto].
    apply Z.eqb_neq in Hne. rewrite Hne, Hnone.
    rewrite !alter_insert_eq. simpl. now destruct data.
  - split; [split; reflexivity|].
    split; [intros _; split; reflexivity | discriminate].
Qed.

Lemma LoadTextureFromFile_effect_witness :
  unpack_alignment
    (context_after (LoadTextureFromFile sample_decoder "album/a.png"
       {| objects := ∅; texture_binding_2d := 7; unpack_alignment := 4 |})) = 4 /\
  texture_binding_2d
    (context_after (LoadTextureFromFile sample_decoder "album/a.png"
       {| objects := ∅; texture_binding_2d := 7; unpack_alignment := 4 |})) = 0 /\
  context_after (LoadTextureFromFile sample_decoder "damaged/torn.png"
       {| objects := ∅; texture_binding_2d := 7; unpack_alignment := 4 |})
  = {| objects := ∅; texture_binding_2d := 7; unpack_alignment := 4 |}.
Proof.
  destruct (LoadTextureFromFile_effect sample_decoder "album/a.png"
              {| objects := ∅; texture_binding_2d := 7; unpack_alignment := 4 |})
    as (_ & _ & Hok).
  destruct (Hok (photo 4 2 1) eq_refl) as (_ & _ & Hbind & Halign & _).
  destruct (LoadTextureFromFile_effect sample_decoder "damaged/torn.png"
              {| objects := ∅; texture_binding_2d := 7; unpack_alignment := 4 |})
    as (_ & Hfail & _).
  destruct (Hfail eq_refl) as [Hctx _].
  split; [exact Halign|]. split; [exact Hbind | exact Hctx].
Defined.

(** ** [setup_fonts] and [setup_logo] *)

(** X20. Neither startup helper can fail. [setup_logo] installs the window
    icon exactly when [logo_viewport.png] exists under the data path and
    decodes, with the decoded dimensions, and then frees the buffer;
    otherwise it installs nothing and writes exactly one line to
    [std::cerr], which tells a file that is missing from one that does not
    decode. [setup_fonts] adds [DejaVuSans.ttf] at 14 pixels exactly when
    it exists under the data path, and otherwise writes exactly one line. *)
Theorem setup_helpers_report_or_load (env : environment)
  (decode : string -> option image) :
  ((exists icon, In (SetWindowIcon icon) (setup_logo env decode)) <->
   fs_exists (files env) (path_append (getDataPath env) "logo_viewport.png") = true /\
   decode (path_append (getDataPath env) "logo_viewport.png") <> None) /\
  (forall icon, In (SetWindowIcon icon) (setup_logo env decode) ->
     decode (path_append (getDataPath env) "logo_viewport.png") = Some icon /\
     setup_logo env decode
     = [ SetWindowIcon icon;
         ImageFree (path_append (getDataPath env) "logo_viewport.png") ]) /\
  (fs_exists (files env) (path_append (getDataPath env) "logo_viewport.png") = false ->
     setup_logo env decode
     = [HostCerr ("Logo file not found: "
                  +:+ quoted (path_append (getDataPath env) "logo_viewport.png"))]) /\
  (fs_exists (files env) (path_append (getDataPath env) "logo_viewport.png") = true ->
   decode (path_append (getDataPath env) "logo_viewport.png") = None ->
     setup_logo env decode
     = [HostCerr ("Failed to load logo image: "
                  +:+ quoted (path_append (getDataPath env) "logo_viewport.png"))]) /\
  (fs_exists (files env) (path_append (getDataPath env) "DejaVuSans.ttf") = true ->
     setup_fonts env
     = [AddFontFromFileTTF (path_append (getDataPath env) "DejaVuSans.ttf")
          (float_of_int 14)]) /\
  (fs_exists (files env) (path_append (getDataPath env) "DejaVuSans.ttf") = false ->
     setup_fonts env
     = [HostCerr ("Font file not found: "
                  +:+ quoted (path_append (getDataPath env) "DejaVuSans.ttf"))]).
Proof.
  unfold setup_logo, setup_fonts.
  set (logo_path := path_append (getDataPath env) "logo_viewport.png").
  set (font_path := path_append (getDataPath env) "DejaVuSans.ttf").
  destruct (fs_exists (files env) logo_path) eqn:El;
    destruct (decode logo_path) as [logo|] eqn:Hd;
    destruct (fs_exists (files env) font_path) eqn:Ef.
  all: split; [split|].
  all: try (intros [icon Hin]; simpl in Hin; intuition discriminate).
  all: try (intros _; split; [reflexivity | discriminate]).
  all: try (intros [H1 H2]; first [discriminate | congruence
                                  | eexists; left; reflexivity]).
  all: split; [intros icon Hin; simpl in Hin;
               first [ destruct Hin as [H | [H | []]]; [|discriminate];
                       injection H as <-; destruct logo; split; reflexivity
                     | intuition discriminate ]|].
  all: repeat split; intros; first [discriminate | reflexivity | congruence].
Qed.

Lemma setup_helpers_report_or_load_witness :
  setup_logo desk desk_decoder
  = [ SetWindowIcon (photo 32 32 9); ImageFree "/home/me/data/logo_viewport.png" ] /\
  setup_fonts desk
  = [ HostCerr ("Font file not found: "
                +:+ quoted (path_append (getDataPath desk) "DejaVuSans.ttf")) ].
Proof.
  destruct (setup_helpers_report_or_load desk desk_decoder)
    as (_ & Hicon & _ & _ & _ & Hfont).
  split.
  - destruct (Hicon (photo 32 32 9)) as [_ Hlogo]; [vm_compute; tauto|].
    exact Hlogo.
  - apply Hfont. reflexivity.
Defined.

(** ** [main] *)

Lemma scopes_app (a b : list host_call) (open : list scope) :
  scopes (a ++ b) open
  = match scopes a open with
    | Some open' => scopes b open'
    | None => None
    end.
Proof.
  revert open. induction a as [|c a IH]; intros open; simpl; [reflexivity|].
  destruct (scope_step open c); [apply IH | reflexivity].
Qed.

Lemma scopes_app_some (a b : list host_call) (open open' : list scope) :
  scopes a open = Some open' -> scopes (a ++ b) open = scopes b open'.
Proof. intros H. now rewrite scopes_app, H. Qed.

Lemma scopes_widget_quiet (evs : list event) (open : list scope) :
  Forall (fun e => is_imgui e = false) evs ->
  scopes (map Widget evs) open = Some open.
Proof.
  induction 1 as [|e evs He _ IH]; [reflexivity|].
  simpl. destruct e; try discriminate; exact IH.
Qed.

Lemma scopes_widget_panel (title : string) (size : ImVec2) (shown : Z)
  (thumb : spec_float) (d1 d2 cap : list event) (open : list scope) :
  release_events d1 -> release_events d2 ->
  (cap = [] \/ exists current, cap = [ImGui (Text ("Current media: " +:+ current))]) ->
  scopes (map Widget (panel_events title size shown thumb d1 d2 cap)) open
  = Some open.
Proof.
  intros H1 H2 Hcap. unfold panel_events. rewrite !map_app.
  rewrite (scopes_app_some _ _ _ (InColour :: InColour :: InColour :: InChild :: open))
    by reflexivity.
  rewrite (scopes_app_some (map Widget d1) _ _
             (InColour :: InColour :: InColour :: InChild :: open))
    by now apply scopes_widget_quiet, release_events_quiet.
  rewrite (scopes_app_some _ _ _ (InColour :: InColour :: InColour :: InChild :: open))
    by reflexivity.
  rewrite (scopes_app_some (map Widget d2) _ _
             (InColour :: InColour :: InColour :: InChild :: open))
    by now apply scopes_widget_quiet, release_events_quiet.
  rewrite (scopes_app_some _ _ _ (InChild :: open)) by reflexivity.
  destruct Hcap as [-> | [current ->]]; reflexivity.
Qed.

Lemma scopes_widget_call (w : world) (title directory : string) (width height : Z)
  (inp : frame_input) (m m' : machine) (open : list scope) :
  ShowImageSubwindow w title directory width height inp m = Finished m' ->
  scopes (map Widget (events_since m m')) open = Some open.
Proof.
  intros Hcall.
  destruct (call_trace w title directory width height inp m m' Hcall)
    as (scanned & loaded & panel & -> & Hscanned & Hrest).
  rewrite !map_app.
  rewrite (scopes_app_some _ _ _ open)
    by (apply scopes_widget_quiet;
        destruct Hscanned as [[-> _] | [-> _]]; repeat constructor).
  destruct Hrest as [[Hl (shown & thumb & d1 & d2 & cap & -> & Hq1 & Hq2 & Hcap & _)]
                    | [[path ->] ->]].
  - rewrite (scopes_app_some _ _ _ open)
      by (apply scopes_widget_quiet;
          destruct Hl as [-> | (path & data & name & _ & ->)]; repeat constructor).
    now apply scopes_widget_panel.
  - reflexivity.
Qed.

Lemma scopes_menu_bar (inp : main_input) (open : list scope) :
  scopes (main_menu_bar inp) open = Some open.
Proof.
  unfold main_menu_bar, menu.
  destruct (menu_bar_shown inp), (menu_file_shown inp), (menu_edit_shown inp),
           (menu_exit_shown inp); reflexivity.
Qed.

Lemma scopes_loop_body (env : environment) (w : world) (inp : main_input)
  (s s' : loop_state) (calls : list host_call) (open : list scope) :
  loop_body env w inp s = Some (calls, s') ->
  scopes calls open = Some open.
Proof.
  unfold loop_body.
  destruct (ShowImageSubwindow w "(Image Folder Navigator)" (getDataPath env)
              (-1) 250 (widget_input inp) (widget s)) as [m'|] eqn:E; [|discriminate].
  destruct (another_window (show_another_window s) inp) as [another show'] eqn:Ea.
  intros H.
  match type of H with
  | Some (?a ++ ?b ++ ?c ++ ?d ++ ?e ++ ?f ++ ?g, _) = _ =>
      assert (Hcalls : calls = a ++ b ++ c ++ d ++ e ++ f ++ g)
        by (injection H as <- _; reflexivity)
  end.
  rewrite Hcalls. clear H Hcalls.
  rewrite (scopes_app_some _ _ _ (InFrame :: open)) by reflexivity.
  rewrite (scopes_app_some _ _ _ (InFrame :: open)) by apply scopes_menu_bar.
  rewrite (scopes_app_some _ _ _
             (InPanel :: InColour :: InColour :: InMain :: InFrame :: open))
    by reflexivity.
  rewrite (scopes_app_some _ _ _
             (InPanel :: InColour :: InColour :: InMain :: InFrame :: open))
    by exact (scopes_widget_call _ _ _ _ _ _ _ _ _ E).
  rewrite (scopes_app_some _ _ _ (InFrame :: open)) by reflexivity.
  assert (Han : scopes another (InFrame :: open) = Some (InFrame :: open)).
  { unfold another_window in Ea.
    destruct (show_another_window s); injection Ea as <- _; reflexivity. }
  rewrite (scopes_app_some _ _ _ (InFrame :: open)) by exact Han.
  reflexivity.
Qed.

Lemma scopes_main_loop (env : environment) (w : world) (inputs : list main_input)
  (s : loop_state) (calls : list host_call) (open : list scope) :
  main_loop_calls env w inputs s = Some calls ->
  scopes calls open = Some open.
Proof.
  revert s calls. induction inputs as [|inp rest IH]; intros s calls; simpl.
  - intros H. injection H as <-. reflexivity.
  - destruct (loop_body env w inp s) as [[first s']|] eqn:Eb; [|discriminate].
    destruct (main_loop_calls env w rest s') as [more|] eqn:Em; [|discriminate].
    intros H. injection H as <-.
    rewrite (scopes_app_some _ _ _ open) by exact (scopes_loop_body _ _ _ _ _ _ _ Eb).
    exact (IH s' more Em).
Qed.

Lemma main_loop_defined (env : environment) (w : world) (inputs : list main_input)
  (s : loop_state) :
  coherent w (getDataPath env) (widget s) ->
  exists calls, main_loop_calls env w inputs s = Some calls.
Proof.
  revert s. induction inputs as [|inp rest IH]; intros s Hc; simpl; [eauto|].
  unfold loop_body.
  destruct (coherent_call w "(Image Folder Navigator)" (getDataPath env) (-1) 250
              (widget_input inp) (widget s) Hc) as (m' & -> & Hc' & _).
  destruct (another_window (show_another_window s) inp) as [another show'].
  destruct (IH {| show_another_window := show'; widget := m' |} Hc') as [more ->].
  eauto.
Qed.

(** The outcome of [main] in the model, for the iterations given. *)
Lemma main_outcome (es2 : bool) (env : environment)
  (decode : string -> option image) (init_ok window_ok : bool)
  (inputs : list main_input) :
  exists code calls,
    main es2 env decode init_ok window_ok inputs = Some (code, calls) /\
    (code = 1 <-> init_ok = false) /\
    (code = -1 <-> init_ok = true /\ window_ok = false) /\
    (code = 0 <-> init_ok = true /\ window_ok = true) /\
    scopes calls [] = Some [].
Proof.
  unfold main.
  destruct init_ok; cbn [negb].
  2: { do 2 eexists. split; [reflexivity|].
       repeat split; intros; try discriminate; try reflexivity;
         destruct H; discriminate. }
  assert (Hhints : forall open, scopes (window_hints es2 env) open = Some open).
  { intros open. unfold window_hints.
    destruct es2; [reflexivity|]. destruct (os env); reflexivity. }
  destruct window_ok; cbn [negb].
  2: { do 2 eexists. split; [reflexivity|].
       split; [split; intros; discriminate|].
       split; [split; intros; [split|]; reflexivity|].
       split; [split; [discriminate | intros [_ H]; discriminate]|].
       rewrite (scopes_app_some _ _ _ [InGlfw]) by reflexivity.
       rewrite (scopes_app_some _ _ _ [InGlfw]) by apply Hhints.
       reflexivity. }
  destruct (main_loop_defined env {| disk := files env; stbi_load := decode |} inputs
              {| show_another_window := false; widget := initial_machine |})
    as [frames Hframes]; [apply coherent_initial|].
  rewrite Hframes.
  do 2 eexists. split; [reflexivity|].
  split; [split; intros; discriminate|].
  split; [split; [discriminate | intros [_ H]; discriminate]|].
  split; [split; intros; [split|]; reflexivity|].
  rewrite (scopes_app_some _ _ _ [InGlfw]) by reflexivity.
  rewrite (scopes_app_some _ _ _ [InGlfw]) by apply Hhints.
  rewrite (scopes_app_some _ _ _
             [InImplOpenGL3; InImplGlfw; InContext; InWindow; InGlfw])
    by reflexivity.
  assert (Hsetup : forall evs open, scopes (map Setup evs) open = Some open)
    by (intros evs; induction evs; intros open; simpl; auto).
  rewrite (scopes_app_some _ _ _ _ (Hsetup _ _)).
  rewrite (scopes_app_some _ _ _ _ (Hsetup _ _)).
  rewrite (scopes_app_some _ _ _ _ (scopes_main_loop _ _ _ _ _ _ Hframes)).
  reflexivity.
Qed.

(** X21. Take a run of [main] in which the environment stays as it is, no
    [std::filesystem] call throws, and the window is closed after the
    iterations given (the model has no other runs: it does not show that
    the loop is left or that nothing throws). In such a run the widget
    never indexes out of range, whatever the user does in each frame. The
    exit code is 1 exactly when [glfwInit] fails, -1 exactly when it
    succeeds and the window cannot be created, and 0 otherwise. In all
    three cases the calls made are properly nested: what was initialised
    is shut down in reverse order ([glfwTerminate] also on the
    window-creation failure, nothing on the [glfwInit] failure), and in
    every frame [NewFrame]/[Render], the menu bar and its menus, the main
    window, the three panels, the widget's child window and the pushed
    style colours are closed innermost first. *)
Theorem main_exit_code_and_nesting (es2 : bool) (env : environment)
  (decode : string -> option image) (init_ok window_ok : bool)
  (inputs : list main_input) :
  main es2 env decode init_ok window_ok inputs <> None /\
  (forall code calls,
      main es2 env decode init_ok window_ok inputs = Some (code, calls) ->
      (code = 1 <-> init_ok = false) /\
      (code = -1 <-> init_ok = true /\ window_ok = false) /\
      (code = 0 <-> init_ok = true /\ window_ok = true) /\
      scopes calls [] = Some []).
Proof.
  destruct (main_outcome es2 env decode init_ok window_ok inputs)
    as (code & calls & Hmain & Hrest).
  split; [rewrite Hmain; discriminate|].
  intros code' calls' Heq. rewrite Hmain in Heq. injection Heq as <- <-.
  exact Hrest.
Qed.

Lemma main_exit_code_and_nesting_witness :
  exists calls,
    main false desk desk_decoder true false [quiet_frame] = Some (-1, calls) /\
    scopes calls [] = Some [].
Proof.
  eexists. split; [vm_compute; reflexivity|].
  eapply (main_exit_code_and_nesting false desk desk_decoder true false [quiet_frame]).
  vm_compute. reflexivity.
Defined.

Lemma main_witness_frame :
  exists code calls,
    main false desk desk_decoder true true [quiet_frame; quiet_frame]
      = Some (code, calls) /\
    code = 0 /\ scopes calls [] = Some [].
Proof.
  eexists. eexists. split; [vm_compute; reflexivity|].
  split; reflexivity.
Qed.

Lemma loop_body_hides_another (env : environment) (w : world) (inp : main_input)
  (m : machine) (calls : list host_call) (s' : loop_state) :
  loop_body env w inp {| show_another_window := false; widget := m |}
    = Some (calls, s') ->
  show_another_window s' = false /\
  Forall (fun c => c <> Begin "Another Window" /\ c <> CloseMeButton) calls.
Proof.
  unfold loop_body, another_window. cbn [show_another_window widget].
  destruct (ShowImageSubwindow w "(Image Folder Navigator)" (getDataPath env)
              (-1) 250 (widget_input inp) m) as [m'|]; [|discriminate].
  cbv beta iota zeta. intros H.
  match type of H with
  | Some (?a ++ ?b ++ ?c ++ ?d ++ ?e ++ ?f ++ ?g, ?st) = _ =>
      assert (Hcalls : calls = a ++ b ++ c ++ d ++ e ++ f ++ g /\ s' = st)
        by (injection H as <- <-; split; reflexivity)
  end.
  destruct Hcalls as [-> ->]. clear H. split; [reflexivity|].
  repeat apply Forall_app_2.
  - repeat constructor; discriminate.
  - unfold main_menu_bar, menu.
    destruct (menu_bar_shown inp), (menu_file_shown inp), (menu_edit_shown inp),
             (menu_exit_shown inp); repeat constructor; discriminate.
  - repeat constructor; discriminate.
  - apply List.Forall_forall. intros c Hc. apply in_map_iff in Hc.
    destruct Hc as [e [<- _]]. split; discriminate.
  - repeat constructor; discriminate.
  - constructor.
  - unfold present. repeat constructor; discriminate.
Qed.

(** X22. The "Another Window" is never shown: [show_another_window] starts
    false and is only ever assigned false, so in no run of [main] is
    [ImGui::Begin("Another Window")] called or the "Close Me" button
    offered. *)
Theorem another_window_never_shown (es2 : bool) (env : environment)
  (decode : string -> option image) (init_ok window_ok : bool)
  (inputs : list main_input) (code : Z) (calls : list host_call) :
  main es2 env decode init_ok window_ok inputs = Some (code, calls) ->
  Forall (fun c => c <> Begin "Another Window" /\ c <> CloseMeButton) calls.
Proof.
  unfold main.
  assert (Hhints : Forall (fun c => c <> Begin "Another Window" /\ c <> CloseMeButton)
                     (window_hints es2 env)).
  { unfold window_hints. destruct es2; [|destruct (os env)];
      repeat constructor; discriminate. }
  assert (Hsetup : forall evs,
             Forall (fun c => c <> Begin "Another Window" /\ c <> CloseMeButton)
               (map Setup evs)).
  { intros evs. apply List.Forall_forall. intros c Hc. apply in_map_iff in Hc.
    destruct Hc as [e [<- _]]. split; discriminate. }
  assert (Hloop : forall inputs m frames,
             main_loop_calls env {| disk := files env; stbi_load := decode |} inputs
               {| show_another_window := false; widget := m |} = Some frames ->
             Forall (fun c => c <> Begin "Another Window" /\ c <> CloseMeButton) frames).
  { clear. intros inputs. induction inputs as [|inp rest IH]; intros m frames; simpl.
    - intros H. injection H as <-. constructor.
    - destruct (loop_body env _ inp _) as [[first s']|] eqn:Eb; [|discriminate].
      destruct (loop_body_hides_another _ _ _ _ _ _ Eb) as [Hs Hfirst].
      destruct s' as [show' m']. simpl in Hs. subst show'.
      destruct (main_loop_calls env _ rest _) as [more|] eqn:Em; [|discriminate].
      intros H. injection H as <-.
      apply Forall_app_2; [exact Hfirst | exact (IH m' more Em)]. }
  destruct init_ok; cbn [negb].
  2: { intros H. injection H as _ <-. repeat constructor; discriminate. }
  destruct window_ok; cbn [negb].
  2: { intros H.
       match type of H with
       | Some (_, ?a ++ ?b ++ ?c) = _ =>
           assert (Hcalls : calls = a ++ b ++ c) by (injection H as _ <-; reflexivity)
       end.
       rewrite Hcalls. repeat apply Forall_app_2; try exact Hhints;
         repeat constructor; discriminate. }
  destruct (main_loop_calls env _ inputs _) as [frames|] eqn:Ef; [|discriminate].
  intros H.
  match type of H with
  | Some (_, ?a ++ ?b ++ ?c ++ ?d ++ ?e ++ ?f ++ ?g) = _ =>
      assert (Hcalls : calls = a ++ b ++ c ++ d ++ e ++ f ++ g)
        by (injection H as _ <-; reflexivity)
  end.
  rewrite Hcalls. repeat apply Forall_app_2;
    try exact Hhints; try apply Hsetup; try exact (Hloop _ _ _ Ef);
    repeat constructor; discriminate.
Qed.

Lemma another_window_never_shown_witness :
  exists code calls,
    main false desk desk_decoder true true [quiet_frame; quiet_frame]
      = Some (code, calls) /\
    Forall (fun c => c <> Begin "Another Window" /\ c <> CloseMeButton) calls.
Proof.
  eexists. eexists. split; [vm_compute; reflexivity|].
  eapply (another_window_never_shown false desk desk_decoder true true
            [quiet_frame; quiet_frame]).
  vm_compute. reflexivity.
Defined.
